(** * Piper: lexer, parser and code generator

    A shallow embedding of the three stages of the Piper compiler
    (src/lexer.ts, src/parser.ts, src/codegen.ts) and of the report of
    their errors (src/errors.ts), of the facts their specification states
    about them, and of facts the code shows beyond those.

    Conventions of the embedding.
    - A JavaScript string is a [string]; each character stands for one code
      unit (the 8-bit range).
    - A stage instance (the object holding the cursor, the token index or the
      output buffer) is a record; a method is a function in the monad
      [M St] that threads the instance and may throw.  No code of the three
      stages catches an exception, so an instance is not followed past a
      throw: [Throw] carries the error alone.
    - Loops of the source that are not bounded by the structure of their
      input take a fuel argument; [OutOfFuel] is not a result of the program,
      it only says that the given fuel did not reach one. *)

From Stdlib Require Import Bool Arith Lia List String Ascii NArith Sorted.
From Stdlib Require Import DecimalString.
Import ListNotations.

Open Scope list_scope.
Open Scope string_scope.

(** ** Host-language values *)

(** The errors a stage can raise: [new Error(message)], the parser's
    [PiperError], and the [TypeError] the host raises on a property access or
    an iteration over [undefined]. *)
Inductive Error : Type :=
| JsError (message : string)
| PiperError (message : string) (source : string) (line column : nat)
| TypeError.

Inductive Outcome (St A : Type) : Type :=
| Ok (a : A) (s : St)
| Throw (e : Error)
| OutOfFuel.

Arguments Ok {St A} a s.
Arguments Throw {St A} e.
Arguments OutOfFuel {St A}.

Definition M (St A : Type) : Type := St -> Outcome St A.

Definition ret {St A} (a : A) : M St A := fun s => Ok a s.

Definition bind {St A B} (m : M St A) (k : A -> M St B) : M St B :=
  fun s =>
    match m s with
    | Ok a s' => k a s'
    | Throw e => Throw e
    | OutOfFuel => OutOfFuel
    end.

Definition throw {St A} (e : Error) : M St A := fun _ => Throw e.
Definition outOfFuel {St A} : M St A := fun _ => OutOfFuel.
Definition getState {St} : M St St := fun s => Ok s s.
Definition putState {St} (s : St) : M St unit := fun _ => Ok tt s.

Declare Scope monad_scope.
Delimit Scope monad_scope with monad.
Notation "x <- m ;; k" := (bind m (fun x => k))
  (at level 61, m at next level, right associativity) : monad_scope.
Notation "m ;; k" := (bind m (fun _ => k))
  (at level 61, right associativity) : monad_scope.
Open Scope monad_scope.

(** Characters the source names by escape. *)
Definition NUL : ascii := "000"%char.
Definition LF : ascii := "010"%char.
Definition TAB : ascii := "009"%char.
Definition CR : ascii := "013"%char.
Definition DQUOTE : ascii := "034"%char.
Definition SQUOTE : ascii := "039"%char.
Definition BACKSLASH : ascii := "092"%char.

Definition str (c : ascii) : string := String c EmptyString.

(** [`${n}`] for a non-negative integer. *)
Definition showNat (n : nat) : string := NilEmpty.string_of_uint (Nat.to_uint n).

(** [s[i]]: [None] is [undefined]. *)
Definition charAt (s : string) (i : nat) : option ascii := String.get i s.

Definition inRange (lo hi c : ascii) : bool :=
  Nat.leb (nat_of_ascii lo) (nat_of_ascii c)
  && Nat.leb (nat_of_ascii c) (nat_of_ascii hi).

(** [/[0-9]/.test(c)], [/[a-zA-Z_]/.test(c)], [/[a-zA-Z0-9_]/.test(c)]. *)
Definition isDigit (c : ascii) : bool := inRange "0" "9" c.
Definition isIdentStart (c : ascii) : bool :=
  inRange "a" "z" c || inRange "A" "Z" c || Ascii.eqb c "_".
Definition isIdentPart (c : ascii) : bool :=
  inRange "a" "z" c || inRange "A" "Z" c || isDigit c || Ascii.eqb c "_".

Record SourceLocation : Type := mkLoc { line : nat; column : nat }.

(** ** Tokens (src/lexer.ts) *)

(** The enum [TokenType]. [KEYWORDS[value]] is a lookup in an object literal:
    for a name that the object inherits from [Object.prototype] it yields that
    inherited value, which is truthy and is stored as the token's type;
    [INHERITED name] stands for it. *)
Inductive TokenType : Type :=
| NUMBER | STRING | TRUE | FALSE | NULL
| IDENTIFIER | LET | VAR | FN | IF | THEN | ELSE | WHILE | FOR | IN | RETURN
| PLUS | MINUS | STAR | SLASH | PERCENT | EQ | EQEQ | NEQ
| LT | LTE | GT | GTE | AND | OR | NOT | PIPE
| LPAREN | RPAREN | LBRACE | RBRACE | LBRACKET | RBRACKET
| COMMA | SEMICOLON | ARROW
| EOF | NEWLINE
| INHERITED (name : string).

Definition TokenType_eqb (a b : TokenType) : bool :=
  match a, b with
  | NUMBER, NUMBER | STRING, STRING | TRUE, TRUE | FALSE, FALSE | NULL, NULL
  | IDENTIFIER, IDENTIFIER | LET, LET | VAR, VAR | FN, FN | IF, IF
  | THEN, THEN | ELSE, ELSE | WHILE, WHILE | FOR, FOR | IN, IN
  | RETURN, RETURN | PLUS, PLUS | MINUS, MINUS | STAR, STAR | SLASH, SLASH
  | PERCENT, PERCENT | EQ, EQ | EQEQ, EQEQ | NEQ, NEQ | LT, LT | LTE, LTE
  | GT, GT | GTE, GTE | AND, AND | OR, OR | NOT, NOT | PIPE, PIPE
  | LPAREN, LPAREN | RPAREN, RPAREN | LBRACE, LBRACE | RBRACE, RBRACE
  | LBRACKET, LBRACKET | RBRACKET, RBRACKET | COMMA, COMMA
  | SEMICOLON, SEMICOLON | ARROW, ARROW | EOF, EOF | NEWLINE, NEWLINE => true
  | INHERITED x, INHERITED y => String.eqb x y
  | _, _ => false
  end.

Record Token : Type := mkToken {
  type : TokenType;
  value : string;
  loc : SourceLocation
}.

(** The names every object literal inherits. *)
Definition objectPrototypeNames : list string :=
  [ "constructor"; "toString"; "toLocaleString"; "valueOf"; "hasOwnProperty";
    "isPrototypeOf"; "propertyIsEnumerable"; "__proto__";
    "__defineGetter__"; "__defineSetter__"; "__lookupGetter__";
    "__lookupSetter__" ].

Definition inList (x : string) (l : list string) : bool :=
  existsb (String.eqb x) l.

Arguments inList : simpl never.

(** [KEYWORDS[value]]. *)
Definition KEYWORDS (v : string) : option TokenType :=
  if v =? "let" then Some LET
  else if v =? "var" then Some VAR
  else if v =? "fn" then Some FN
  else if v =? "if" then Some IF
  else if v =? "then" then Some THEN
  else if v =? "else" then Some ELSE
  else if v =? "while" then Some WHILE
  else if v =? "for" then Some FOR
  else if v =? "in" then Some IN
  else if v =? "return" then Some RETURN
  else if v =? "true" then Some TRUE
  else if v =? "false" then Some FALSE
  else if v =? "null" then Some NULL
  else if inList v objectPrototypeNames then Some (INHERITED v)
  else None.

Module Lexer.

(** The two messages the lexer throws. *)
Definition unterminatedString (start : SourceLocation) : Error :=
  JsError ("Unterminated string at line " ++ showNat (line start)
           ++ ", column " ++ showNat (column start)).

Definition unexpectedCharacter (char : ascii) (at_ : SourceLocation) : Error :=
  JsError ("Unexpected character '" ++ str char ++ "' at line "
           ++ showNat (line at_) ++ ", column " ++ showNat (column at_)).

Record Lexer : Type := mkLexer {
  source : string;
  pos : nat;
  line : nat;
  column : nat
}.

(** [new Lexer(source)]. *)
Definition new (src : string) : Lexer := mkLexer src 0 1 1.

(** [this.source[this.pos] || '\0']. *)
Definition current (lx : Lexer) : ascii :=
  match charAt (source lx) (pos lx) with
  | Some c => c
  | None => NUL
  end.

Definition peek (offset : nat) (lx : Lexer) : ascii :=
  match charAt (source lx) (pos lx + offset) with
  | Some c => c
  | None => NUL
  end.

Definition here (lx : Lexer) : SourceLocation := mkLoc (line lx) (column lx).

Definition getCurrent : M Lexer ascii := fun lx => Ok (current lx) lx.
Definition getPeek : M Lexer ascii := fun lx => Ok (peek 1 lx) lx.
Definition getHere : M Lexer SourceLocation := fun lx => Ok (here lx) lx.

Definition advance : M Lexer ascii := fun lx =>
  let ch := current lx in
  if Ascii.eqb ch LF
  then Ok ch (mkLexer (source lx) (S (pos lx)) (S (line lx)) 1)
  else Ok ch (mkLexer (source lx) (S (pos lx)) (line lx) (S (column lx))).

Definition isBlank (c : ascii) : bool :=
  Ascii.eqb c " " || Ascii.eqb c TAB || Ascii.eqb c CR.

Fixpoint skipWhitespace (fuel : nat) : M Lexer unit :=
  match fuel with
  | 0 => outOfFuel
  | S fuel' =>
      c <- getCurrent ;;
      if isBlank c then advance ;; skipWhitespace fuel' else ret tt
  end.

(** The loop of [skipComment] reads [this.source[this.pos]] itself, not
    [this.current]: past the end it reads [undefined], which is neither
    ['\n'] nor ['\0'], and the loop goes on. *)
Definition commentGoesOn (lx : Lexer) : bool :=
  match charAt (source lx) (pos lx) with
  | Some c => negb (Ascii.eqb c LF) && negb (Ascii.eqb c NUL)
  | None => true
  end.

Fixpoint skipCommentLoop (fuel : nat) : M Lexer unit :=
  match fuel with
  | 0 => outOfFuel
  | S fuel' =>
      lx <- getState ;;
      if commentGoesOn lx then advance ;; skipCommentLoop fuel' else ret tt
  end.

Definition skipComment (fuel : nat) : M Lexer unit :=
  ch <- getCurrent ;;
  nx <- getPeek ;;
  if Ascii.eqb ch "/" && Ascii.eqb nx "/" then
    lx <- getState ;;
    putState (mkLexer (source lx) (pos lx + 2) (line lx) (column lx + 2)) ;;
    skipCommentLoop fuel
  else ret tt.

(** [while (/[0-9]/.test(this.current)) value += this.advance()]. *)
Fixpoint readDigits (fuel : nat) (value : string) : M Lexer string :=
  match fuel with
  | 0 => outOfFuel
  | S fuel' =>
      c <- getCurrent ;;
      if isDigit c then ch <- advance ;; readDigits fuel' (value ++ str ch)
      else ret value
  end.

Definition readNumber (fuel : nat) : M Lexer Token :=
  start <- getHere ;;
  value <- readDigits fuel EmptyString ;;
  c <- getCurrent ;;
  nx <- getPeek ;;
  if Ascii.eqb c "." && isDigit nx then
    dot <- advance ;;
    value' <- readDigits fuel (value ++ str dot) ;;
    ret (mkToken NUMBER value' start)
  else ret (mkToken NUMBER value start).

(** The [switch (next)] of [readString]: every case appends the character
    the escape denotes, the default the character itself. *)
Definition unescape (quote next : ascii) : ascii :=
  if Ascii.eqb next "n" then LF
  else if Ascii.eqb next "t" then TAB
  else if Ascii.eqb next "r" then CR
  else if Ascii.eqb next BACKSLASH then BACKSLASH
  else if Ascii.eqb next quote then quote
  else next.

Fixpoint readStringLoop (fuel : nat) (quote : ascii) (value : string)
  : M Lexer string :=
  match fuel with
  | 0 => outOfFuel
  | S fuel' =>
      c <- getCurrent ;;
      if negb (Ascii.eqb c quote) && negb (Ascii.eqb c NUL) then
        if Ascii.eqb c BACKSLASH then
          advance ;;
          next <- advance ;;
          readStringLoop fuel' quote (value ++ str (unescape quote next))
        else
          ch <- advance ;;
          readStringLoop fuel' quote (value ++ str ch)
      else ret value
  end.

Definition readString (fuel : nat) : M Lexer Token :=
  start <- getHere ;;
  quote <- advance ;;
  value <- readStringLoop fuel quote EmptyString ;;
  c <- getCurrent ;;
  if Ascii.eqb c NUL then throw (unterminatedString start)
  else advance ;; ret (mkToken STRING value start).

Fixpoint readIdentifierLoop (fuel : nat) (value : string) : M Lexer string :=
  match fuel with
  | 0 => outOfFuel
  | S fuel' =>
      c <- getCurrent ;;
      if isIdentPart c then
        ch <- advance ;; readIdentifierLoop fuel' (value ++ str ch)
      else ret value
  end.

Definition readIdentifier (fuel : nat) : M Lexer Token :=
  start <- getHere ;;
  value <- readIdentifierLoop fuel EmptyString ;;
  ret (mkToken (match KEYWORDS value with Some t => t | None => IDENTIFIER end)
               value start).

(** The [switch (char)] of the single-character tokens. *)
Definition singleCharToken (char : ascii) : option TokenType :=
  if Ascii.eqb char "+" then Some PLUS
  else if Ascii.eqb char "-" then Some MINUS
  else if Ascii.eqb char "*" then Some STAR
  else if Ascii.eqb char "/" then Some SLASH
  else if Ascii.eqb char "%" then Some PERCENT
  else if Ascii.eqb char "=" then Some EQ
  else if Ascii.eqb char "<" then Some LT
  else if Ascii.eqb char ">" then Some GT
  else if Ascii.eqb char "!" then Some NOT
  else if Ascii.eqb char "(" then Some LPAREN
  else if Ascii.eqb char ")" then Some RPAREN
  else if Ascii.eqb char "{" then Some LBRACE
  else if Ascii.eqb char "}" then Some RBRACE
  else if Ascii.eqb char "[" then Some LBRACKET
  else if Ascii.eqb char "]" then Some RBRACKET
  else if Ascii.eqb char "," then Some COMMA
  else if Ascii.eqb char ";" then Some SEMICOLON
  else if Ascii.eqb char "|" then Some PIPE
  else None.

(** The two-character operators, in the order the source tests them. *)
Definition twoCharToken (c nx : ascii) : option (TokenType * string) :=
  if Ascii.eqb c "=" && Ascii.eqb nx "=" then Some (EQEQ, "==")
  else if Ascii.eqb c "!" && Ascii.eqb nx "=" then Some (NEQ, "!=")
  else if Ascii.eqb c "<" && Ascii.eqb nx "=" then Some (LTE, "<=")
  else if Ascii.eqb c ">" && Ascii.eqb nx "=" then Some (GTE, ">=")
  else if Ascii.eqb c "&" && Ascii.eqb nx "&" then Some (AND, "&&")
  else if Ascii.eqb c "|" && Ascii.eqb nx "|" then Some (OR, "||")
  else if Ascii.eqb c "|" && Ascii.eqb nx ">" then Some (PIPE, "|>")
  else if Ascii.eqb c "-" && Ascii.eqb nx ">" then Some (ARROW, "->")
  else None.

(** What one turn of the [while] loop of [tokenize] says about the loop:
    [break], or [continue] after pushing one token. *)
Inductive Turn : Type :=
| Break
| Push (t : Token).

(** The body of the [while] loop of [tokenize]. *)
Definition tokenizeTurn (fuel : nat) : M Lexer Turn :=
  skipWhitespace fuel ;;
  skipComment fuel ;;
  c <- getCurrent ;;
  if Ascii.eqb c NUL then ret Break
  else
    loc <- getHere ;;
    if Ascii.eqb c LF then
      advance ;; ret (Push (mkToken NEWLINE "\n" loc))
    else if isDigit c then
      t <- readNumber fuel ;; ret (Push t)
    else if Ascii.eqb c DQUOTE || Ascii.eqb c SQUOTE then
      t <- readString fuel ;; ret (Push t)
    else if isIdentStart c then
      t <- readIdentifier fuel ;; ret (Push t)
    else
      nx <- getPeek ;;
      match twoCharToken c nx with
      | Some (ty, text) =>
          advance ;; advance ;; ret (Push (mkToken ty text loc))
      | None =>
          char <- advance ;;
          match singleCharToken char with
          | Some ty => ret (Push (mkToken ty (str char) loc))
          | None => throw (unexpectedCharacter char loc)
          end
      end.

Fixpoint tokenizeLoop (fuel : nat) (tokens : list Token)
  : M Lexer (list Token) :=
  match fuel with
  | 0 => outOfFuel
  | S fuel' =>
      c <- getCurrent ;;
      if Ascii.eqb c NUL then ret tokens
      else
        turn <- tokenizeTurn fuel' ;;
        match turn with
        | Break => ret tokens
        | Push t => tokenizeLoop fuel' (tokens ++ [t])%list
        end
  end.

Definition tokenize (fuel : nat) : M Lexer (list Token) :=
  tokens <- tokenizeLoop fuel [] ;;
  at_ <- getHere ;;
  ret (tokens ++ [mkToken EOF EmptyString at_])%list.

End Lexer.

(** ** Numbers of the host

    The compiler does two things with a number: [parseFloat] of the text of a
    NUMBER token, and [String] of the result.  Both are host functions on
    doubles.  They are modelled on decimal texts (digits, then optionally a
    dot and digits), the only texts [readNumber] produces, as the exact
    decimal value; this is what the host computes for such a text of at most
    15 significant digits whose value is zero or lies between 1e-6 and 1e21.
    Any other text is [NaN] here. *)
Inductive JSNumber : Type :=
| Dec (int : N) (frac : string)
| NaN.

Definition digitValue (c : ascii) : N := N.of_nat (nat_of_ascii c - 48).

Fixpoint allDigits (s : string) : bool :=
  match s with
  | EmptyString => true
  | String c s' => isDigit c && allDigits s'
  end.

Fixpoint digitsToN (acc : N) (s : string) : N :=
  match s with
  | EmptyString => acc
  | String c s' => digitsToN (10 * acc + digitValue c) s'
  end.

(** Drops the zeros at the end of a fraction. *)
Fixpoint trimZeros (s : string) : string :=
  match s with
  | EmptyString => EmptyString
  | String c s' =>
      match trimZeros s' with
      | EmptyString => if Ascii.eqb c "0" then EmptyString else str c
      | t => String c t
      end
  end.

Fixpoint splitAtDot (s : string) : string * option string :=
  match s with
  | EmptyString => (EmptyString, None)
  | String c s' =>
      if Ascii.eqb c "." then (EmptyString, Some s')
      else let (a, b) := splitAtDot s' in (String c a, b)
  end.

Definition parseFloat (text : string) : JSNumber :=
  match splitAtDot text with
  | (i, None) =>
      if allDigits i && negb (String.eqb i EmptyString)
      then Dec (digitsToN 0 i) EmptyString else NaN
  | (i, Some f) =>
      if allDigits i && negb (String.eqb i EmptyString)
         && allDigits f && negb (String.eqb f EmptyString)
      then Dec (digitsToN 0 i) (trimZeros f) else NaN
  end.

(** [String(n)] for a number. *)
Definition numberToString (n : JSNumber) : string :=
  match n with
  | Dec i f =>
      let whole := NilEmpty.string_of_uint (N.to_uint i) in
      if String.eqb f EmptyString then whole else whole ++ "." ++ f
  | NaN => "NaN"
  end.

(** ** The syntax tree (src/ast.ts) *)

(** [Literal.value: number | string | boolean | null]. *)
Inductive LiteralValue : Type :=
| VNumber (n : JSNumber)
| VString (s : string)
| VBoolean (b : bool)
| VNull.

(** The union [ASTNode].  Every interface has the optional [loc]; an optional
    field is an [option]. *)
#[warnings="-register-all"]
Inductive ASTNode : Type :=
| Program (body : list ASTNode)
| LetDeclaration (name : string) (init : ASTNode) (loc : option SourceLocation)
| VarDeclaration (name : string) (init : ASTNode) (loc : option SourceLocation)
| FunctionDeclaration (name : string) (params : list string) (body : ASTNode)
    (isExpression : bool) (loc : option SourceLocation)
| Assignment (name : string) (value : ASTNode) (loc : option SourceLocation)
| IfExpression (condition thenBranch : ASTNode) (elseBranch : option ASTNode)
    (loc : option SourceLocation)
| WhileStatement (condition body : ASTNode) (loc : option SourceLocation)
| ForStatement (variable : string) (iterable body : ASTNode)
    (loc : option SourceLocation)
| BlockExpression (statements : list ASTNode) (loc : option SourceLocation)
| BinaryExpression (operator : string) (left right : ASTNode)
    (loc : option SourceLocation)
| UnaryExpression (operator : string) (operand : ASTNode)
    (loc : option SourceLocation)
| PipeExpression (left right : ASTNode) (loc : option SourceLocation)
| CallExpression (callee : ASTNode) (args : list ASTNode)
    (loc : option SourceLocation)
| Lambda (params : list string) (body : ASTNode) (loc : option SourceLocation)
| Identifier (name : string) (loc : option SourceLocation)
| Literal (value : LiteralValue) (raw : string) (loc : option SourceLocation)
| ArrayLiteral (elements : list ASTNode) (loc : option SourceLocation)
| ExpressionStatement (expression : ASTNode) (loc : option SourceLocation)
| ReturnStatement (value : option ASTNode) (loc : option SourceLocation).

(** [node.loc]. *)
Definition nodeLoc (node : ASTNode) : option SourceLocation :=
  match node with
  | Program _ => None
  | LetDeclaration _ _ l | VarDeclaration _ _ l
  | FunctionDeclaration _ _ _ _ l | Assignment _ _ l | IfExpression _ _ _ l
  | WhileStatement _ _ l | ForStatement _ _ _ l | BlockExpression _ l
  | BinaryExpression _ _ _ l | UnaryExpression _ _ l | PipeExpression _ _ l
  | CallExpression _ _ l | Lambda _ _ l | Identifier _ l | Literal _ _ l
  | ArrayLiteral _ l | ExpressionStatement _ l | ReturnStatement _ l => l
  end.

(** [node.type]. *)
Definition nodeType (node : ASTNode) : string :=
  match node with
  | Program _ => "Program"
  | LetDeclaration _ _ _ => "LetDeclaration"
  | VarDeclaration _ _ _ => "VarDeclaration"
  | FunctionDeclaration _ _ _ _ _ => "FunctionDeclaration"
  | Assignment _ _ _ => "Assignment"
  | IfExpression _ _ _ _ => "IfExpression"
  | WhileStatement _ _ _ => "WhileStatement"
  | ForStatement _ _ _ _ => "ForStatement"
  | BlockExpression _ _ => "BlockExpression"
  | BinaryExpression _ _ _ _ => "BinaryExpression"
  | UnaryExpression _ _ _ => "UnaryExpression"
  | PipeExpression _ _ _ => "PipeExpression"
  | CallExpression _ _ _ => "CallExpression"
  | Lambda _ _ _ => "Lambda"
  | Identifier _ _ => "Identifier"
  | Literal _ _ _ => "Literal"
  | ArrayLiteral _ _ => "ArrayLiteral"
  | ExpressionStatement _ _ => "ExpressionStatement"
  | ReturnStatement _ _ => "ReturnStatement"
  end.

(** ** Diagnostics (src/errors.ts) *)

(** What the host prints for a value inherited from [Object.prototype]. *)
Definition inheritedText (name : string) : string :=
  if name =? "__proto__" then "[object Object]"
  else "function " ++ (if name =? "constructor" then "Object" else name)
       ++ "() { [native code] }".

(** [TOKEN_DISPLAY_NAMES[type] || type]. *)
Definition displayName (t : TokenType) : string :=
  match t with
  | NUMBER => "number" | STRING => "string"
  | TRUE => "'true'" | FALSE => "'false'" | NULL => "'null'"
  | IDENTIFIER => "identifier"
  | LET => "'let'" | VAR => "'var'" | FN => "'fn'" | IF => "'if'"
  | THEN => "'then'" | ELSE => "'else'" | WHILE => "'while'"
  | FOR => "'for'" | IN => "'in'" | RETURN => "'return'"
  | PLUS => "'+'" | MINUS => "'-'" | STAR => "'*'" | SLASH => "'/'"
  | PERCENT => "'%'" | EQ => "'='" | EQEQ => "'=='" | NEQ => "'!='"
  | LT => "'<'" | LTE => "'<='" | GT => "'>'" | GTE => "'>='"
  | AND => "'&&'" | OR => "'||'" | NOT => "'!'" | PIPE => "'|>'"
  | LPAREN => "'('" | RPAREN => "')'" | LBRACE => "'{'" | RBRACE => "'}'"
  | LBRACKET => "'['" | RBRACKET => "']'" | COMMA => "','"
  | SEMICOLON => "';'" | ARROW => "'->'"
  | EOF => "end of file" | NEWLINE => "newline"
  | INHERITED name => inheritedText name
  end.

(** ** The parser (src/parser.ts) *)

Module Parser.

Record Parser : Type := mkParser {
  tokens : list Token;
  source : string;
  pos : nat
}.

(** [new Parser(tokens, source)]: the NEWLINE tokens are filtered out. *)
Definition new (toks : list Token) (src : string) : Parser :=
  mkParser (filter (fun t => negb (TokenType_eqb (type t) NEWLINE)) toks) src 0.

(** [this.tokens[i] || this.tokens[this.tokens.length - 1]]; of an empty
    array both are [undefined]. *)
Definition tokenOrLast (p : Parser) (i : nat) : option Token :=
  match nth_error (tokens p) i with
  | Some t => Some t
  | None => nth_error (tokens p) (List.length (tokens p) - 1)
  end.

Definition current (p : Parser) : option Token := tokenOrLast p (pos p).
Definition peek (offset : nat) (p : Parser) : option Token :=
  tokenOrLast p (pos p + offset).

(** A property access on a value that may be [undefined]. *)
Definition defined {A} (o : option A) : M Parser A :=
  match o with
  | Some a => ret a
  | None => throw TypeError
  end.

Definition currentToken : M Parser Token := fun p => defined (current p) p.
Definition peekToken : M Parser Token := fun p => defined (peek 1 p) p.

(** [this.tokens[this.pos++]]. *)
Definition advance : M Parser (option Token) := fun p =>
  Ok (nth_error (tokens p) (pos p)) (mkParser (tokens p) (source p) (S (pos p))).

(** [this.advance().loc] and [this.advance().value]. *)
Definition advanceLoc : M Parser SourceLocation :=
  t <- advance ;; t' <- defined t ;; ret (loc t').
Definition advanceValue : M Parser string :=
  t <- advance ;; t' <- defined t ;; ret (value t').

Definition expect (ty : TokenType) : M Parser (option Token) :=
  token <- currentToken ;;
  if negb (TokenType_eqb (type token) ty) then
    src <- (fun p => Ok (source p) p) ;;
    throw (PiperError
             ("Expected " ++ displayName ty ++ " but found "
              ++ displayName (type token))
             src (line (loc token)) (column (loc token)))
  else advance.

Definition expectLoc (ty : TokenType) : M Parser SourceLocation :=
  t <- expect ty ;; t' <- defined t ;; ret (loc t').
Definition expectValue (ty : TokenType) : M Parser string :=
  t <- expect ty ;; t' <- defined t ;; ret (value t').

(** [this.match(...types)]. *)
Definition matchAny (types : list TokenType) : M Parser bool :=
  token <- currentToken ;;
  ret (existsb (TokenType_eqb (type token)) types).

(** [if (this.match(ty)) { this.advance(); }]. *)
Definition skipIf (ty : TokenType) : M Parser unit :=
  m <- matchAny [ty] ;;
  if m then advance ;; ret tt else ret tt.

(** The loop shared by the six binary tiers:
    [while (this.match(...ops)) { operator = this.advance().value;
    right = next(); left = BinaryExpression ... loc: left.loc }]. *)
Fixpoint binaryLoop (fuel : nat) (ops : list TokenType)
    (next : M Parser ASTNode) (left : ASTNode) : M Parser ASTNode :=
  match fuel with
  | 0 => outOfFuel
  | S fuel' =>
      m <- matchAny ops ;;
      if m then
        operator <- advanceValue ;;
        right <- next ;;
        binaryLoop fuel' ops next
          (BinaryExpression operator left right (nodeLoc left))
      else ret left
  end.

(** The loop of [parsePipe]. *)
Fixpoint pipeLoop (fuel : nat) (parseLogicalOr : M Parser ASTNode)
    (left : ASTNode) : M Parser ASTNode :=
  match fuel with
  | 0 => outOfFuel
  | S fuel' =>
      m <- matchAny [PIPE] ;;
      if m then
        l <- advanceLoc ;;
        right <- parseLogicalOr ;;
        pipeLoop fuel' parseLogicalOr (PipeExpression left right (Some l))
      else ret left
  end.

(** The [do { if (this.match(COMMA)) this.advance();
    params.push(this.expect(IDENTIFIER).value); } while (this.match(COMMA))]
    of [parseFunctionDeclaration] and of [parseLambda]. *)
Fixpoint paramsDoWhile (fuel : nat) (params : list string)
  : M Parser (list string) :=
  match fuel with
  | 0 => outOfFuel
  | S fuel' =>
      skipIf COMMA ;;
      name <- expectValue IDENTIFIER ;;
      again <- matchAny [COMMA] ;;
      if again then paramsDoWhile fuel' (params ++ [name])%list
      else ret (params ++ [name])%list
  end.

(** The [do { if (this.match(COMMA)) this.advance();
    args.push(this.parseExpression()); } while (this.match(COMMA))]
    of [parseCall] and of [parseArrayLiteral]. *)
Fixpoint expressionsDoWhile (fuel : nat) (parseExpression : M Parser ASTNode)
    (items : list ASTNode) : M Parser (list ASTNode) :=
  match fuel with
  | 0 => outOfFuel
  | S fuel' =>
      skipIf COMMA ;;
      item <- parseExpression ;;
      again <- matchAny [COMMA] ;;
      if again then expressionsDoWhile fuel' parseExpression (items ++ [item])%list
      else ret (items ++ [item])%list
  end.

(** The loop of [parseCall]. *)
Fixpoint callLoop (fuel : nat) (parseExpression : M Parser ASTNode)
    (expr : ASTNode) : M Parser ASTNode :=
  match fuel with
  | 0 => outOfFuel
  | S fuel' =>
      m <- matchAny [LPAREN] ;;
      if m then
        advance ;;
        close <- matchAny [RPAREN] ;;
        args <- (if negb close
                 then expressionsDoWhile fuel' parseExpression []
                 else ret []) ;;
        expect RPAREN ;;
        callLoop fuel' parseExpression
          (CallExpression expr args (nodeLoc expr))
      else ret expr
  end.

(** The loop of [parseBlockExpression]. *)
Fixpoint blockLoop (fuel : nat) (parseStatement : M Parser ASTNode)
    (statements : list ASTNode) : M Parser (list ASTNode) :=
  match fuel with
  | 0 => outOfFuel
  | S fuel' =>
      close <- matchAny [RBRACE] ;;
      eof <- matchAny [EOF] ;;
      if negb close && negb eof then
        stmt <- parseStatement ;;
        blockLoop fuel' parseStatement (statements ++ [stmt])%list
      else ret statements
  end.

(** The loop of [parse]. *)
Fixpoint programLoop (fuel : nat) (parseStatement : M Parser ASTNode)
    (body : list ASTNode) : M Parser (list ASTNode) :=
  match fuel with
  | 0 => outOfFuel
  | S fuel' =>
      token <- currentToken ;;
      if negb (TokenType_eqb (type token) EOF) then
        stmt <- parseStatement ;;
        programLoop fuel' parseStatement (body ++ [stmt])%list
      else ret body
  end.

Fixpoint parseStatement (fuel : nat) : M Parser ASTNode :=
  match fuel with
  | 0 => outOfFuel
  | S fuel' =>
      isLet <- matchAny [LET] ;;
      if isLet then parseLetDeclaration fuel' else
      isVar <- matchAny [VAR] ;;
      if isVar then parseVarDeclaration fuel' else
      isFn <- matchAny [FN] ;;
      if isFn then parseFunctionDeclaration fuel' else
      isReturn <- matchAny [RETURN] ;;
      if isReturn then parseReturnStatement fuel' else
      isWhile <- matchAny [WHILE] ;;
      if isWhile then parseWhileStatement fuel' else
      isFor <- matchAny [FOR] ;;
      if isFor then parseForStatement fuel' else
      cur <- currentToken ;;
      nx <- (if TokenType_eqb (type cur) IDENTIFIER
             then t <- peekToken ;; ret (TokenType_eqb (type t) EQ)
             else ret false) ;;
      if nx then parseAssignment fuel' else
      expr <- parseExpression fuel' ;;
      skipIf SEMICOLON ;;
      ret (ExpressionStatement expr (nodeLoc expr))
  end

with parseLetDeclaration (fuel : nat) : M Parser ASTNode :=
  match fuel with
  | 0 => outOfFuel
  | S fuel' =>
      l <- advanceLoc ;;
      name <- expectValue IDENTIFIER ;;
      expect EQ ;;
      init <- parseExpression fuel' ;;
      skipIf SEMICOLON ;;
      ret (LetDeclaration name init (Some l))
  end

with parseVarDeclaration (fuel : nat) : M Parser ASTNode :=
  match fuel with
  | 0 => outOfFuel
  | S fuel' =>
      l <- advanceLoc ;;
      name <- expectValue IDENTIFIER ;;
      expect EQ ;;
      init <- parseExpression fuel' ;;
      skipIf SEMICOLON ;;
      ret (VarDeclaration name init (Some l))
  end

with parseFunctionDeclaration (fuel : nat) : M Parser ASTNode :=
  match fuel with
  | 0 => outOfFuel
  | S fuel' =>
      l <- advanceLoc ;;
      name <- expectValue IDENTIFIER ;;
      expect LPAREN ;;
      close <- matchAny [RPAREN] ;;
      params <- (if negb close then paramsDoWhile fuel' [] else ret []) ;;
      expect RPAREN ;;
      isEq <- matchAny [EQ] ;;
      if isEq then
        advance ;;
        body <- parseExpression fuel' ;;
        skipIf SEMICOLON ;;
        ret (FunctionDeclaration name params body true (Some l))
      else
        body <- parseBlockExpression fuel' ;;
        ret (FunctionDeclaration name params body false (Some l))
  end

with parseAssignment (fuel : nat) : M Parser ASTNode :=
  match fuel with
  | 0 => outOfFuel
  | S fuel' =>
      cur <- currentToken ;;
      name <- expectValue IDENTIFIER ;;
      expect EQ ;;
      value <- parseExpression fuel' ;;
      skipIf SEMICOLON ;;
      ret (Assignment name value (Some (loc cur)))
  end

with parseReturnStatement (fuel : nat) : M Parser ASTNode :=
  match fuel with
  | 0 => outOfFuel
  | S fuel' =>
      l <- advanceLoc ;;
      bare <- matchAny [SEMICOLON; RBRACE; EOF] ;;
      if bare then ret (ReturnStatement None (Some l))
      else
        value <- parseExpression fuel' ;;
        skipIf SEMICOLON ;;
        ret (ReturnStatement (Some value) (Some l))
  end

with parseWhileStatement (fuel : nat) : M Parser ASTNode :=
  match fuel with
  | 0 => outOfFuel
  | S fuel' =>
      l <- advanceLoc ;;
      condition <- parseExpression fuel' ;;
      body <- parseBlockExpression fuel' ;;
      ret (WhileStatement condition body (Some l))
  end

with parseForStatement (fuel : nat) : M Parser ASTNode :=
  match fuel with
  | 0 => outOfFuel
  | S fuel' =>
      l <- advanceLoc ;;
      variable <- expectValue IDENTIFIER ;;
      expect IN ;;
      iterable <- parseExpression fuel' ;;
      body <- parseBlockExpression fuel' ;;
      ret (ForStatement variable iterable body (Some l))
  end

with parseExpression (fuel : nat) : M Parser ASTNode :=
  match fuel with
  | 0 => outOfFuel
  | S fuel' => parsePipe fuel'
  end

with parsePipe (fuel : nat) : M Parser ASTNode :=
  match fuel with
  | 0 => outOfFuel
  | S fuel' =>
      left <- parseLogicalOr fuel' ;;
      pipeLoop fuel' (parseLogicalOr fuel') left
  end

with parseLogicalOr (fuel : nat) : M Parser ASTNode :=
  match fuel with
  | 0 => outOfFuel
  | S fuel' =>
      left <- parseLogicalAnd fuel' ;;
      binaryLoop fuel' [OR] (parseLogicalAnd fuel') left
  end

with parseLogicalAnd (fuel : nat) : M Parser ASTNode :=
  match fuel with
  | 0 => outOfFuel
  | S fuel' =>
      left <- parseEquality fuel' ;;
      binaryLoop fuel' [AND] (parseEquality fuel') left
  end

with parseEquality (fuel : nat) : M Parser ASTNode :=
  match fuel with
  | 0 => outOfFuel
  | S fuel' =>
      left <- parseComparison fuel' ;;
      binaryLoop fuel' [EQEQ; NEQ] (parseComparison fuel') left
  end

with parseComparison (fuel : nat) : M Parser ASTNode :=
  match fuel with
  | 0 => outOfFuel
  | S fuel' =>
      left <- parseAdditive fuel' ;;
      binaryLoop fuel' [LT; LTE; GT; GTE] (parseAdditive fuel') left
  end

with parseAdditive (fuel : nat) : M Parser ASTNode :=
  match fuel with
  | 0 => outOfFuel
  | S fuel' =>
      left <- parseMultiplicative fuel' ;;
      binaryLoop fuel' [PLUS; MINUS] (parseMultiplicative fuel') left
  end

with parseMultiplicative (fuel : nat) : M Parser ASTNode :=
  match fuel with
  | 0 => outOfFuel
  | S fuel' =>
      left <- parseUnary fuel' ;;
      binaryLoop fuel' [STAR; SLASH; PERCENT] (parseUnary fuel') left
  end

with parseUnary (fuel : nat) : M Parser ASTNode :=
  match fuel with
  | 0 => outOfFuel
  | S fuel' =>
      m <- matchAny [NOT; MINUS] ;;
      if m then
        cur <- currentToken ;;
        operator <- advanceValue ;;
        operand <- parseUnary fuel' ;;
        ret (UnaryExpression operator operand (Some (loc cur)))
      else parseCall fuel'
  end

with parseCall (fuel : nat) : M Parser ASTNode :=
  match fuel with
  | 0 => outOfFuel
  | S fuel' =>
      expr <- parsePrimary fuel' ;;
      callLoop fuel' (parseExpression fuel') expr
  end

with parsePrimary (fuel : nat) : M Parser ASTNode :=
  match fuel with
  | 0 => outOfFuel
  | S fuel' =>
      token <- currentToken ;;
      match type token with
      | IF => parseIfExpression fuel'
      | LBRACE => parseBlockExpression fuel'
      | PIPE => parseLambda fuel'
      | LBRACKET => parseArrayLiteral fuel'
      | LPAREN =>
          advance ;;
          expr <- parseExpression fuel' ;;
          expect RPAREN ;;
          ret expr
      | NUMBER =>
          advance ;;
          ret (Literal (VNumber (parseFloat (value token))) (value token)
                 (Some (loc token)))
      | STRING =>
          advance ;;
          ret (Literal (VString (value token))
                 (str DQUOTE ++ value token ++ str DQUOTE) (Some (loc token)))
      | TRUE =>
          advance ;; ret (Literal (VBoolean true) "true" (Some (loc token)))
      | FALSE =>
          advance ;; ret (Literal (VBoolean false) "false" (Some (loc token)))
      | NULL =>
          advance ;; ret (Literal VNull "null" (Some (loc token)))
      | IDENTIFIER =>
          advance ;; ret (Identifier (value token) (Some (loc token)))
      | other =>
          src <- (fun p => Ok (source p) p) ;;
          throw (PiperError ("Unexpected token " ++ displayName other) src
                   (line (loc token)) (column (loc token)))
      end
  end

with parseIfExpression (fuel : nat) : M Parser ASTNode :=
  match fuel with
  | 0 => outOfFuel
  | S fuel' =>
      l <- advanceLoc ;;
      condition <- parseExpression fuel' ;;
      skipIf THEN ;;
      isBlock <- matchAny [LBRACE] ;;
      thenBranch <- (if isBlock then parseBlockExpression fuel'
                     else parseExpression fuel') ;;
      isElse <- matchAny [ELSE] ;;
      if isElse then
        advance ;;
        isBlock' <- matchAny [LBRACE] ;;
        isIf <- (if isBlock' then ret true else matchAny [IF]) ;;
        elseBranch <- (if isIf then parsePrimary fuel'
                       else parseExpression fuel') ;;
        ret (IfExpression condition thenBranch (Some elseBranch) (Some l))
      else ret (IfExpression condition thenBranch None (Some l))
  end

with parseBlockExpression (fuel : nat) : M Parser ASTNode :=
  match fuel with
  | 0 => outOfFuel
  | S fuel' =>
      l <- expectLoc LBRACE ;;
      statements <- blockLoop fuel' (parseStatement fuel') [] ;;
      expect RBRACE ;;
      ret (BlockExpression statements (Some l))
  end

with parseLambda (fuel : nat) : M Parser ASTNode :=
  match fuel with
  | 0 => outOfFuel
  | S fuel' =>
      l <- expectLoc PIPE ;;
      close <- matchAny [PIPE] ;;
      params <- (if negb close then paramsDoWhile fuel' [] else ret []) ;;
      expect PIPE ;;
      isBlock <- matchAny [LBRACE] ;;
      body <- (if isBlock then parseBlockExpression fuel'
               else parseExpression fuel') ;;
      ret (Lambda params body (Some l))
  end

with parseArrayLiteral (fuel : nat) : M Parser ASTNode :=
  match fuel with
  | 0 => outOfFuel
  | S fuel' =>
      l <- expectLoc LBRACKET ;;
      close <- matchAny [RBRACKET] ;;
      elements <- (if negb close
                   then expressionsDoWhile fuel' (parseExpression fuel') []
                   else ret []) ;;
      expect RBRACKET ;;
      ret (ArrayLiteral elements (Some l))
  end.

Definition parse (fuel : nat) : M Parser ASTNode :=
  body <- programLoop fuel (parseStatement fuel) [] ;;
  ret (Program body).

End Parser.

(** ** The code generator (src/codegen.ts) *)

Definition BUILTINS : list string :=
  ["print"; "len"; "map"; "filter"; "reduce"; "range"; "sum"].

(** [array.join(sep)] of strings. *)
Definition join (sep : string) (parts : list string) : string :=
  String.concat sep parts.

(** ['  '.repeat(n)]. *)
Fixpoint repeatIndent (n : nat) : string :=
  match n with
  | 0 => EmptyString
  | S n' => "  " ++ repeatIndent n'
  end.

Definition hexDigit (n : nat) : ascii :=
  if Nat.ltb n 10 then ascii_of_nat (48 + n) else ascii_of_nat (87 + n).

(** [JSON.stringify] of a string: the text between the quotes. *)
Fixpoint jsonEscape (s : string) : string :=
  match s with
  | EmptyString => EmptyString
  | String c s' =>
      let n := nat_of_ascii c in
      (if Ascii.eqb c DQUOTE then str BACKSLASH ++ str DQUOTE
       else if Ascii.eqb c BACKSLASH then str BACKSLASH ++ str BACKSLASH
       else if Nat.eqb n 8 then str BACKSLASH ++ "b"
       else if Nat.eqb n 9 then str BACKSLASH ++ "t"
       else if Nat.eqb n 10 then str BACKSLASH ++ "n"
       else if Nat.eqb n 12 then str BACKSLASH ++ "f"
       else if Nat.eqb n 13 then str BACKSLASH ++ "r"
       else if Nat.ltb n 32 then
         str BACKSLASH ++ "u00" ++ str (hexDigit (n / 16)) ++ str (hexDigit (n mod 16))
       else str c) ++ jsonEscape s'
  end.

Definition jsonStringify (s : string) : string :=
  str DQUOTE ++ jsonEscape s ++ str DQUOTE.

Definition LFs : string := str LF.

Module CodeGenerator.

Record CodeGenerator : Type := mkCodeGenerator {
  indentLevel : nat;
  output : list string
}.

(** [new CodeGenerator()]. *)
Definition new : CodeGenerator := mkCodeGenerator 0 [].

Definition Gen (A : Type) : Type := M CodeGenerator A.

Definition indent : Gen string := fun g => Ok (repeatIndent (indentLevel g)) g.

Definition emit (code : string) : Gen unit := fun g =>
  Ok tt (mkCodeGenerator (indentLevel g) (output g ++ [code])%list).

Definition emitLine (code : string) : Gen unit :=
  i <- indent ;; emit (i ++ code ++ LFs).

(** [this.indentLevel++] and [this.indentLevel--]. *)
Definition indentMore : Gen unit := fun g =>
  Ok tt (mkCodeGenerator (S (indentLevel g)) (output g)).
Definition indentLess : Gen unit := fun g =>
  Ok tt (mkCodeGenerator (Nat.pred (indentLevel g)) (output g)).

Definition getOutput : Gen (list string) := fun g => Ok (output g) g.
Definition setOutput (out : list string) : Gen unit := fun g =>
  Ok tt (mkCodeGenerator (indentLevel g) out).

(** [BUILTINS.includes(name) ? `__piper.${name}` : name]. *)
Definition qualify (name : string) : string :=
  if inList name BUILTINS then "__piper." ++ name else name.

(** [operator === '==' ? '===' : operator === '!=' ? '!==' : operator]. *)
Definition mapOperator (operator : string) : string :=
  if operator =? "==" then "==="
  else if operator =? "!=" then "!=="
  else operator.

Definition generateLiteral (v : LiteralValue) : string :=
  match v with
  | VString s => jsonStringify s
  | VNull => "null"
  | VNumber n => numberToString n
  | VBoolean true => "true"
  | VBoolean false => "false"
  end.

Definition invalidPipeTarget (right : ASTNode) : Error :=
  JsError ("Invalid pipe target: " ++ nodeType right).

(** Loops over an array of nodes, with the method they call on each node
    as a parameter; the methods below are defined by recursion on the node
    and call them on the arrays inside it. *)

(** [for (const stmt of statements) { this.generateNode(stmt); }]. *)
Definition forEachNode (generateNode : ASTNode -> Gen unit)
  : list ASTNode -> Gen unit :=
  fix go (statements : list ASTNode) : Gen unit :=
    match statements with
    | [] => ret tt
    | stmt :: rest => generateNode stmt ;; go rest
    end.

(** [nodes.map(n => this.generateExpression(n))]. *)
Definition mapNodes (generateExpression : ASTNode -> Gen string)
  : list ASTNode -> Gen (list string) :=
  fix go (nodes : list ASTNode) : Gen (list string) :=
    match nodes with
    | [] => ret []
    | n :: rest =>
        s <- generateExpression n ;;
        ss <- go rest ;;
        ret (s :: ss)
    end.

(** The body of [generateBlockBody] on [node.statements]: the [for] loop
    with its [isLast] test, then the test for the empty block. *)
Definition blockBodyWith (generateNode : ASTNode -> Gen unit)
    (generateExpression : ASTNode -> Gen string)
  : list ASTNode -> Gen unit :=
  fix go (statements : list ASTNode) : Gen unit :=
    match statements with
    | [] => emitLine "return undefined;"
    | stmt :: rest =>
        match rest with
        | [] =>
            match stmt with
            | ExpressionStatement expr _ =>
                e <- generateExpression expr ;;
                emitLine ("return " ++ e ++ ";")
            | _ => generateNode stmt
            end
        | _ :: _ => generateNode stmt ;; go rest
        end
    end.

Fixpoint generateNode (node : ASTNode) {struct node} : Gen unit :=
  match node with
  | Program _ => throw (JsError "Unexpected Program node in generateNode")
  | LetDeclaration name init _ =>
      init' <- generateExpression init ;;
      emitLine ("const " ++ name ++ " = " ++ init' ++ ";")
  | VarDeclaration name init _ =>
      init' <- generateExpression init ;;
      emitLine ("let " ++ name ++ " = " ++ init' ++ ";")
  | FunctionDeclaration name params body isExpression _ =>
      let params' := join ", " params in
      if isExpression then
        body' <- generateExpression body ;;
        emitLine ("function " ++ name ++ "(" ++ params' ++ ") {") ;;
        indentMore ;;
        emitLine ("return " ++ body' ++ ";") ;;
        indentLess ;;
        emitLine "}"
      else
        emitLine ("function " ++ name ++ "(" ++ params' ++ ") {") ;;
        indentMore ;;
        generateBlockBody body ;;
        indentLess ;;
        emitLine "}"
  | Assignment name value _ =>
      value' <- generateExpression value ;;
      emitLine (name ++ " = " ++ value' ++ ";")
  | WhileStatement condition body _ =>
      condition' <- generateExpression condition ;;
      emitLine ("while (" ++ condition' ++ ") {") ;;
      indentMore ;;
      match body with
      | BlockExpression statements _ => forEachNode generateNode statements
      | _ => throw TypeError
      end ;;
      indentLess ;;
      emitLine "}"
  | ForStatement variable iterable body _ =>
      iterable' <- generateExpression iterable ;;
      emitLine ("for (const " ++ variable ++ " of " ++ iterable' ++ ") {") ;;
      indentMore ;;
      match body with
      | BlockExpression statements _ => forEachNode generateNode statements
      | _ => throw TypeError
      end ;;
      indentLess ;;
      emitLine "}"
  | ReturnStatement (Some value) _ =>
      value' <- generateExpression value ;;
      emitLine ("return " ++ value' ++ ";")
  | ReturnStatement None _ => emitLine "return;"
  | ExpressionStatement expression _ =>
      e <- generateExpression expression ;;
      emitLine (e ++ ";")
  | other => throw (JsError ("Unknown statement type: " ++ nodeType other))
  end

with generateExpression (node : ASTNode) {struct node} : Gen string :=
  match node with
  | BinaryExpression operator left_ right_ _ =>
      left' <- generateExpression left_ ;;
      right' <- generateExpression right_ ;;
      ret ("(" ++ left' ++ " " ++ mapOperator operator ++ " " ++ right' ++ ")")
  | UnaryExpression operator operand _ =>
      operand' <- generateExpression operand ;;
      ret ("(" ++ operator ++ operand' ++ ")")
  | PipeExpression left_ right_ _ =>
      left' <- generateExpression left_ ;;
      match right_ with
      | Identifier name _ => ret (qualify name ++ "(" ++ left' ++ ")")
      | CallExpression callee args _ =>
          rest <- mapNodes generateExpression args ;;
          let args' := left' :: rest in
          match callee with
          | Identifier name _ =>
              ret (qualify name ++ "(" ++ join ", " args' ++ ")")
          | _ =>
              callee' <- generateExpression callee ;;
              ret (callee' ++ "(" ++ join ", " args' ++ ")")
          end
      | _ => throw (invalidPipeTarget right_)
      end
  | CallExpression callee args _ =>
      callee' <- generateExpression callee ;;
      args' <- mapNodes generateExpression args ;;
      match callee with
      | Identifier name _ =>
          if inList name BUILTINS
          then ret ("__piper." ++ name ++ "(" ++ join ", " args' ++ ")")
          else ret (callee' ++ "(" ++ join ", " args' ++ ")")
      | _ => ret (callee' ++ "(" ++ join ", " args' ++ ")")
      end
  | Lambda params body _ =>
      let params' := join ", " params in
      match body with
      | BlockExpression statements _ =>
          indentMore ;;
          savedOutput <- getOutput ;;
          setOutput [] ;;
          blockBodyWith generateNode generateExpression statements ;;
          inner <- getOutput ;;
          setOutput savedOutput ;;
          indentLess ;;
          i <- indent ;;
          ret ("((" ++ params' ++ ") => " ++ ("{" ++ LFs ++ join EmptyString inner ++ i ++ "}") ++ ")")
      | _ =>
          body' <- generateExpression body ;;
          ret ("((" ++ params' ++ ") => " ++ body' ++ ")")
      end
  | Identifier name _ => ret name
  | Literal value _ _ => ret (generateLiteral value)
  | ArrayLiteral elements _ =>
      elements' <- mapNodes generateExpression elements ;;
      ret ("[" ++ join ", " elements' ++ "]")
  | IfExpression condition thenBranch elseBranch _ =>
      condition' <- generateExpression condition ;;
      thenBranch' <- generateExpression thenBranch ;;
      match elseBranch with
      | Some e =>
          elseBranch' <- generateExpression e ;;
          ret ("(" ++ condition' ++ " ? " ++ thenBranch' ++ " : " ++ elseBranch' ++ ")")
      | None =>
          ret ("(" ++ condition' ++ " ? " ++ thenBranch' ++ " : undefined)")
      end
  | BlockExpression statements _ =>
      indentMore ;;
      savedOutput <- getOutput ;;
      setOutput [] ;;
      blockBodyWith generateNode generateExpression statements ;;
      inner <- getOutput ;;
      setOutput savedOutput ;;
      indentLess ;;
      i <- indent ;;
      ret ("(() => {" ++ LFs ++ join EmptyString inner ++ i ++ "})()")
  | other => throw (JsError ("Unknown expression type: " ++ nodeType other))
  end

(** [generateBlockBody(node)]: [node.statements] of a node that is not a
    block is [undefined], and reading its [length] is a [TypeError]. *)
with generateBlockBody (node : ASTNode) {struct node} : Gen unit :=
  match node with
  | BlockExpression statements _ =>
      blockBodyWith generateNode generateExpression statements
  | _ => throw TypeError
  end.

Definition generateStatements : list ASTNode -> Gen unit :=
  forEachNode generateNode.
Definition generateExpressions : list ASTNode -> Gen (list string) :=
  mapNodes generateExpression.
Definition blockBodyLoop : list ASTNode -> Gen unit :=
  blockBodyWith generateNode generateExpression.

Definition preamble : string :=
  "import * as __piper from " ++ str DQUOTE ++ "./runtime.js" ++ str DQUOTE
  ++ ";" ++ LFs ++ LFs.

(** [generate(ast)]: [ast.body] of a node without a [body] array is not
    iterable. *)
Definition generate (ast : ASTNode) : Gen string :=
  emit preamble ;;
  match ast with
  | Program body => generateStatements body
  | _ => throw TypeError
  end ;;
  out <- getOutput ;;
  ret (join EmptyString out).

End CodeGenerator.

(** ** The pipeline of the tests and of the driver:
    [new Lexer(source).tokenize()], [new Parser(tokens, source).parse()],
    [new CodeGenerator().generate(ast)], each stage on a fresh instance. *)

Definition result {St A} (o : Outcome St A) : Outcome unit A :=
  match o with
  | Ok a _ => Ok a tt
  | Throw e => Throw e
  | OutOfFuel => OutOfFuel
  end.

Definition parseSource (fuel : nat) (src : string) : Outcome unit ASTNode :=
  match Lexer.tokenize fuel (Lexer.new src) with
  | Ok toks _ => result (Parser.parse fuel (Parser.new toks src))
  | Throw e => Throw e
  | OutOfFuel => OutOfFuel
  end.

Definition compile (fuel : nat) (src : string) : Outcome unit string :=
  match parseSource fuel src with
  | Ok ast _ => result (CodeGenerator.generate ast CodeGenerator.new)
  | Throw e => Throw e
  | OutOfFuel => OutOfFuel
  end.

(** ** Notions the statements below use *)

(** An Identifier or a CallExpression: what [generatePipeExpression] accepts
    on the right of a pipe. *)
Definition isPipeTarget (node : ASTNode) : bool :=
  match node with
  | Identifier _ _ | CallExpression _ _ _ => true
  | _ => false
  end.

Definition optionAll {A} (f : A -> bool) (o : option A) : bool :=
  match o with
  | Some a => f a
  | None => true
  end.

(** Every PipeExpression of the tree has an Identifier or a CallExpression on
    its right. *)
Fixpoint pipeTargetsOk (node : ASTNode) : bool :=
  match node with
  | Program body => forallb pipeTargetsOk body
  | LetDeclaration _ init _ | VarDeclaration _ init _ => pipeTargetsOk init
  | FunctionDeclaration _ _ body _ _ => pipeTargetsOk body
  | Assignment _ value _ => pipeTargetsOk value
  | IfExpression c t e _ =>
      pipeTargetsOk c && pipeTargetsOk t && optionAll pipeTargetsOk e
  | WhileStatement c b _ => pipeTargetsOk c && pipeTargetsOk b
  | ForStatement _ i b _ => pipeTargetsOk i && pipeTargetsOk b
  | BlockExpression statements _ => forallb pipeTargetsOk statements
  | BinaryExpression _ l r _ => pipeTargetsOk l && pipeTargetsOk r
  | UnaryExpression _ o _ => pipeTargetsOk o
  | PipeExpression l r _ => isPipeTarget r && pipeTargetsOk l && pipeTargetsOk r
  | CallExpression c args _ => pipeTargetsOk c && forallb pipeTargetsOk args
  | Lambda _ body _ => pipeTargetsOk body
  | Identifier _ _ | Literal _ _ _ => true
  | ArrayLiteral elements _ => forallb pipeTargetsOk elements
  | ExpressionStatement e _ => pipeTargetsOk e
  | ReturnStatement v _ => optionAll pipeTargetsOk v
  end.

(** The tree without its source positions. *)
Fixpoint eraseLoc (node : ASTNode) : ASTNode :=
  match node with
  | Program body => Program (map eraseLoc body)
  | LetDeclaration n init _ => LetDeclaration n (eraseLoc init) None
  | VarDeclaration n init _ => VarDeclaration n (eraseLoc init) None
  | FunctionDeclaration n ps body isE _ =>
      FunctionDeclaration n ps (eraseLoc body) isE None
  | Assignment n v _ => Assignment n (eraseLoc v) None
  | IfExpression c t e _ =>
      IfExpression (eraseLoc c) (eraseLoc t) (option_map eraseLoc e) None
  | WhileStatement c b _ => WhileStatement (eraseLoc c) (eraseLoc b) None
  | ForStatement v i b _ => ForStatement v (eraseLoc i) (eraseLoc b) None
  | BlockExpression statements _ => BlockExpression (map eraseLoc statements) None
  | BinaryExpression op l r _ => BinaryExpression op (eraseLoc l) (eraseLoc r) None
  | UnaryExpression op o _ => UnaryExpression op (eraseLoc o) None
  | PipeExpression l r _ => PipeExpression (eraseLoc l) (eraseLoc r) None
  | CallExpression c args _ => CallExpression (eraseLoc c) (map eraseLoc args) None
  | Lambda ps body _ => Lambda ps (eraseLoc body) None
  | Identifier n _ => Identifier n None
  | Literal v raw _ => Literal v raw None
  | ArrayLiteral elements _ => ArrayLiteral (map eraseLoc elements) None
  | ExpressionStatement e _ => ExpressionStatement (eraseLoc e) None
  | ReturnStatement v _ => ReturnStatement (option_map eraseLoc v) None
  end.

(** The number of nodes of a tree, the measure of the inductions below. *)
Fixpoint size (node : ASTNode) : nat :=
  let sizes := fix sizes (l : list ASTNode) : nat :=
    match l with
    | [] => 0
    | n :: r => size n + sizes r
    end in
  match node with
  | Program body => S (sizes body)
  | LetDeclaration _ init _ | VarDeclaration _ init _ => S (size init)
  | FunctionDeclaration _ _ body _ _ => S (size body)
  | Assignment _ value _ => S (size value)
  | IfExpression c t (Some e) _ => S (size c + size t + size e)
  | IfExpression c t None _ => S (size c + size t)
  | WhileStatement c b _ => S (size c + size b)
  | ForStatement _ i b _ => S (size i + size b)
  | BlockExpression statements _ => S (sizes statements)
  | BinaryExpression _ l r _ => S (size l + size r)
  | UnaryExpression _ o _ => S (size o)
  | PipeExpression l r _ => S (size l + size r)
  | CallExpression c args _ => S (size c + sizes args)
  | Lambda _ body _ => S (size body)
  | Identifier _ _ | Literal _ _ _ => 1
  | ArrayLiteral elements _ => S (sizes elements)
  | ExpressionStatement e _ => S (size e)
  | ReturnStatement (Some v) _ => S (size v)
  | ReturnStatement None _ => 1
  end.

Definition sizes : list ASTNode -> nat :=
  fix sizes (l : list ASTNode) : nat :=
    match l with
    | [] => 0
    | n :: r => size n + sizes r
    end.

(** *** The code generator and its buffer *)

Module GenNotions.
Import CodeGenerator.

(** The instance with another output buffer. *)
Definition withOutput (g : CodeGenerator) (out : list string) : CodeGenerator :=
  mkCodeGenerator (indentLevel g) out.

(** A method that, when it returns, leaves the instance as it found it and
    returns the same whatever the buffer holds. *)
Definition Pure {A} (m : Gen A) : Prop :=
  forall g a g', m g = Ok a g' ->
    g' = g /\ forall out, m (withOutput g out) = Ok a (withOutput g out).

(** A method that, when it returns, has only pushed strings on the buffer,
    the same strings whatever the buffer held. *)
Definition Appending {A} (m : Gen A) : Prop :=
  forall g a g', m g = Ok a g' ->
    exists delta,
      g' = withOutput g (output g ++ delta)%list /\
      forall out, m (withOutput g out) = Ok a (withOutput g (out ++ delta)%list).

End GenNotions.

(** *** One token less ahead of the parser *)

Module ParserNotions.
Import Parser.

Definition Shift (d : nat) (p q : Parser) : Prop :=
  source p = source q /\ pos p = S (pos q) /\ d <= pos q /\
  exists pre c post,
    tokens p = (pre ++ c :: post)%list /\ tokens q = (pre ++ post)%list /\
    List.length pre = d /\ post <> [].

Inductive SameOutcome {A} (d : nat) : Outcome Parser A -> Outcome Parser A -> Prop :=
| SameOk a p q : Shift d p q -> SameOutcome d (Ok a p) (Ok a q)
| SameThrow e : SameOutcome d (Throw e) (Throw e)
| SameOutOfFuel : SameOutcome d OutOfFuel OutOfFuel.

Definition Resp {A} (d : nat) (m : M Parser A) : Prop :=
  forall p q, Shift d p q -> SameOutcome d (m p) (m q).

(** Every method of the parser does the same on two such instances. *)
Definition AllResp (d fuel : nat) : Prop :=
  Resp d (parseStatement fuel) /\ Resp d (parseLetDeclaration fuel) /\
  Resp d (parseVarDeclaration fuel) /\ Resp d (parseFunctionDeclaration fuel) /\
  Resp d (parseAssignment fuel) /\ Resp d (parseReturnStatement fuel) /\
  Resp d (parseWhileStatement fuel) /\ Resp d (parseForStatement fuel) /\
  Resp d (parseExpression fuel) /\ Resp d (parsePipe fuel) /\
  Resp d (parseLogicalOr fuel) /\ Resp d (parseLogicalAnd fuel) /\
  Resp d (parseEquality fuel) /\ Resp d (parseComparison fuel) /\
  Resp d (parseAdditive fuel) /\ Resp d (parseMultiplicative fuel) /\
  Resp d (parseUnary fuel) /\ Resp d (parseCall fuel) /\
  Resp d (parsePrimary fuel) /\ Resp d (parseIfExpression fuel) /\
  Resp d (parseBlockExpression fuel) /\ Resp d (parseLambda fuel) /\
  Resp d (parseArrayLiteral fuel).

Definition next (p : Parser) : Parser :=
  mkParser (tokens p) (source p) (S (pos p)).

(** [AtComma d p q]: both indexes are [d]; the first instance has a comma
    there and then the tokens that the second has from [d] on, which do
    not begin with a comma. *)
Definition AtComma (d : nat) (p q : Parser) : Prop :=
  source p = source q /\ pos p = d /\ pos q = d /\
  exists pre c t rest,
    tokens p = (pre ++ c :: t :: rest)%list /\
    tokens q = (pre ++ t :: rest)%list /\
    List.length pre = d /\ type c = COMMA /\ type t <> COMMA.

(** The instance that has consumed [pre] and has [toks] ahead. *)
Definition ahead (pre : list Token) (src : string) (toks : list Token) : Parser :=
  mkParser (pre ++ toks) src (List.length pre).

(** The kinds of token that, after an operand, make the expression go on:
    the [(] of a call, the binary operators and the pipe. *)
Definition continuesExpression (ty : TokenType) : bool :=
  existsb (TokenType_eqb ty)
    [LPAREN; STAR; SLASH; PERCENT; PLUS; MINUS; LT; LTE; GT; GTE; EQEQ; NEQ;
     AND; OR; PIPE].

(** The result of a method that needs [k] units of fuel. *)
Definition needs {A} (k fuel : nat) (a : A) (p : Parser) : Outcome Parser A :=
  if Nat.leb k fuel then Ok a p else OutOfFuel.

End ParserNotions.

(** *** Examples, positions in a text *)

(** The trees of the examples, with the positions the lexer gives. *)
Definition at_ (l c : nat) : option SourceLocation := Some (mkLoc l c).
Definition num (text : string) (l c : nat) : ASTNode :=
  Literal (VNumber (parseFloat text)) text (at_ l c).
Definition ident (name : string) (l c : nat) : ASTNode :=
  Identifier name (at_ l c).

(** The text [generate] returns for a program whose statements produce
    [lines]. *)
Definition generated (lines : string) : Outcome unit string :=
  Ok (CodeGenerator.preamble ++ lines) tt.

(** The instance [n] characters further on the same line. *)
Definition further (n : nat) (lx : Lexer.Lexer) : Lexer.Lexer :=
  Lexer.mkLexer (Lexer.source lx) (n + Lexer.pos lx) (Lexer.line lx)
    (n + Lexer.column lx).

Definition isExpressionStatement (node : ASTNode) : bool :=
  match node with
  | ExpressionStatement _ _ => true
  | _ => false
  end.

(** Three sources that parse, the first and the third to the same tree and
    the second to that tree with other positions. *)
Definition sameTrees (withComma without blanked : string) : Prop :=
  exists a b,
    parseSource 100 withComma = Ok a tt
    /\ parseSource 100 without = Ok b tt
    /\ eraseLoc a = eraseLoc b
    /\ parseSource 100 blanked = Ok a tt.

(** The line and column, counted from 1, of offset [n] of a text that begins
    at line [l], column [c]: a line ends with each ['\n']. *)
Fixpoint positionAfter (s : string) (n l c : nat) : SourceLocation :=
  match n with
  | 0 => mkLoc l c
  | S n' =>
      match s with
      | EmptyString => positionAfter EmptyString n' l (S c)
      | String ch s' =>
          if Ascii.eqb ch LF then positionAfter s' n' (S l) 1
          else positionAfter s' n' l (S c)
      end
  end.

Definition positionOf (s : string) (n : nat) : SourceLocation :=
  positionAfter s n 1 1.

(** The text from offset [n] on. *)
Fixpoint dropChars (n : nat) (s : string) : string :=
  match n, s with
  | 0, _ => s
  | S _, EmptyString => EmptyString
  | S n', String _ s' => dropChars n' s'
  end.

(** Whether the string whose text after the opening quote is [s] is closed:
    a quote closes it unless a backslash stands before that quote, a
    backslash taking the character after it whatever it is, and the text
    ends at ['\0']. *)
Fixpoint closes (quote : ascii) (s : string) : bool :=
  match s with
  | EmptyString => false
  | String c s' =>
      if Ascii.eqb c quote then true
      else if Ascii.eqb c NUL then false
      else if Ascii.eqb c BACKSLASH then
        match s' with
        | EmptyString => false
        | String _ s'' => closes quote s''
        end
      else closes quote s'
  end.

(** What a turn of the main loop does before it reads a token. *)
Definition skipBlanksAndComment (fuel : nat) : M Lexer.Lexer unit :=
  Lexer.skipWhitespace fuel ;; Lexer.skipComment fuel.

(** *** What the main loop of the lexer reaches *)

Module ScanNotions.
Import Lexer.

(** The cursor of the instance is where its line and column say. *)
Definition Tracked (lx : Lexer) : Prop :=
  here lx = positionOf (source lx) (pos lx).

(** [Reaches lx0 lx tokens]: from [lx0], turns of the main loop that each
    pushed a token have pushed [tokens] and left the instance as [lx]. *)
Inductive Reaches (lx0 : Lexer) : Lexer -> list Token -> Prop :=
| Reaches_start : Reaches lx0 lx0 []
| Reaches_turn lx tokens fuel t lx' :
    Reaches lx0 lx tokens ->
    current lx <> NUL ->
    tokenizeTurn fuel lx = Ok (Push t) lx' ->
    Reaches lx0 lx' (tokens ++ [t])%list.

(** [m2] returns what [m1] returns, whenever [m1] returns. *)
Definition Below {A} (m1 m2 : M Lexer A) : Prop :=
  forall lx a lx', m1 lx = Ok a lx' -> m2 lx = Ok a lx'.

(** More fuel does not change what a loop returns. *)
Definition Mono {A} (m : nat -> M Lexer A) : Prop :=
  forall fuel fuel', fuel <= fuel' -> Below (m fuel) (m fuel').

(** A method that keeps the text and keeps the cursor tracked. *)
Definition Keeps {A} (m : M Lexer A) : Prop :=
  forall lx a lx', Tracked lx -> m lx = Ok a lx' ->
    Tracked lx' /\ source lx' = source lx.

End ScanNotions.

(** ** Notions of the facts beyond the specification *)

Module MoreScanNotions.
Import Lexer.

(** [m2] gives every result that [m1] gives. *)
Definition Settled {A} (m1 m2 : M Lexer A) : Prop :=
  forall lx, m1 lx <> OutOfFuel -> m2 lx = m1 lx.

(** A method that keeps the text and moves the cursor forward, by [d]
    characters at least. *)
Definition Steps {A} (d : nat) (m : M Lexer A) : Prop :=
  forall lx a lx', m lx = Ok a lx' ->
    source lx' = source lx /\ pos lx + d <= pos lx'.

End MoreScanNotions.

(** Whether a line feed or a ['\0'] occurs in the text. *)
Fixpoint endsLine (s : string) : bool :=
  match s with
  | EmptyString => false
  | String c s' => Ascii.eqb c LF || Ascii.eqb c NUL || endsLine s'
  end.

(** What a method returns, when it returns, satisfies [Q]. *)
Definition Yields {St A} (Q : A -> Prop) (m : M St A) : Prop :=
  forall s a s', m s = Ok a s' -> Q a.

Definition pushesNoEOF (turn : Lexer.Turn) : Prop :=
  match turn with
  | Lexer.Break => True
  | Lexer.Push t => type t <> EOF
  end.

Module MoveNotions.
Import Lexer.

(** The cursor is in the text or right after it. *)
Definition InText (lx : Lexer) : Prop := pos lx <= String.length (source lx).

(** What a method that returned has done to the cursor: the text is the
    same, the cursor has moved forward by [d] characters at least, and it
    has not left the text. *)
Definition Moved (d : nat) (lx lx' : Lexer) : Prop :=
  source lx' = source lx /\ pos lx + d <= pos lx' /\ (InText lx -> InText lx').

End MoveNotions.

(** Token [t] stands at offset [o] of the text: it has the line and column
    of that offset and, unless it is a string or a line feed, its text is
    the text found there. *)
Definition tokenAt (src : string) (t : Token) (o : nat) : Prop :=
  loc t = positionOf src o
  /\ o <= String.length src
  /\ (type t <> STRING -> type t <> NEWLINE ->
      value t = substring o (String.length (value t)) src).

(** Whether, in the text, every [//] has a line feed or a ['\0'] somewhere
    after it. *)
Fixpoint commentsEnd (s : string) : bool :=
  match s with
  | EmptyString => true
  | String c s' =>
      match s' with
      | String c' s'' =>
          (if Ascii.eqb c "/" && Ascii.eqb c' "/" then endsLine s'' else true)
          && commentsEnd s'
      | EmptyString => true
      end
  end.

(** The characters of the text from the cursor on. *)
Definition remaining (lx : Lexer.Lexer) : nat :=
  String.length (Lexer.source lx) - Lexer.pos lx.

(** An outcome that is a result. *)
Definition Done {St A} (o : Outcome St A) : Prop := o <> OutOfFuel.

Definition isBlock (node : ASTNode) : bool :=
  match node with
  | BlockExpression _ _ => true
  | _ => false
  end.

(** The trees [generateExpression] has a case for, with under them, where
    the generator goes on with [generateNode], the trees [generateNode] has
    a case for (a function, a [while] or a [for] with a block as body). *)
Fixpoint exprOk (node : ASTNode) : bool :=
  match node with
  | BinaryExpression _ l r _ => exprOk l && exprOk r
  | UnaryExpression _ o _ => exprOk o
  | PipeExpression l r _ => exprOk l && exprOk r
  | CallExpression c args _ => exprOk c && forallb exprOk args
  | Lambda _ body _ => exprOk body
  | Identifier _ _ | Literal _ _ _ => true
  | ArrayLiteral elements _ => forallb exprOk elements
  | IfExpression c t e _ => exprOk c && exprOk t && optionAll exprOk e
  | BlockExpression statements _ => forallb stmtOk statements
  | _ => false
  end

with stmtOk (node : ASTNode) : bool :=
  match node with
  | LetDeclaration _ init _ | VarDeclaration _ init _ => exprOk init
  | FunctionDeclaration _ _ body isExpression _ =>
      if isExpression then exprOk body else isBlock body && exprOk body
  | Assignment _ value _ => exprOk value
  | WhileStatement c b _ => exprOk c && isBlock b && exprOk b
  | ForStatement _ i b _ => exprOk i && isBlock b && exprOk b
  | ReturnStatement v _ => optionAll exprOk v
  | ExpressionStatement e _ => exprOk e
  | _ => false
  end.

Definition programOk (node : ASTNode) : bool :=
  match node with
  | Program body => forallb stmtOk body
  | _ => false
  end.

Module SafeNotions.
Import Parser.

(** The tokens a statement may cost the fuel of, at most, before the
    parser consumes one: the depth of the calls from [parseStatement]
    to [parsePrimary] and on to what it calls. *)
Definition W : nat := 13.

Section Tokens.
Variables (toks : list Token) (src : string).

(** The instance reads [toks] and has an end-of-input token [k] tokens
    ahead. *)
Definition Before (k : nat) (p : Parser) : Prop :=
  tokens p = toks /\ source p = src /\
  exists eof, nth_error toks (pos p + k) = Some eof /\ type eof = EOF.

(** An error of the parser at one of the tokens. *)
Definition Located (e : Error) : Prop :=
  exists msg t,
    In t toks /\ e = PiperError msg src (line (loc t)) (column (loc t)).

(** What a method does [c] tokens into the method that runs it, from an
    instance that reads [toks] before an end-of-input token: when it returns
    it has kept the instance before such a token, is [d] tokens or more into
    the method, and what it returns satisfies [Q]; when it throws it is an
    error at a token; and it runs out of fuel only when [b] is no more than
    [W] times the tokens the method had ahead. *)
Definition Safe {A} (c d b : nat) (Q : A -> Prop) (m : M Parser A) : Prop :=
  forall k p, Before k p ->
    match m p with
    | Ok a p' => exists k', k' + d <= k + c /\ Before k' p' /\ Q a
    | Throw e => Located e
    | OutOfFuel => b <= W * (k + c)
    end.

(** The same from an instance whose current token is [t]. *)
Definition SafeAt {A} (t : Token) (c d b : nat) (Q : A -> Prop)
    (m : M Parser A) : Prop :=
  forall k p, Before k p -> nth_error toks (pos p) = Some t ->
    match m p with
    | Ok a p' => exists k', k' + d <= k + c /\ Before k' p' /\ Q a
    | Throw e => Located e
    | OutOfFuel => b <= W * (k + c)
    end.

End Tokens.

Definition isExpr (node : ASTNode) : Prop := exprOk node = true.
Definition isStmt (node : ASTNode) : Prop := stmtOk node = true.
Definition isBlockExpr (node : ASTNode) : Prop :=
  exprOk node = true /\ isBlock node = true.
Definition areExprs (nodes : list ASTNode) : Prop :=
  forallb exprOk nodes = true.
Definition areStmts (nodes : list ASTNode) : Prop :=
  forallb stmtOk nodes = true.
Definition any {A} (a : A) : Prop := True.

End SafeNotions.

Module SafeParser.
Import Parser SafeNotions.

(** The fuel a method has left for the tokens, out of [fuel], when the calls
    from it to [parsePrimary], without a token consumed, are [rank] deep. *)
Definition budget (rank fuel : nat) : nat := fuel + 1 - rank.

Section Tokens.
Variables (toks : list Token) (src : string).

(** A method that starts with a token that is not the end-of-input token
    and consumes it. *)
Definition SafeOn {A} (rank : nat) (Q : A -> Prop) (m : nat -> M Parser A)
    (fuel : nat) : Prop :=
  forall t, type t <> EOF ->
    SafeAt toks src t 0 1 (budget rank fuel) Q (m fuel).

Definition SafeIn {A} (rank : nat) (Q : A -> Prop) (m : nat -> M Parser A)
    (fuel : nat) : Prop :=
  Safe toks src 0 1 (budget rank fuel) Q (m fuel).

(** Every method of the parser, with its depth. *)
Definition AllSafe (fuel : nat) : Prop :=
  SafeIn 13 isStmt parseStatement fuel /\
  SafeOn 1 isStmt parseLetDeclaration fuel /\
  SafeOn 1 isStmt parseVarDeclaration fuel /\
  SafeOn 1 isStmt parseFunctionDeclaration fuel /\
  SafeIn 1 isStmt parseAssignment fuel /\
  SafeOn 1 isStmt parseReturnStatement fuel /\
  SafeOn 1 isStmt parseWhileStatement fuel /\
  SafeOn 1 isStmt parseForStatement fuel /\
  SafeIn 12 isExpr parseExpression fuel /\
  SafeIn 11 isExpr parsePipe fuel /\
  SafeIn 10 isExpr parseLogicalOr fuel /\
  SafeIn 9 isExpr parseLogicalAnd fuel /\
  SafeIn 8 isExpr parseEquality fuel /\
  SafeIn 7 isExpr parseComparison fuel /\
  SafeIn 6 isExpr parseAdditive fuel /\
  SafeIn 5 isExpr parseMultiplicative fuel /\
  SafeIn 4 isExpr parseUnary fuel /\
  SafeIn 3 isExpr parseCall fuel /\
  SafeIn 2 isExpr parsePrimary fuel /\
  SafeOn 1 isExpr parseIfExpression fuel /\
  SafeIn 1 isBlockExpr parseBlockExpression fuel /\
  SafeIn 1 isExpr parseLambda fuel /\
  SafeIn 1 isExpr parseArrayLiteral fuel.

End Tokens.
End SafeParser.

Module SortNotions.
Import CodeGenerator.

(** A method of the generator that returns, or throws [Invalid pipe target]
    for a node that is not one and then [ok] is false. *)
Definition OnlyPipes {A} (ok : bool) (m : Gen A) : Prop :=
  forall g,
    match m g with
    | Ok _ _ => True
    | Throw e =>
        ok = false /\
        exists r, isPipeTarget r = false /\ e = invalidPipeTarget r
    | OutOfFuel => False
    end.

End SortNotions.

(** What a method throws, when it throws, satisfies [P]. *)
Definition Throws {St A} (P : Error -> Prop) (m : M St A) : Prop :=
  forall s e, m s = Throw e -> P e.

(** The two errors of the lexer. *)
Definition lexical (e : Error) : Prop :=
  (exists start, e = Lexer.unterminatedString start)
  \/ (exists char at_, e = Lexer.unexpectedCharacter char at_).

(** An error of the parser at a position of the text. *)
Definition syntactic (src : string) (e : Error) : Prop :=
  exists msg o,
    o <= String.length src
    /\ e = PiperError msg src (line (positionOf src o))
             (column (positionOf src o)).

(** The error of the generator. *)
Definition invalidPipe (e : Error) : Prop :=
  exists r, isPipeTarget r = false
            /\ e = JsError ("Invalid pipe target: " ++ nodeType r).

(** [((first op1 x1) op2 x2) ...]: the operators applied from the left,
    every node with the position [l]. *)
Definition chain (l : option SourceLocation) (first : ASTNode)
    (rest : list (string * ASTNode)) : ASTNode :=
  fold_left (fun left or => BinaryExpression (fst or) left (snd or) l)
    rest first.

(** The six methods of the binary operators: the operators of each, the
    method, and the method it calls for its operands. *)
Definition tiers
  : list (list TokenType * (nat -> M Parser.Parser ASTNode)
          * (nat -> M Parser.Parser ASTNode)) :=
  [ ([OR], Parser.parseLogicalOr, Parser.parseLogicalAnd);
    ([AND], Parser.parseLogicalAnd, Parser.parseEquality);
    ([EQEQ; NEQ], Parser.parseEquality, Parser.parseComparison);
    ([LT; LTE; GT; GTE], Parser.parseComparison, Parser.parseAdditive);
    ([PLUS; MINUS], Parser.parseAdditive, Parser.parseMultiplicative);
    ([STAR; SLASH; PERCENT], Parser.parseMultiplicative, Parser.parseUnary) ].

(** [operand] is what [lower] returned somewhere. *)
Definition returnedBy (lower : M Parser.Parser ASTNode) (operand : ASTNode)
  : Prop :=
  exists q q', lower q = Ok operand q'.

(** [operator] is the text of a token of one of the types [ops]. *)
Definition operatorOf (ops : list TokenType) (operator : string) : Prop :=
  exists t, existsb (TokenType_eqb (type t)) ops = true /\ value t = operator.

(** ** Reporting an error (src/errors.ts) *)

Module Errors.

(** What [formatError] gives: the text, or the [RangeError] the host raises
    for [repeat] with a negative count. *)
Inductive Report : Type :=
| Text (text : string)
| RangeError.

(** [s.split('\n')]: the piece before the first ['\n'], and the others. *)
Fixpoint splitLF (s : string) : string * list string :=
  match s with
  | EmptyString => (EmptyString, [])
  | String c rest =>
      let (first, others) := splitLF rest in
      if Ascii.eqb c LF then (EmptyString, first :: others)
      else (String c first, others)
  end.

Definition splitLines (s : string) : list string :=
  let (first, others) := splitLF s in first :: others.

(** [' '.repeat(n)]. *)
Fixpoint spaces (n : nat) : string :=
  match n with
  | 0 => EmptyString
  | S n' => String " " (spaces n')
  end.

(** [formatError(error)], from the fields of the error; [filePath] is
    [None] when the field is not set. *)
Definition formatError (message source : string) (filePath : option string)
    (line column : nat) : Report :=
  let location :=
    match filePath with
    | Some p => if p =? EmptyString then "<input>" else p
    | None => "<input>"
    end in
  let lines :=
    ["error: " ++ message; EmptyString;
     "  --> " ++ location ++ ":" ++ showNat line ++ ":" ++ showNat column] in
  let sourceLines := splitLines source in
  match match line with 0 => None | S i => nth_error sourceLines i end with
  | Some sourceLine =>
      let lineNumStr := showNat line in
      let gutter := spaces (String.length lineNumStr) in
      match column with
      | 0 => RangeError
      | S n =>
          Text (join LFs
                  (lines ++ [gutter ++ " |";
                             lineNumStr ++ " | " ++ sourceLine;
                             gutter ++ " | " ++ spaces n ++ "^ " ++ message]))
      end
  | None => Text (join LFs lines)
  end.

End Errors.

(** The text up to the end of the line. *)
Definition lineFrom (s : string) : string := fst (Errors.splitLF s).

(** The line breaks of a text. *)
Fixpoint lineBreaks (s : string) : nat :=
  match s with
  | EmptyString => 0
  | String c rest => (if Ascii.eqb c LF then 1 else 0) + lineBreaks rest
  end.

(** [filePath || '<input>']. *)
Definition shownPath (filePath : option string) : string :=
  match filePath with
  | Some p => if p =? EmptyString then "<input>" else p
  | None => "<input>"
  end.

(** The first three lines of a report: the message and the place. *)
Definition reportHead (msg location : string) (l c : nat) : list string :=
  ["error: " ++ msg; EmptyString;
   "  --> " ++ location ++ ":" ++ showNat l ++ ":" ++ showNat c].

(** The report of an error of message [msg] at offset [o] of the text, for
    the file [location]: the message, the place, and the line of the text
    with a caret under offset [o], [before] being the text of the line up
    to the offset. *)
Definition reportAt (msg src location : string) (o : nat) (before : string)
  : string :=
  let at_ := positionOf src o in
  let number := showNat (line at_) in
  join LFs
    (reportHead msg location (line at_) (column at_) ++
    [Errors.spaces (String.length number) ++ " |";
     number ++ " | " ++ before ++ lineFrom (dropChars o src);
     Errors.spaces (String.length number) ++ " | "
       ++ Errors.spaces (String.length before) ++ "^ " ++ msg]).

(** ** Facts about the monad *)

Lemma bind_Ok {St A B} (m : M St A) (k : A -> M St B) s b s' :
  bind m k s = Ok b s' <-> exists a s1, m s = Ok a s1 /\ k a s1 = Ok b s'.
Proof.
  unfold bind. split.
  - destruct (m s) as [a s1| |]; try discriminate. eauto.
  - intros (a & s1 & -> & H). exact H.
Qed.

Lemma bind_eq {St A B} (m : M St A) (k : A -> M St B) s r :
  m s = r ->
  bind m k s = match r with
               | Ok a s' => k a s'
               | Throw e => Throw e
               | OutOfFuel => OutOfFuel
               end.
Proof. unfold bind. now intros ->. Qed.

Lemma bind_run {St A B} (m : M St A) (k : A -> M St B) s a s1 :
  m s = Ok a s1 -> bind m k s = k a s1.
Proof. unfold bind. now intros ->. Qed.

Lemma size_in (n : ASTNode) (l : list ASTNode) : In n l -> size n <= sizes l.
Proof.
  induction l as [|x l IH]; simpl; [tauto|].
  intros [->|H]; [lia|]. apply IH in H. lia.
Qed.

(** ** Facts about the code generator *)

Module GenFacts.
Import CodeGenerator GenNotions.

Lemma withOutput_same g : withOutput g (output g) = g.
Proof. now destruct g. Qed.

Lemma Pure_ret {A} (a : A) : Pure (ret a).
Proof. intros g a' g' [= -> ->]. split; [reflexivity|]. intros out. reflexivity. Qed.

Lemma Pure_throw {A} e : Pure (@throw CodeGenerator A e).
Proof. intros g a g' H. discriminate. Qed.

Lemma Pure_bind {A B} (m : Gen A) (k : A -> Gen B) :
  Pure m -> (forall a, Pure (k a)) -> Pure (bind m k).
Proof.
  intros Hm Hk g b g' H. apply bind_Ok in H as (a & g1 & H1 & H2).
  apply Hm in H1 as [-> H1]. apply Hk in H2 as [-> H2].
  split; [reflexivity|]. intros out.
  rewrite (bind_run _ _ _ _ _ (H1 out)). apply H2.
Qed.

Lemma Pure_indent : Pure indent.
Proof. intros g a g' [= <- <-]. split; [reflexivity|]. intros out. reflexivity. Qed.

Lemma Pure_Appending {A} (m : Gen A) : Pure m -> Appending m.
Proof.
  intros Hm g a g' H. apply Hm in H as [-> H]. exists [].
  rewrite app_nil_r, withOutput_same. split; [reflexivity|].
  intros out. rewrite app_nil_r. apply H.
Qed.

Lemma Appending_bind {A B} (m : Gen A) (k : A -> Gen B) :
  Appending m -> (forall a, Appending (k a)) -> Appending (bind m k).
Proof.
  intros Hm Hk g b g' H. apply bind_Ok in H as (a & g1 & H1 & H2).
  apply Hm in H1 as (d1 & -> & H1). apply Hk in H2 as (d2 & -> & H2).
  exists (d1 ++ d2)%list. unfold withOutput in *. simpl in *.
  rewrite <- app_assoc. split; [reflexivity|]. intros out.
  rewrite (bind_run _ _ _ _ _ (H1 out)). rewrite app_assoc. apply H2.
Qed.

Lemma Appending_emitLine code : Appending (emitLine code).
Proof.
  intros g a g' H. unfold emitLine, indent, emit, bind in *.
  injection H as <- <-.
  exists [repeatIndent (indentLevel g) ++ code ++ LFs].
  split; [reflexivity|]. intros out. reflexivity.
Qed.

Lemma Appending_emit code : Appending (emit code).
Proof.
  intros g a g' [= <- <-]. exists [code]. split; [reflexivity|].
  intros out. reflexivity.
Qed.

(** [this.indentLevel++; m; this.indentLevel--; k]. *)
Lemma Appending_indented {A} (m : Gen unit) (k : Gen A) :
  Appending m -> Appending k ->
  Appending (indentMore ;; m ;; indentLess ;; k).
Proof.
  intros Hm Hk g b g' H.
  apply bind_Ok in H as (u1 & g1 & H1 & H).
  apply bind_Ok in H as (u2 & g2 & H2 & H).
  apply bind_Ok in H as (u3 & g3 & H3 & H).
  injection H1 as <- <-.
  apply Hm in H2 as (d1 & -> & H2). injection H3 as <- <-.
  apply Hk in H as (d2 & -> & H).
  exists (d1 ++ d2)%list. unfold withOutput in *. simpl in *.
  rewrite <- app_assoc. split; [reflexivity|]. intros out.
  unfold bind at 1. unfold indentMore at 1. simpl.
  rewrite (bind_run _ _ _ _ _ (H2 out)).
  unfold bind at 1. unfold indentLess at 1. simpl.
  rewrite app_assoc. apply H.
Qed.

(** The save-and-restore of the buffer around a block body, in
    [generateBlockExpression] and in [generateLambda]. *)
Lemma Pure_scoped {A} (body : Gen unit) (f : list string -> string -> A) :
  Appending body ->
  Pure (indentMore ;;
        savedOutput <- getOutput ;;
        setOutput [] ;;
        body ;;
        inner <- getOutput ;;
        setOutput savedOutput ;;
        indentLess ;;
        i <- indent ;;
        ret (f inner i)).
Proof.
  intros Hb g a g' H. destruct g as [lvl out0].
  unfold bind at 1 in H. unfold indentMore at 1 in H. simpl in H.
  unfold bind at 1 in H. unfold getOutput at 1 in H. simpl in H.
  unfold bind at 1 in H. unfold setOutput at 1 in H. simpl in H.
  apply bind_Ok in H as (u & g2 & H2 & H).
  pose proof (Hb _ _ _ H2) as (d & -> & _). simpl in H.
  unfold withOutput in H. simpl in H. injection H as <- <-.
  split; [reflexivity|]. intros out. unfold withOutput. simpl.
  unfold bind at 1. unfold indentMore at 1. simpl.
  unfold bind at 1. unfold getOutput at 1. simpl.
  unfold bind at 1. unfold setOutput at 1. simpl.
  rewrite (bind_run _ _ _ _ _ H2). reflexivity.
Qed.

Lemma Pure_mapNodes (f : ASTNode -> Gen string) (l : list ASTNode) :
  (forall n, In n l -> Pure (f n)) -> Pure (mapNodes f l).
Proof.
  induction l as [|n l IH]; intros H; simpl.
  - apply Pure_ret.
  - apply Pure_bind; [apply H; now left|]. intros s.
    apply Pure_bind; [apply IH; intros; apply H; now right|].
    intros ss. apply Pure_ret.
Qed.

Lemma Appending_forEachNode (f : ASTNode -> Gen unit) (l : list ASTNode) :
  (forall n, In n l -> Appending (f n)) -> Appending (forEachNode f l).
Proof.
  induction l as [|n l IH]; intros H; simpl.
  - apply Pure_Appending, Pure_ret.
  - apply Appending_bind; [apply H; now left|]. intros _.
    apply IH. intros; apply H; now right.
Qed.

Lemma Appending_blockBodyWith (gn : ASTNode -> Gen unit)
    (ge : ASTNode -> Gen string) (l : list ASTNode) :
  (forall n, In n l -> Appending (gn n)) ->
  (forall e lc, In (ExpressionStatement e lc) l -> Pure (ge e)) ->
  Appending (blockBodyWith gn ge l).
Proof.
  induction l as [|n l IH]; intros Hn He.
  - apply Appending_emitLine.
  - destruct l as [|n' l'].
    + simpl. destruct n; try (apply Hn; now left).
      apply Appending_bind.
      * apply Pure_Appending. apply (He _ loc0). now left.
      * intros e. apply Appending_emitLine.
    + change (Appending (gn n ;; blockBodyWith gn ge (n' :: l'))).
      apply Appending_bind; [apply Hn; now left|]. intros _.
      apply IH; intros; [apply Hn | eapply He]; right; eassumption.
Qed.

Ltac smaller :=
  repeat match goal with
         | H : In _ _ |- _ => apply size_in in H
         end;
  unfold sizes in *; simpl in *; lia.

(** The three recursive methods, by induction on the size of the node. *)
Lemma generate_framed (n : ASTNode) :
  Pure (generateExpression n) /\
  Appending (generateNode n) /\
  Appending (generateBlockBody n).
Proof.
  induction n as [n IH] using (induction_ltof1 _ size). unfold ltof in IH.
  assert (IHe : forall m, size m < size n -> Pure (generateExpression m))
    by (intros m Hm; apply (IH m Hm)).
  assert (IHn : forall m, size m < size n -> Appending (generateNode m))
    by (intros m Hm; apply (IH m Hm)).
  assert (IHb : forall m, size m < size n -> Appending (generateBlockBody m))
    by (intros m Hm; apply (IH m Hm)).
  clear IH.
  assert (IHes : forall l, sizes l < size n -> Pure (mapNodes generateExpression l)).
  { intros l Hl. apply Pure_mapNodes. intros m Hm. apply IHe. smaller. }
  assert (IHns : forall l, sizes l < size n ->
                   Appending (forEachNode generateNode l)).
  { intros l Hl. apply Appending_forEachNode. intros m Hm. apply IHn. smaller. }
  assert (IHbs : forall l, sizes l < size n ->
                   Appending (blockBodyWith generateNode generateExpression l)).
  { intros l Hl. apply Appending_blockBodyWith.
    - intros m Hm. apply IHn. smaller.
    - intros e lc Hm. apply IHe. smaller. }
  split; [|split].
  - (* generateExpression *)
    destruct n; simpl; try apply Pure_throw.
    + (* IfExpression *)
      apply Pure_bind; [apply IHe; destruct elseBranch; smaller|]. intros c.
      apply Pure_bind; [apply IHe; destruct elseBranch; smaller|]. intros t.
      destruct elseBranch as [e|]; [|apply Pure_ret].
      apply Pure_bind; [apply IHe; smaller|]. intros e'. apply Pure_ret.
    + (* BlockExpression *)
      apply Pure_scoped. apply IHbs. smaller.
    + (* BinaryExpression *)
      apply Pure_bind; [apply IHe; smaller|]. intros l.
      apply Pure_bind; [apply IHe; smaller|]. intros r. apply Pure_ret.
    + (* UnaryExpression *)
      apply Pure_bind; [apply IHe; smaller|]. intros o. apply Pure_ret.
    + (* PipeExpression *)
      apply Pure_bind; [apply IHe; smaller|]. intros l.
      destruct n2; try apply Pure_throw; [|apply Pure_ret].
      apply Pure_bind; [apply IHes; smaller|]. intros rest.
      destruct n2; try apply Pure_ret;
        (apply Pure_bind; [apply IHe; smaller|]; intros c; apply Pure_ret).
    + (* CallExpression *)
      apply Pure_bind; [apply IHe; smaller|]. intros c.
      apply Pure_bind; [apply IHes; smaller|]. intros args'.
      destruct n; try apply Pure_ret.
      destruct (inList name BUILTINS); apply Pure_ret.
    + (* Lambda *)
      destruct n; try (apply Pure_bind; [apply IHe; smaller|]; intros b;
                       apply Pure_ret).
      apply (Pure_scoped _ (fun inner i => _)). apply IHbs. smaller.
    + (* Identifier *) apply Pure_ret.
    + (* Literal *) apply Pure_ret.
    + (* ArrayLiteral *)
      apply Pure_bind; [apply IHes; smaller|]. intros es. apply Pure_ret.
  - (* generateNode *)
    destruct n; simpl; try (apply Pure_Appending, Pure_throw).
    + apply Appending_bind; [apply Pure_Appending, IHe; smaller|].
      intros i. apply Appending_emitLine.
    + apply Appending_bind; [apply Pure_Appending, IHe; smaller|].
      intros i. apply Appending_emitLine.
    + (* FunctionDeclaration *)
      destruct isExpression.
      * apply Appending_bind; [apply Pure_Appending, IHe; smaller|]. intros b.
        apply Appending_bind; [apply Appending_emitLine|]. intros _.
        apply Appending_indented; apply Appending_emitLine.
      * apply Appending_bind; [apply Appending_emitLine|]. intros _.
        apply Appending_indented; [apply IHb; smaller|apply Appending_emitLine].
    + apply Appending_bind; [apply Pure_Appending, IHe; smaller|].
      intros i. apply Appending_emitLine.
    + (* WhileStatement *)
      apply Appending_bind; [apply Pure_Appending, IHe; smaller|]. intros c.
      apply Appending_bind; [apply Appending_emitLine|]. intros _.
      apply Appending_indented; [|apply Appending_emitLine].
      destruct n2; try (apply Pure_Appending, Pure_throw). apply IHns. smaller.
    + (* ForStatement *)
      apply Appending_bind; [apply Pure_Appending, IHe; smaller|]. intros c.
      apply Appending_bind; [apply Appending_emitLine|]. intros _.
      apply Appending_indented; [|apply Appending_emitLine].
      destruct n2; try (apply Pure_Appending, Pure_throw). apply IHns. smaller.
    + (* ExpressionStatement *)
      apply Appending_bind; [apply Pure_Appending, IHe; smaller|].
      intros i. apply Appending_emitLine.
    + (* ReturnStatement *)
      destruct value0 as [v|]; [|apply Appending_emitLine].
      apply Appending_bind; [apply Pure_Appending, IHe; smaller|].
      intros i. apply Appending_emitLine.
  - (* generateBlockBody *)
    destruct n; simpl; try (apply Pure_Appending, Pure_throw).
    apply IHbs. smaller.
Qed.

Lemma generateExpression_Pure n : Pure (generateExpression n).
Proof. apply generate_framed. Qed.

Lemma generateNode_Appending n : Appending (generateNode n).
Proof. apply generate_framed. Qed.

Lemma generateExpressions_Pure l : Pure (generateExpressions l).
Proof. apply Pure_mapNodes. intros; apply generateExpression_Pure. Qed.

Lemma generateStatements_Appending l : Appending (generateStatements l).
Proof. apply Appending_forEachNode. intros; apply generateNode_Appending. Qed.

Lemma blockBodyLoop_Appending l : Appending (blockBodyLoop l).
Proof.
  apply Appending_blockBodyWith; intros.
  - apply generateNode_Appending.
  - apply generateExpression_Pure.
Qed.

End GenFacts.

(** ** What a successful generation says about the tree *)

Module PipeFacts.
Import CodeGenerator.

Section Lists.
Variable p : ASTNode -> bool.

Lemma mapNodes_all (f : ASTNode -> Gen string) (l : list ASTNode) :
  (forall n, In n l -> forall g a g', f n g = Ok a g' -> p n = true) ->
  forall g a g', mapNodes f l g = Ok a g' -> forallb p l = true.
Proof.
  induction l as [|n l IH]; intros Hf g a g' H; [reflexivity|].
  simpl in H. apply bind_Ok in H as (s & g1 & H1 & H).
  apply bind_Ok in H as (ss & g2 & H2 & _).
  simpl. rewrite (Hf n (or_introl eq_refl) _ _ _ H1).
  apply (IH (fun m Hm => Hf m (or_intror Hm)) _ _ _ H2).
Qed.

Lemma forEachNode_all (f : ASTNode -> Gen unit) (l : list ASTNode) :
  (forall n, In n l -> forall g a g', f n g = Ok a g' -> p n = true) ->
  forall g a g', forEachNode f l g = Ok a g' -> forallb p l = true.
Proof.
  induction l as [|n l IH]; intros Hf g a g' H; [reflexivity|].
  simpl in H. apply bind_Ok in H as (s & g1 & H1 & H2).
  simpl. rewrite (Hf n (or_introl eq_refl) _ _ _ H1).
  apply (IH (fun m Hm => Hf m (or_intror Hm)) _ _ _ H2).
Qed.

Lemma blockBodyWith_all (gn : ASTNode -> Gen unit)
    (ge : ASTNode -> Gen string) (l : list ASTNode) :
  (forall n, In n l -> forall g a g', gn n g = Ok a g' -> p n = true) ->
  (forall e lc, In (ExpressionStatement e lc) l ->
     forall g a g', ge e g = Ok a g' -> p (ExpressionStatement e lc) = true) ->
  forall g a g', blockBodyWith gn ge l g = Ok a g' -> forallb p l = true.
Proof.
  induction l as [|n l IH]; intros Hn He g a g' H; [reflexivity|].
  destruct l as [|n' l'].
  - simpl. rewrite andb_true_r. simpl in H.
    destruct n; try (apply (Hn _ (or_introl eq_refl) _ _ _ H)).
    apply bind_Ok in H as (s & g1 & H1 & _).
    apply (He _ _ (or_introl eq_refl) _ _ _ H1).
  - change (bind (gn n) (fun _ => blockBodyWith gn ge (n' :: l')) g = Ok a g') in H.
    apply bind_Ok in H as (s & g1 & H1 & H2).
    change (p n && forallb p (n' :: l') = true).
    rewrite (Hn n (or_introl eq_refl) _ _ _ H1).
    apply (IH (fun m Hm => Hn m (or_intror Hm))
              (fun e lc Hm => He e lc (or_intror Hm)) _ _ _ H2).
Qed.
End Lists.

Ltac smaller :=
  repeat match goal with
         | H : In _ _ |- _ => apply size_in in H
         end;
  unfold sizes in *; simpl in *; lia.

Lemma generate_checks_pipes (n : ASTNode) :
  (forall g a g', generateExpression n g = Ok a g' -> pipeTargetsOk n = true) /\
  (forall g a g', generateNode n g = Ok a g' -> pipeTargetsOk n = true) /\
  (forall g a g', generateBlockBody n g = Ok a g' -> pipeTargetsOk n = true).
Proof.
  induction n as [n IH] using (induction_ltof1 _ size). unfold ltof in IH.
  assert (IHe : forall m, size m < size n -> forall g a g',
             generateExpression m g = Ok a g' -> pipeTargetsOk m = true)
    by (intros m Hm; apply (IH m Hm)).
  assert (IHn : forall m, size m < size n -> forall g a g',
             generateNode m g = Ok a g' -> pipeTargetsOk m = true)
    by (intros m Hm; apply (IH m Hm)).
  assert (IHb : forall m, size m < size n -> forall g a g',
             generateBlockBody m g = Ok a g' -> pipeTargetsOk m = true)
    by (intros m Hm; apply (IH m Hm)).
  clear IH.
  assert (IHes : forall l, sizes l < size n -> forall g a g',
             mapNodes generateExpression l g = Ok a g' ->
             forallb pipeTargetsOk l = true).
  { intros l Hl. apply mapNodes_all. intros m Hm. apply IHe. smaller. }
  assert (IHns : forall l, sizes l < size n -> forall g a g',
             forEachNode generateNode l g = Ok a g' ->
             forallb pipeTargetsOk l = true).
  { intros l Hl. apply forEachNode_all. intros m Hm. apply IHn. smaller. }
  assert (IHbs : forall l, sizes l < size n -> forall g a g',
             blockBodyWith generateNode generateExpression l g = Ok a g' ->
             forallb pipeTargetsOk l = true).
  { intros l Hl. apply blockBodyWith_all.
    - intros m Hm. apply IHn. smaller.
    - intros e lc Hm. simpl. apply IHe. smaller. }
  split; [|split]; intros g a g' H; destruct n; simpl in H;
    repeat match goal with
      | H : throw _ _ = Ok _ _ |- _ => discriminate H
      | H : ret _ _ = Ok _ _ |- _ => clear H
      | H : emitLine _ _ = Ok _ _ |- _ => clear H
      | H : bind _ _ _ = Ok _ _ |- _ =>
          let H1 := fresh "H" in apply bind_Ok in H as (? & ? & H1 & H)
      | H : generateExpression _ _ = Ok _ _ |- _ => apply IHe in H; [|smaller]
      | H : generateNode _ _ = Ok _ _ |- _ => apply IHn in H; [|smaller]
      | H : generateBlockBody _ _ = Ok _ _ |- _ => apply IHb in H; [|smaller]
      | H : mapNodes generateExpression _ _ = Ok _ _ |- _ =>
          apply IHes in H; [|smaller]
      | H : forEachNode generateNode _ _ = Ok _ _ |- _ =>
          apply IHns in H; [|smaller]
      | H : blockBodyWith generateNode generateExpression _ _ = Ok _ _ |- _ =>
          apply IHbs in H; [|smaller]
      | H : (match ?x with _ => _ end) _ = Ok _ _ |- _ =>
          destruct x; cbv beta iota in H
      | H : (if ?b then _ else _) _ = Ok _ _ |- _ => destruct b
      | H : indentMore _ = Ok _ _ |- _ => clear H
      | H : indentLess _ = Ok _ _ |- _ => clear H
      | H : indent _ = Ok _ _ |- _ => clear H
      | H : getOutput _ = Ok _ _ |- _ => clear H
      | H : setOutput _ _ = Ok _ _ |- _ => clear H
      end;
    clear IHe IHn IHb IHes IHns IHbs; simpl in *;
    rewrite ?andb_true_iff in *; intuition auto.
Qed.

End PipeFacts.

(** ** Facts about the lexer *)

Module LexerFacts.
Import Lexer.

Lemma charAt_lt (s : string) (i : nat) (c : ascii) :
  charAt s i = Some c -> i < String.length s.
Proof.
  unfold charAt. revert i. induction s as [|a s IH]; intros [|i] H;
    simpl in *; try discriminate; try lia.
  apply IH in H. lia.
Qed.

Lemma current_not_NUL (lx : Lexer) :
  current lx <> NUL -> charAt (source lx) (pos lx) = Some (current lx).
Proof.
  unfold current. destruct (charAt (source lx) (pos lx)); congruence.
Qed.

Lemma advance_run (lx : Lexer) :
  exists lx', advance lx = Ok (current lx) lx' /\
              source lx' = source lx /\ pos lx' = S (pos lx).
Proof.
  unfold advance. destruct (Ascii.eqb (current lx) LF); eexists; eauto.
Qed.

(** The main loop stops only on ['\0']. *)
Lemma tokenizeTurn_Break (fuel : nat) (lx lx' : Lexer) :
  tokenizeTurn fuel lx = Ok Break lx' -> current lx' = NUL.
Proof.
  unfold tokenizeTurn. intros H.
  apply bind_Ok in H as (u1 & l1 & _ & H).
  apply bind_Ok in H as (u2 & l2 & _ & H).
  unfold bind at 1 in H. unfold getCurrent at 1 in H.
  destruct (Ascii.eqb (current l2) NUL) eqn:E.
  - injection H as <-. now apply Ascii.eqb_eq.
  - exfalso. unfold bind at 1 in H. unfold getHere at 1 in H.
    repeat match type of H with
           | (if ?b then _ else _) _ = _ => destruct b
           end;
      repeat match goal with
        | H : bind _ _ _ = Ok _ _ |- _ =>
            apply bind_Ok in H as (? & ? & _ & H)
        | H : ret _ _ = Ok _ _ |- _ => discriminate H
        | H : (match ?x with _ => _ end) _ = Ok _ _ |- _ => destruct x
        | H : throw _ _ = Ok _ _ |- _ => discriminate H
        end.
Qed.

Lemma tokenizeLoop_ends (fuel : nat) :
  forall tokens lx tokens' lx',
    tokenizeLoop fuel tokens lx = Ok tokens' lx' -> current lx' = NUL.
Proof.
  induction fuel as [|fuel IH]; intros tokens lx tokens' lx' H;
    [discriminate|].
  simpl in H. unfold bind at 1 in H. unfold getCurrent at 1 in H.
  destruct (Ascii.eqb (current lx) NUL) eqn:E.
  - injection H as <- <-. now apply Ascii.eqb_eq.
  - apply bind_Ok in H as (turn & l1 & H1 & H). destruct turn.
    + injection H as <- <-. now apply tokenizeTurn_Break in H1.
    + now apply IH in H.
Qed.

(** On an instance whose cursor is on ['\0'], [tokenize] pushes the
    end-of-input token and nothing else. *)
Lemma tokenize_at_end (fuel : nat) (lx : Lexer) :
  current lx = NUL ->
  tokenize (S fuel) lx = Ok [mkToken EOF EmptyString (here lx)] lx.
Proof.
  intros H. unfold tokenize. simpl. unfold bind, getCurrent, getHere.
  rewrite H. reflexivity.
Qed.

Lemma charAt_dropChars (s : string) :
  forall n, charAt s n = match dropChars n s with
                         | String c _ => Some c
                         | EmptyString => None
                         end.
Proof.
  unfold charAt. induction s as [|a s IH]; intros [|n]; simpl; auto.
Qed.

Lemma dropChars_S (s : string) :
  forall n, dropChars (S n) s = match dropChars n s with
                                | String _ r => r
                                | EmptyString => EmptyString
                                end.
Proof.
  induction s as [|a s IH]; intros [|n]; try reflexivity.
  change (dropChars (S (S n)) (String a s)) with (dropChars (S n) s).
  rewrite IH. reflexivity.
Qed.

Lemma length_dropChars (s : string) :
  forall n, String.length (dropChars n s) = String.length s - n.
Proof.
  induction s as [|a s IH]; intros [|n]; simpl; auto.
Qed.

Lemma current_dropChars (lx : Lexer) :
  current lx = match dropChars (pos lx) (source lx) with
               | String c _ => c
               | EmptyString => NUL
               end.
Proof.
  unfold current. rewrite charAt_dropChars.
  now destruct (dropChars (pos lx) (source lx)).
Qed.

(** [readStringLoop] stops on ['\0'] exactly when nothing closes the
    string. *)
Lemma readStringLoop_closes (quote : ascii) (fuel : nat) :
  quote <> NUL ->
  forall value lx,
    String.length (dropChars (pos lx) (source lx)) < fuel ->
    exists value' lx',
      readStringLoop fuel quote value lx = Ok value' lx'
      /\ (current lx' = NUL
          <-> closes quote (dropChars (pos lx) (source lx)) = false).
Proof.
  intros Hq. induction fuel as [|fuel IH]; intros v lx Hlen; [lia|].
  simpl. unfold bind at 1. unfold getCurrent at 1.
  pose proof (current_dropChars lx) as C.
  destruct (dropChars (pos lx) (source lx)) as [|c r] eqn:D.
  { rewrite C. apply Ascii.eqb_neq in Hq. rewrite Ascii.eqb_sym in Hq.
    rewrite Hq. simpl. exists v, lx. rewrite C. now split. }
  rewrite C. simpl closes.
  destruct (Ascii.eqb c quote) eqn:E1; simpl.
  { exists v, lx. split; [reflexivity|]. rewrite C.
    apply Ascii.eqb_eq in E1. subst c. split; [congruence|discriminate]. }
  destruct (Ascii.eqb c NUL) eqn:E2; simpl.
  { exists v, lx. split; [reflexivity|]. rewrite C.
    apply Ascii.eqb_eq in E2. now split. }
  destruct (advance_run lx) as (l1 & A1 & S1 & P1).
  assert (D1 : dropChars (pos l1) (source l1) = r)
    by (rewrite S1, P1, dropChars_S, D; reflexivity).
  simpl in Hlen.
  destruct (Ascii.eqb c BACKSLASH).
  - destruct (advance_run l1) as (l2 & A2 & S2 & P2).
    rewrite (bind_run _ _ _ _ _ A1), (bind_run _ _ _ _ _ A2).
    assert (D2 : dropChars (pos l2) (source l2)
                 = match r with String _ r' => r' | EmptyString => EmptyString end)
      by (rewrite S2, P2, dropChars_S, D1; reflexivity).
    destruct (IH (v ++ str (unescape quote (current l1))) l2)
      as (v' & lx' & R & I).
    + rewrite D2. destruct r; simpl in *; lia.
    + exists v', lx'. split; [assumption|]. rewrite I, D2. now destruct r.
  - rewrite (bind_run _ _ _ _ _ A1).
    destruct (IH (v ++ str (current lx)) l1) as (v' & lx' & R & I).
    + rewrite D1. lia.
    + exists v', lx'. split; [assumption|]. now rewrite I, D1.
Qed.

(** On the opening quote of a string that nothing closes, [readString]
    throws, with the position it was called at. *)
Lemma readString_unterminated (fuel : nat) (lx : Lexer) :
  current lx <> NUL ->
  closes (current lx) (dropChars (S (pos lx)) (source lx)) = false ->
  String.length (source lx) <= fuel ->
  readString fuel lx = Throw (unterminatedString (here lx)).
Proof.
  intros Hq Hno Hlen. unfold readString.
  unfold bind at 1. unfold getHere at 1.
  destruct (advance_run lx) as (l1 & A1 & S1 & P1).
  rewrite (bind_run _ _ _ _ _ A1).
  assert (Hlt : pos lx < String.length (source lx))
    by (eapply charAt_lt, current_not_NUL, Hq).
  destruct (readStringLoop_closes (current lx) fuel Hq EmptyString l1)
    as (v & l2 & R & C).
  - rewrite S1, P1, length_dropChars. lia.
  - rewrite S1, P1 in C. apply C in Hno.
    rewrite (bind_run _ _ _ _ _ R). unfold bind, getCurrent. rewrite Hno.
    reflexivity.
Qed.

(** On the opening quote of a string that a quote closes, it returns the
    string token. *)
Lemma readString_closed (fuel : nat) (lx : Lexer) :
  current lx <> NUL ->
  closes (current lx) (dropChars (S (pos lx)) (source lx)) = true ->
  String.length (source lx) <= fuel ->
  exists value lx',
    readString fuel lx = Ok (mkToken STRING value (here lx)) lx'.
Proof.
  intros Hq Hyes Hlen. unfold readString.
  unfold bind at 1. unfold getHere at 1.
  destruct (advance_run lx) as (l1 & A1 & S1 & P1).
  rewrite (bind_run _ _ _ _ _ A1).
  assert (Hlt : pos lx < String.length (source lx))
    by (eapply charAt_lt, current_not_NUL, Hq).
  destruct (readStringLoop_closes (current lx) fuel Hq EmptyString l1)
    as (v & l2 & R & C).
  - rewrite S1, P1, length_dropChars. lia.
  - rewrite S1, P1, Hyes in C.
    rewrite (bind_run _ _ _ _ _ R). unfold bind at 1. unfold getCurrent at 1.
    destruct (Ascii.eqb (current l2) NUL) eqn:E.
    + apply Ascii.eqb_eq, C in E. discriminate.
    + destruct (advance_run l2) as (l3 & A3 & _).
      rewrite (bind_run _ _ _ _ _ A3). eexists _, _. reflexivity.
Qed.

End LexerFacts.

(** ** Facts about the parser *)

Module ParserFacts.
Import Parser ParserNotions.

(** The loop of [parse] stops only on the end-of-input token. *)
Lemma programLoop_ends (fuel : nat) (parseStatement : M Parser ASTNode) :
  forall body p body' p',
    programLoop fuel parseStatement body p = Ok body' p' ->
    exists t, current p' = Some t /\ type t = EOF.
Proof.
  induction fuel as [|fuel IH]; intros body p body' p' H; [discriminate|].
  simpl in H. apply bind_Ok in H as (t & p1 & H1 & H).
  unfold currentToken in H1. destruct (current p) as [t0|] eqn:C;
    [|discriminate]. injection H1 as -> ->.
  destruct (TokenType_eqb (type t) EOF) eqn:E; simpl in H.
  - injection H as <- <-. exists t. split; [assumption|].
    destruct (type t); try discriminate. reflexivity.
  - apply bind_Ok in H as (s & p2 & _ & H). now apply IH in H.
Qed.

(** On an instance whose index is on the end-of-input token, [parse]
    returns the empty Program. *)
Lemma parse_at_end (fuel : nat) (p : Parser) (t : Token) :
  current p = Some t -> type t = EOF ->
  parse (S fuel) p = Ok (Program []) p.
Proof.
  intros C E. unfold parse. simpl. unfold bind, currentToken.
  rewrite C. simpl. rewrite E. reflexivity.
Qed.

(** *** Removing one token ahead of the index

    [Shift d p q]: the two instances hold the same tokens, except that the
    first holds one more, at index [d]; both indexes are past it, on the
    same token. *)
(** A method that does the same on two such instances. *)
Lemma Shift_nth (d : nat) (p q : Parser) (k : nat) :
  Shift d p q ->
  nth_error (tokens p) (pos p + k) = nth_error (tokens q) (pos q + k).
Proof.
  intros (_ & Hp & Hd & pre & c & post & -> & -> & Hl & _).
  rewrite Hp. rewrite !nth_error_app2 by lia.
  replace (S (pos q) + k - List.length pre) with (S (pos q + k - List.length pre)) by lia.
  reflexivity.
Qed.

Lemma Shift_last (d : nat) (p q : Parser) :
  Shift d p q ->
  nth_error (tokens p) (List.length (tokens p) - 1)
  = nth_error (tokens q) (List.length (tokens q) - 1).
Proof.
  intros (_ & _ & _ & pre & c & post & -> & -> & _ & Hne).
  destruct post as [|t post]; [congruence|].
  rewrite !length_app. simpl. rewrite !nth_error_app2 by lia.
  replace (List.length pre + S (S (List.length post)) - 1 - List.length pre)
    with (S (S (List.length post) - 1)) by lia.
  replace (List.length pre + S (List.length post) - 1 - List.length pre)
    with (S (List.length post) - 1) by lia.
  reflexivity.
Qed.

Lemma Shift_tokenOrLast (d : nat) (p q : Parser) (k : nat) :
  Shift d p q -> tokenOrLast p (pos p + k) = tokenOrLast q (pos q + k).
Proof.
  intros H. unfold tokenOrLast.
  rewrite (Shift_nth d p q k H), (Shift_last d p q H). reflexivity.
Qed.

Lemma Shift_current (d : nat) (p q : Parser) :
  Shift d p q -> current p = current q.
Proof.
  intros H. unfold current. rewrite <- (Nat.add_0_r (pos p)), <- (Nat.add_0_r (pos q)).
  now apply Shift_tokenOrLast with d.
Qed.

Lemma Shift_advance (d : nat) (p q : Parser) :
  Shift d p q ->
  Shift d (mkParser (tokens p) (source p) (S (pos p)))
          (mkParser (tokens q) (source q) (S (pos q))).
Proof.
  intros (Hs & Hp & Hd & Ht). repeat split; simpl; try assumption; lia.
Qed.

Lemma Resp_ret {A} d (a : A) : Resp d (ret a).
Proof. intros p q H. now constructor. Qed.

Lemma Resp_throw {A} d e : Resp d (@throw Parser A e).
Proof. intros p q H. constructor. Qed.

Lemma Resp_outOfFuel {A} d : Resp d (@outOfFuel Parser A).
Proof. intros p q H. constructor. Qed.

Lemma SameOutcome_bind {A B} d (m1 m2 : M Parser A) (k : A -> M Parser B) p q :
  SameOutcome d (m1 p) (m2 q) -> (forall a, Resp d (k a)) ->
  SameOutcome d (bind m1 k p) (bind m2 k q).
Proof.
  intros H Hk. unfold bind. destruct H; try constructor. now apply Hk.
Qed.

Lemma Resp_bind {A B} d (m : M Parser A) (k : A -> M Parser B) :
  Resp d m -> (forall a, Resp d (k a)) -> Resp d (bind m k).
Proof. intros Hm Hk p q H. apply SameOutcome_bind; auto. Qed.

Lemma Resp_defined {A} d (o : option A) : Resp d (defined o).
Proof. destruct o; [apply Resp_ret | apply Resp_throw]. Qed.

Lemma Resp_currentToken d : Resp d currentToken.
Proof.
  intros p q H. unfold currentToken. rewrite (Shift_current d p q H).
  now apply Resp_defined.
Qed.

Lemma Resp_peekToken d : Resp d peekToken.
Proof.
  intros p q H. unfold peekToken, peek. rewrite (Shift_tokenOrLast d p q 1 H).
  now apply Resp_defined.
Qed.

Lemma Resp_advance d : Resp d advance.
Proof.
  intros p q H. unfold advance.
  pose proof (Shift_nth d p q 0 H) as E. rewrite !Nat.add_0_r in E.
  rewrite E. constructor. now apply Shift_advance.
Qed.

Lemma Resp_source d : Resp d (fun p => Ok (source p) p).
Proof. intros p q H. destruct H as (Hs & H'). rewrite Hs. constructor. now split. Qed.

Ltac resp_step :=
  first
    [ apply Resp_ret | apply Resp_throw | apply Resp_outOfFuel
    | apply Resp_currentToken | apply Resp_peekToken | apply Resp_advance
    | apply Resp_source | apply Resp_defined
    | assumption
    | apply Resp_bind; [|intros ?]
    | match goal with
      | |- Resp _ (if ?b then _ else _) => destruct b
      | |- Resp _ (match ?x with _ => _ end) => destruct x
      end ].

Lemma Resp_advanceLoc d : Resp d advanceLoc.
Proof. unfold advanceLoc. repeat resp_step. Qed.

Lemma Resp_advanceValue d : Resp d advanceValue.
Proof. unfold advanceValue. repeat resp_step. Qed.

Lemma Resp_expect d ty : Resp d (expect ty).
Proof. unfold expect. repeat resp_step. Qed.

Lemma Resp_expectLoc d ty : Resp d (expectLoc ty).
Proof. unfold expectLoc. repeat resp_step. Qed.

Lemma Resp_expectValue d ty : Resp d (expectValue ty).
Proof. unfold expectValue. repeat resp_step. Qed.

Lemma Resp_matchAny d types : Resp d (matchAny types).
Proof. unfold matchAny. repeat resp_step. Qed.

Lemma Resp_skipIf d ty : Resp d (skipIf ty).
Proof. unfold skipIf. repeat resp_step. Qed.

Ltac resp := repeat first [ solve [auto 2] | resp_step ].

Lemma Resp_binaryLoop d ops next :
  Resp d next -> forall fuel left, Resp d (binaryLoop fuel ops next left).
Proof. intros Hn. induction fuel as [|fuel IH]; intros left; simpl; resp. Qed.

Lemma Resp_pipeLoop d next :
  Resp d next -> forall fuel left, Resp d (pipeLoop fuel next left).
Proof. intros Hn. induction fuel as [|fuel IH]; intros left; simpl; resp. Qed.

Lemma Resp_paramsDoWhile d :
  forall fuel params, Resp d (paramsDoWhile fuel params).
Proof. induction fuel as [|fuel IH]; intros params; simpl; resp. Qed.

Lemma Resp_expressionsDoWhile d next :
  Resp d next -> forall fuel items, Resp d (expressionsDoWhile fuel next items).
Proof. intros Hn. induction fuel as [|fuel IH]; intros items; simpl; resp. Qed.

Lemma Resp_callLoop d next :
  Resp d next -> forall fuel expr, Resp d (callLoop fuel next expr).
Proof.
  intros Hn. induction fuel as [|fuel IH]; intros expr; simpl; resp.
  now apply Resp_expressionsDoWhile.
Qed.

Lemma Resp_blockLoop d next :
  Resp d next -> forall fuel statements, Resp d (blockLoop fuel next statements).
Proof. intros Hn. induction fuel as [|fuel IH]; intros sts; simpl; resp. Qed.

#[local] Hint Resolve Resp_binaryLoop Resp_pipeLoop Resp_paramsDoWhile
  Resp_expressionsDoWhile Resp_callLoop Resp_blockLoop : core.

Lemma parser_Resp d fuel : AllResp d fuel.
Proof.
  induction fuel as [|fuel IH].
  - repeat split; apply Resp_outOfFuel.
  - destruct IH as (? & ? & ? & ? & ? & ? & ? & ? & ? & ? & ? & ? & ? & ? & ?
                    & ? & ? & ? & ? & ? & ? & ? & ?).
    repeat split; simpl; resp.
Qed.

Lemma Resp_parseExpression d fuel : Resp d (parseExpression fuel).
Proof. apply (parser_Resp d fuel). Qed.

(** *** A comma right after the opening delimiter of a list *)

Lemma TokenType_eqb_refl (t : TokenType) : TokenType_eqb t t = true.
Proof. destruct t; simpl; try reflexivity. apply String.eqb_refl. Qed.

Lemma TokenType_eqb_eq (a b : TokenType) : TokenType_eqb a b = true -> a = b.
Proof.
  destruct a, b; simpl; intros H; try discriminate; try reflexivity.
  apply String.eqb_eq in H. now subst.
Qed.

Lemma TokenType_eqb_neq (a b : TokenType) : a <> b -> TokenType_eqb a b = false.
Proof.
  intros H. destruct (TokenType_eqb a b) eqn:E; [|reflexivity].
  now apply TokenType_eqb_eq in E.
Qed.

Lemma current_at (p : Parser) (pre : list Token) (t : Token) (rest : list Token) :
  tokens p = (pre ++ t :: rest)%list -> pos p = List.length pre ->
  current p = Some t /\ nth_error (tokens p) (pos p) = Some t.
Proof.
  intros Ht Hp. unfold current, tokenOrLast. rewrite Ht, Hp.
  rewrite nth_error_app2, Nat.sub_diag by lia. now split.
Qed.

Lemma advance_at (p : Parser) : advance p = Ok (nth_error (tokens p) (pos p)) (next p).
Proof. reflexivity. Qed.

Lemma expect_at (p : Parser) (t : Token) (ty : TokenType) :
  current p = Some t -> nth_error (tokens p) (pos p) = Some t -> type t = ty ->
  expect ty p = Ok (Some t) (next p).
Proof.
  intros C N T. unfold expect, bind, currentToken. rewrite C. simpl.
  rewrite T, TokenType_eqb_refl. simpl. unfold advance. now rewrite N.
Qed.

Lemma matchAny_at (p : Parser) (t : Token) (types : list TokenType) :
  current p = Some t ->
  matchAny types p = Ok (existsb (TokenType_eqb (type t)) types) p.
Proof. intros C. unfold matchAny, bind, currentToken. now rewrite C. Qed.

Lemma skipIf_at (p : Parser) (t : Token) (ty : TokenType) :
  current p = Some t ->
  skipIf ty p = if TokenType_eqb (type t) ty then Ok tt (next p) else Ok tt p.
Proof.
  intros C. unfold skipIf. rewrite (bind_run _ _ _ _ _ (matchAny_at p t [ty] C)).
  simpl. rewrite orb_false_r. destruct (TokenType_eqb (type t) ty); reflexivity.
Qed.

Lemma AtComma_intro (src : string) (pre : list Token) (c t : Token)
    (rest : list Token) :
  type c = COMMA -> type t <> COMMA ->
  AtComma (List.length pre)
    (mkParser (pre ++ c :: t :: rest) src (List.length pre))
    (mkParser (pre ++ t :: rest) src (List.length pre)).
Proof. intros Hc Ht. repeat split. exists pre, c, t, rest. auto. Qed.

Lemma AtComma_Shift d p q : AtComma d p q -> Shift d (next p) q.
Proof.
  intros (Hs & Hp & Hq & pre & c & t & rest & Tp & Tq & Hl & _).
  repeat split; simpl; try assumption; try lia.
  exists pre, c, (t :: rest). repeat split; auto. discriminate.
Qed.

Lemma AtComma_skipIf d p q :
  AtComma d p q ->
  skipIf COMMA p = Ok tt (next p) /\ skipIf COMMA q = Ok tt q.
Proof.
  intros (Hs & Hp & Hq & pre & c & t & rest & Tp & Tq & Hl & Hc & Ht).
  destruct (current_at p pre c (t :: rest) Tp) as [Cp _]; [lia|].
  destruct (current_at q pre t rest Tq) as [Cq _]; [lia|].
  rewrite (skipIf_at p c COMMA Cp), (skipIf_at q t COMMA Cq).
  rewrite Hc, (TokenType_eqb_neq _ _ Ht). now split.
Qed.

Lemma AtComma_matchAny d p q (closeTy : TokenType) :
  AtComma d p q -> closeTy <> COMMA ->
  (forall t, current q = Some t -> type t <> closeTy) ->
  matchAny [closeTy] p = Ok false p /\ matchAny [closeTy] q = Ok false q.
Proof.
  intros (Hs & Hp & Hq & pre & c & t & rest & Tp & Tq & Hl & Hc & Ht) Hne Hcl.
  destruct (current_at p pre c (t :: rest) Tp) as [Cp _]; [lia|].
  destruct (current_at q pre t rest Tq) as [Cq _]; [lia|].
  rewrite (matchAny_at p c _ Cp), (matchAny_at q t _ Cq). simpl.
  rewrite Hc, !orb_false_r.
  rewrite (TokenType_eqb_neq COMMA closeTy) by congruence.
  rewrite (TokenType_eqb_neq _ _ (Hcl t Cq)). now split.
Qed.

(** The two [do ... while] loops skip the comma and go on alike. *)
Lemma paramsDoWhile_comma d p q fuel params :
  AtComma d p q ->
  SameOutcome d (paramsDoWhile fuel params p) (paramsDoWhile fuel params q).
Proof.
  intros H. destruct fuel as [|fuel]; [constructor|]. simpl.
  assert (R : Resp d (name <- expectValue IDENTIFIER ;;
                      again <- matchAny [COMMA] ;;
                      (if again then paramsDoWhile fuel (params ++ [name])%list
                       else ret (params ++ [name])%list))) by resp.
  destruct (AtComma_skipIf d p q H) as [Sp Sq].
  rewrite (bind_run _ _ _ _ _ Sp), (bind_run _ _ _ _ _ Sq).
  apply R. now apply AtComma_Shift.
Qed.

Lemma expressionsDoWhile_comma d p q fuel parseExpression items :
  Resp d parseExpression -> AtComma d p q ->
  SameOutcome d (expressionsDoWhile fuel parseExpression items p)
                (expressionsDoWhile fuel parseExpression items q).
Proof.
  intros Hpe H. destruct fuel as [|fuel]; [constructor|]. simpl.
  assert (R : Resp d (item <- parseExpression ;;
                      again <- matchAny [COMMA] ;;
                      (if again
                       then expressionsDoWhile fuel parseExpression
                              (items ++ [item])%list
                       else ret (items ++ [item])%list))) by resp.
  destruct (AtComma_skipIf d p q H) as [Sp Sq].
  rewrite (bind_run _ _ _ _ _ Sp), (bind_run _ _ _ _ _ Sq).
  apply R. now apply AtComma_Shift.
Qed.

(** The test for the closing delimiter, the loop, and what follows. *)
Lemma list_comma {A B} d p q (closeTy : TokenType) (loop : M Parser A)
    (none : A) (k : A -> M Parser B) :
  AtComma d p q -> closeTy <> COMMA ->
  (forall t, current q = Some t -> type t <> closeTy) ->
  SameOutcome d (loop p) (loop q) -> (forall a, Resp d (k a)) ->
  SameOutcome d
    ((close <- matchAny [closeTy] ;;
      xs <- (if negb close then loop else ret none) ;; k xs) p)
    ((close <- matchAny [closeTy] ;;
      xs <- (if negb close then loop else ret none) ;; k xs) q).
Proof.
  intros H Hne Hcl Hloop Hk.
  destruct (AtComma_matchAny d p q closeTy H Hne Hcl) as [Mp Mq].
  rewrite (bind_run _ _ _ _ _ Mp), (bind_run _ _ _ _ _ Mq). simpl.
  now apply SameOutcome_bind.
Qed.

Lemma SameOutcome_result {A} d (o1 o2 : Outcome Parser A) :
  SameOutcome d o1 o2 -> result o1 = result o2.
Proof. intros []; reflexivity. Qed.

Lemma next_ahead pre src a toks :
  next (ahead pre src (a :: toks)) = ahead (pre ++ [a]) src toks.
Proof.
  unfold next, ahead. simpl. rewrite <- app_assoc, length_app. simpl.
  now rewrite Nat.add_1_r.
Qed.

Lemma current_ahead pre src a toks :
  current (ahead pre src (a :: toks)) = Some a /\
  nth_error (tokens (ahead pre src (a :: toks))) (pos (ahead pre src (a :: toks)))
  = Some a.
Proof. now apply (current_at _ pre a toks). Qed.

Lemma advance_ahead pre src a toks :
  advance (ahead pre src (a :: toks)) = Ok (Some a) (ahead (pre ++ [a]) src toks).
Proof.
  rewrite advance_at, next_ahead.
  now rewrite (proj2 (current_ahead pre src a toks)).
Qed.

Lemma advanceLoc_ahead pre src a toks :
  advanceLoc (ahead pre src (a :: toks)) = Ok (loc a) (ahead (pre ++ [a]) src toks).
Proof.
  unfold advanceLoc. now rewrite (bind_run _ _ _ _ _ (advance_ahead pre src a toks)).
Qed.

Lemma expect_ahead pre src a toks ty :
  type a = ty ->
  expect ty (ahead pre src (a :: toks)) = Ok (Some a) (ahead (pre ++ [a]) src toks).
Proof.
  intros T. destruct (current_ahead pre src a toks) as [C N].
  now rewrite (expect_at _ a ty C N T), next_ahead.
Qed.

Lemma expectLoc_ahead pre src a toks ty :
  type a = ty ->
  expectLoc ty (ahead pre src (a :: toks)) = Ok (loc a) (ahead (pre ++ [a]) src toks).
Proof.
  intros T. unfold expectLoc.
  now rewrite (bind_run _ _ _ _ _ (expect_ahead pre src a toks ty T)).
Qed.

Lemma expectValue_ahead pre src a toks ty :
  type a = ty ->
  expectValue ty (ahead pre src (a :: toks))
  = Ok (value a) (ahead (pre ++ [a]) src toks).
Proof.
  intros T. unfold expectValue.
  now rewrite (bind_run _ _ _ _ _ (expect_ahead pre src a toks ty T)).
Qed.

Lemma matchAny_ahead pre src a toks types :
  matchAny types (ahead pre src (a :: toks))
  = Ok (existsb (TokenType_eqb (type a)) types) (ahead pre src (a :: toks)).
Proof. apply matchAny_at, current_ahead. Qed.

Lemma AtComma_ahead pre src c t rest :
  type c = COMMA -> type t <> COMMA ->
  AtComma (List.length pre) (ahead pre src (c :: t :: rest))
                            (ahead pre src (t :: rest)).
Proof. apply AtComma_intro. Qed.

Lemma not_close_ahead pre src t rest closeTy :
  type t <> closeTy ->
  forall t', current (ahead pre src (t :: rest)) = Some t' -> type t' <> closeTy.
Proof.
  intros H t' C. rewrite (proj1 (current_ahead pre src t rest)) in C.
  now injection C as <-.
Qed.

(** [parseArrayLiteral] on [ [ , t ... ] and on [ [ t ... ]. *)
Lemma parseArrayLiteral_comma fuel pre src open c t rest :
  type open = LBRACKET -> type c = COMMA ->
  type t <> COMMA -> type t <> RBRACKET ->
  result (parseArrayLiteral fuel (ahead pre src (open :: c :: t :: rest)))
  = result (parseArrayLiteral fuel (ahead pre src (open :: t :: rest))).
Proof.
  intros To Tc Tt Tclose. destruct fuel as [|fuel]; [reflexivity|]. simpl.
  rewrite !(bind_run _ _ _ _ _ (expectLoc_ahead pre src open _ LBRACKET To)).
  apply (SameOutcome_result (List.length (pre ++ [open]))).
  apply list_comma.
  - now apply AtComma_ahead.
  - discriminate.
  - now apply not_close_ahead.
  - apply expressionsDoWhile_comma; [apply Resp_parseExpression|].
    now apply AtComma_ahead.
  - intros xs. resp.
Qed.

(** [parseLambda] on [ | , t ... ] and on [ | t ... ]. *)
Lemma parseLambda_comma fuel pre src open c t rest :
  type open = PIPE -> type c = COMMA ->
  type t <> COMMA -> type t <> PIPE ->
  result (parseLambda fuel (ahead pre src (open :: c :: t :: rest)))
  = result (parseLambda fuel (ahead pre src (open :: t :: rest))).
Proof.
  intros To Tc Tt Tclose. destruct fuel as [|fuel]; [reflexivity|]. simpl.
  rewrite !(bind_run _ _ _ _ _ (expectLoc_ahead pre src open _ PIPE To)).
  apply (SameOutcome_result (List.length (pre ++ [open]))).
  apply list_comma.
  - now apply AtComma_ahead.
  - discriminate.
  - now apply not_close_ahead.
  - apply paramsDoWhile_comma. now apply AtComma_ahead.
  - intros xs. pose proof (parser_Resp (List.length (pre ++ [open])) fuel)
      as (? & ? & ? & ? & ? & ? & ? & ? & ? & ? & ? & ? & ? & ? & ?
          & ? & ? & ? & ? & ? & ? & ? & ?). resp.
Qed.

(** [parseFunctionDeclaration] on [fn f ( , t ...] and on [fn f ( t ...]. *)
Lemma parseFunctionDeclaration_comma fuel pre src fn name open c t rest :
  type name = IDENTIFIER -> type open = LPAREN -> type c = COMMA ->
  type t <> COMMA -> type t <> RPAREN ->
  result (parseFunctionDeclaration fuel
            (ahead pre src (fn :: name :: open :: c :: t :: rest)))
  = result (parseFunctionDeclaration fuel
              (ahead pre src (fn :: name :: open :: t :: rest))).
Proof.
  intros Tn To Tc Tt Tclose. destruct fuel as [|fuel]; [reflexivity|]. simpl.
  rewrite !(bind_run _ _ _ _ _ (advanceLoc_ahead pre src fn _)).
  rewrite !(bind_run _ _ _ _ _ (expectValue_ahead _ src name _ IDENTIFIER Tn)).
  rewrite !(bind_run _ _ _ _ _ (expect_ahead _ src open _ LPAREN To)).
  apply (SameOutcome_result (List.length (((pre ++ [fn]) ++ [name]) ++ [open]))).
  apply list_comma.
  - now apply AtComma_ahead.
  - discriminate.
  - now apply not_close_ahead.
  - apply paramsDoWhile_comma. now apply AtComma_ahead.
  - intros xs.
    pose proof (parser_Resp (List.length (((pre ++ [fn]) ++ [name]) ++ [open])) fuel)
      as (? & ? & ? & ? & ? & ? & ? & ? & ? & ? & ? & ? & ? & ? & ?
          & ? & ? & ? & ? & ? & ? & ? & ?). resp.
Qed.

(** The loop of [parseCall] on [ ( , t ... ] and on [ ( t ... ], whatever
    the callee parsed so far. *)
Lemma callLoop_comma fuel parseExpression expr pre src open c t rest :
  (forall d, Resp d parseExpression) ->
  type open = LPAREN -> type c = COMMA ->
  type t <> COMMA -> type t <> RPAREN ->
  result (callLoop fuel parseExpression expr
            (ahead pre src (open :: c :: t :: rest)))
  = result (callLoop fuel parseExpression expr
              (ahead pre src (open :: t :: rest))).
Proof.
  intros Hpe To Tc Tt Tclose. destruct fuel as [|fuel]; [reflexivity|]. simpl.
  rewrite !(bind_run _ _ _ _ _ (matchAny_ahead pre src open _ [LPAREN])).
  simpl. rewrite To. simpl.
  rewrite !(bind_run _ _ _ _ _ (advance_ahead pre src open _)).
  apply (SameOutcome_result (List.length (pre ++ [open]))).
  apply list_comma.
  - now apply AtComma_ahead.
  - discriminate.
  - now apply not_close_ahead.
  - apply expressionsDoWhile_comma; [apply Hpe|]. now apply AtComma_ahead.
  - intros xs. pose proof (Hpe (List.length (pre ++ [open]))). resp.
Qed.

(** [parseCall] on [f ( , t ...] and on [f ( t ...]. *)
Lemma parseCall_comma fuel pre src f open c t rest :
  type f = IDENTIFIER -> type open = LPAREN -> type c = COMMA ->
  type t <> COMMA -> type t <> RPAREN ->
  result (parseCall fuel (ahead pre src (f :: open :: c :: t :: rest)))
  = result (parseCall fuel (ahead pre src (f :: open :: t :: rest))).
Proof.
  intros Tf To Tc Tt Tclose. destruct fuel as [|fuel]; [reflexivity|]. simpl.
  assert (P : forall toks,
             parsePrimary fuel (ahead pre src (f :: toks))
             = match fuel with
               | 0 => OutOfFuel
               | S _ => Ok (Identifier (value f) (Some (loc f)))
                           (ahead (pre ++ [f]) src toks)
               end).
  { intros toks. destruct fuel as [|fuel']; [reflexivity|]. simpl.
    unfold bind at 1. unfold currentToken at 1.
    rewrite (proj1 (current_ahead pre src f toks)). simpl. rewrite Tf.
    now rewrite (bind_run _ _ _ _ _ (advance_ahead pre src f toks)). }
  unfold bind. rewrite !P. destruct fuel as [|fuel']; [reflexivity|].
  apply callLoop_comma; auto. intros d. apply Resp_parseExpression.
Qed.

(** *** An expression that is one identifier *)

Section Atom.
Variables (pre : list Token) (src : string) (a n : Token) (rest : list Token).
Hypothesis a_identifier : type a = IDENTIFIER.
Hypothesis n_stops : continuesExpression (type n) = false.

Let p' : Parser := ahead (pre ++ [a]) src (n :: rest).
Let atom : ASTNode := Identifier (value a) (Some (loc a)).

Lemma stops (ops : list TokenType) :
  forallb continuesExpression ops = true ->
  matchAny ops p' = Ok false p'.
Proof.
  intros H. unfold p'. rewrite matchAny_ahead. f_equal.
  induction ops as [|ty ops IH]; [reflexivity|]. simpl in *.
  apply andb_true_iff in H as [H1 H2]. rewrite (IH H2), orb_false_r.
  destruct (TokenType_eqb (type n) ty) eqn:E; [|reflexivity].
  apply TokenType_eqb_eq in E. rewrite E in n_stops. congruence.
Qed.

Lemma binaryLoop_stops fuel ops next left :
  forallb continuesExpression ops = true ->
  binaryLoop fuel ops next left p' = needs 1 fuel left p'.
Proof.
  intros H. destruct fuel as [|fuel]; [reflexivity|]. simpl.
  now rewrite (bind_run _ _ _ _ _ (stops ops H)).
Qed.

Lemma pipeLoop_stops fuel next left :
  pipeLoop fuel next left p' = needs 1 fuel left p'.
Proof.
  destruct fuel as [|fuel]; [reflexivity|]. simpl.
  now rewrite (bind_run _ _ _ _ _ (stops [PIPE] eq_refl)).
Qed.

Lemma callLoop_stops fuel next expr :
  callLoop fuel next expr p' = needs 1 fuel expr p'.
Proof.
  destruct fuel as [|fuel]; [reflexivity|]. simpl.
  now rewrite (bind_run _ _ _ _ _ (stops [LPAREN] eq_refl)).
Qed.

Lemma parsePrimary_atom fuel :
  parsePrimary fuel (ahead pre src (a :: n :: rest)) = needs 1 fuel atom p'.
Proof.
  destruct fuel as [|fuel]; [reflexivity|]. simpl.
  unfold bind at 1. unfold currentToken at 1.
  rewrite (proj1 (current_ahead pre src a _)). simpl. rewrite a_identifier.
  now rewrite (bind_run _ _ _ _ _ (advance_ahead pre src a _)).
Qed.

(** A method that calls the one below it and then a loop that stops. *)
Lemma above (k : nat) (upper lower : nat -> M Parser ASTNode)
    (loop : nat -> ASTNode -> M Parser ASTNode) :
  upper 0 = outOfFuel ->
  (forall fuel, upper (S fuel) = (left <- lower fuel ;; loop fuel left)) ->
  (forall fuel left, loop fuel left p' = needs 1 fuel left p') ->
  1 <= k ->
  (forall fuel, lower fuel (ahead pre src (a :: n :: rest)) = needs k fuel atom p') ->
  forall fuel, upper fuel (ahead pre src (a :: n :: rest)) = needs (S k) fuel atom p'.
Proof.
  intros U0 US L K Low fuel. destruct fuel as [|fuel]; [now rewrite U0|].
  rewrite US. unfold bind. rewrite Low. unfold needs. simpl.
  destruct (Nat.leb k fuel) eqn:E; [|reflexivity].
  rewrite L. unfold needs. apply Nat.leb_le in E.
  destruct fuel as [|fuel]; [lia|reflexivity].
Qed.

Lemma parseUnary_atom fuel :
  parseUnary fuel (ahead pre src (a :: n :: rest)) = needs 3 fuel atom p'.
Proof.
  assert (C : forall fuel,
             parseCall fuel (ahead pre src (a :: n :: rest)) = needs 2 fuel atom p').
  { apply (above 1 parseCall parsePrimary
             (fun fuel => callLoop fuel (parseExpression fuel)));
      auto using parsePrimary_atom, callLoop_stops. }
  destruct fuel as [|fuel]; [reflexivity|]. simpl.
  rewrite (bind_run _ _ _ _ _ (matchAny_ahead pre src a _ [NOT; MINUS])).
  simpl. rewrite a_identifier. simpl. apply C.
Qed.

Lemma parseExpression_atom fuel :
  parseExpression fuel (ahead pre src (a :: n :: rest)) = needs 11 fuel atom p'.
Proof.
  assert (T4 : forall fuel, parseMultiplicative fuel (ahead pre src (a :: n :: rest))
                            = needs 4 fuel atom p').
  { apply (above 3 parseMultiplicative parseUnary
             (fun fuel => binaryLoop fuel [STAR; SLASH; PERCENT] (parseUnary fuel)));
      auto using parseUnary_atom, binaryLoop_stops. }
  assert (T5 : forall fuel, parseAdditive fuel (ahead pre src (a :: n :: rest))
                            = needs 5 fuel atom p').
  { apply (above 4 parseAdditive parseMultiplicative
             (fun fuel => binaryLoop fuel [PLUS; MINUS] (parseMultiplicative fuel)));
      auto using binaryLoop_stops with arith. }
  assert (T6 : forall fuel, parseComparison fuel (ahead pre src (a :: n :: rest))
                            = needs 6 fuel atom p').
  { apply (above 5 parseComparison parseAdditive
             (fun fuel => binaryLoop fuel [LT; LTE; GT; GTE] (parseAdditive fuel)));
      auto using binaryLoop_stops with arith. }
  assert (T7 : forall fuel, parseEquality fuel (ahead pre src (a :: n :: rest))
                            = needs 7 fuel atom p').
  { apply (above 6 parseEquality parseComparison
             (fun fuel => binaryLoop fuel [EQEQ; NEQ] (parseComparison fuel)));
      auto using binaryLoop_stops with arith. }
  assert (T8 : forall fuel, parseLogicalAnd fuel (ahead pre src (a :: n :: rest))
                            = needs 8 fuel atom p').
  { apply (above 7 parseLogicalAnd parseEquality
             (fun fuel => binaryLoop fuel [AND] (parseEquality fuel)));
      auto using binaryLoop_stops with arith. }
  assert (T9 : forall fuel, parseLogicalOr fuel (ahead pre src (a :: n :: rest))
                            = needs 9 fuel atom p').
  { apply (above 8 parseLogicalOr parseLogicalAnd
             (fun fuel => binaryLoop fuel [OR] (parseLogicalAnd fuel)));
      auto using binaryLoop_stops with arith. }
  assert (T10 : forall fuel, parsePipe fuel (ahead pre src (a :: n :: rest))
                             = needs 10 fuel atom p').
  { apply (above 9 parsePipe parseLogicalOr
             (fun fuel => pipeLoop fuel (parseLogicalOr fuel)));
      auto using pipeLoop_stops with arith. }
  destruct fuel as [|fuel]; [reflexivity|]. simpl. apply T10.
Qed.

End Atom.

(** [parseIfExpression] on [if c then t ...] and on [if c t ...], for an
    identifier [c] and a [t] that does not make the condition go on. *)
Lemma parseIfExpression_then fuel pre src i c th t rest :
  type c = IDENTIFIER -> type th = THEN ->
  type t <> THEN -> continuesExpression (type t) = false ->
  result (parseIfExpression fuel (ahead pre src (i :: c :: th :: t :: rest)))
  = result (parseIfExpression fuel (ahead pre src (i :: c :: t :: rest))).
Proof.
  intros Tc Tth Tt Tstop. destruct fuel as [|fuel]; [reflexivity|]. simpl.
  rewrite !(bind_run _ _ _ _ _ (advanceLoc_ahead pre src i _)).
  assert (Sth : continuesExpression (type th) = false) by now rewrite Tth.
  rewrite (bind_eq _ _ _ _
             (parseExpression_atom (pre ++ [i]) src c th (t :: rest) Tc Sth fuel)).
  rewrite (bind_eq _ _ _ _
             (parseExpression_atom (pre ++ [i]) src c t rest Tc Tstop fuel)).
  unfold needs. destruct (Nat.leb 11 fuel); [|reflexivity].
  destruct (current_ahead ((pre ++ [i]) ++ [c]) src th (t :: rest)) as [C1 _].
  destruct (current_ahead ((pre ++ [i]) ++ [c]) src t rest) as [C2 _].
  rewrite (bind_eq _ _ _ _ (skipIf_at _ th THEN C1)).
  rewrite (bind_eq _ _ _ _ (skipIf_at _ t THEN C2)).
  rewrite Tth, (TokenType_eqb_neq _ _ Tt). simpl.
  apply (SameOutcome_result (List.length ((pre ++ [i]) ++ [c]))).
  pose proof (parser_Resp (List.length ((pre ++ [i]) ++ [c])) fuel)
    as (? & ? & ? & ? & ? & ? & ? & ? & ? & ? & ? & ? & ? & ? & ?
        & ? & ? & ? & ? & ? & ? & ? & ?).
  assert (R : Resp (List.length ((pre ++ [i]) ++ [c]))
                (isBlock <- matchAny [LBRACE] ;;
                 thenBranch <- (if isBlock then parseBlockExpression fuel
                                else parseExpression fuel) ;;
                 isElse <- matchAny [ELSE] ;;
                 (if isElse then
                    advance ;;
                    isBlock' <- matchAny [LBRACE] ;;
                    isIf <- (if isBlock' then ret true else matchAny [IF]) ;;
                    elseBranch <- (if isIf then parsePrimary fuel
                                   else parseExpression fuel) ;;
                    ret (IfExpression (Identifier (value c) (Some (loc c)))
                           thenBranch (Some elseBranch) (Some (loc i)))
                  else ret (IfExpression (Identifier (value c) (Some (loc c)))
                              thenBranch None (Some (loc i)))))) by resp.
  apply R. repeat split; simpl; try lia.
  exists ((pre ++ [i]) ++ [c])%list, th, (t :: rest).
  repeat split; auto. discriminate.
Qed.

End ParserFacts.

(** ** Strings *)

Lemma append_nil_r (s : string) : s ++ EmptyString = s.
Proof. induction s as [|c s IH]; simpl; [reflexivity|]. now rewrite IH. Qed.

Lemma append_assoc (a b c : string) : (a ++ b) ++ c = a ++ b ++ c.
Proof. induction a as [|x a IH]; simpl; [reflexivity|]. now rewrite IH. Qed.

Lemma join_empty_cons (x : string) (l : list string) :
  join EmptyString (x :: l) = x ++ join EmptyString l.
Proof.
  unfold join. destruct l as [|y l]; simpl; [now rewrite append_nil_r|reflexivity].
Qed.

Lemma join_empty_app (a b : list string) :
  join EmptyString (a ++ b)%list = join EmptyString a ++ join EmptyString b.
Proof.
  induction a as [|x a IH]; [reflexivity|].
  change ((x :: a) ++ b)%list with (x :: (a ++ b))%list.
  now rewrite !join_empty_cons, IH, append_assoc.
Qed.

(** What [generatePipeExpression] does with any other right side. *)
Lemma invalid_pipe_target (left_ right_ : ASTNode) (l : option SourceLocation)
    (g g1 : CodeGenerator.CodeGenerator) (s : string) :
  CodeGenerator.generateExpression left_ g = Ok s g1 ->
  isPipeTarget right_ = false ->
  CodeGenerator.generateExpression (PipeExpression left_ right_ l) g
  = Throw (CodeGenerator.invalidPipeTarget right_).
Proof.
  intros H T. simpl. rewrite (bind_run _ _ _ _ _ H).
  destruct right_; try reflexivity; discriminate T.
Qed.

(** ** The statements of the specification *)

(** C1, as stated (the parser never puts anything but an Identifier or a
    CallExpression on the right of a pipe), fails: [1 |> 2] parses to a
    PipeExpression whose right side is a Literal, and [5 |> |x| x * 2] to one
    whose right side is a Lambda. *)
Lemma C1_counterexample :
  parseSource 100 "1 |> 2"
  = Ok (Program
          [ExpressionStatement
             (PipeExpression (num "1" 1 1) (num "2" 1 6) (at_ 1 3)) (at_ 1 3)])
       tt
  /\ isPipeTarget (num "2" 1 6) = false
  /\ parseSource 100 "5 |> |x| x * 2"
     = Ok (Program
             [ExpressionStatement
                (PipeExpression (num "5" 1 1)
                   (Lambda ["x"]
                      (BinaryExpression "*" (ident "x" 1 10) (num "2" 1 14)
                         (at_ 1 10))
                      (at_ 1 6))
                   (at_ 1 3))
                (at_ 1 3)])
          tt
  /\ ~ (forall fuel src ast,
          parseSource fuel src = Ok ast tt -> pipeTargetsOk ast = true).
Proof.
  assert (E : parseSource 100 "1 |> 2"
              = Ok (Program
                      [ExpressionStatement
                         (PipeExpression (num "1" 1 1) (num "2" 1 6) (at_ 1 3))
                         (at_ 1 3)]) tt) by (vm_compute; reflexivity).
  split; [exact E|]. split; [reflexivity|]. split; [vm_compute; reflexivity|].
  intros H. apply H in E. discriminate E.
Qed.

(** C1, amended: the restriction of the right side of a pipe to an
    Identifier or a CallExpression is the code generator's, not the parser's.
    Whenever [generate] returns, on any instance and for any tree, every
    PipeExpression of the tree has an Identifier or a CallExpression on its
    right; and a pipe with any other right side, once its left operand is
    generated, throws [Invalid pipe target] with the type of that right
    side, as compiling [1 |> 2] does. *)
Theorem C1_pipe_target_checked_by_generator
    (ast : ASTNode) (g g' : CodeGenerator.CodeGenerator) (out : string)
    (left_ right_ : ASTNode) (l : option SourceLocation)
    (h h1 : CodeGenerator.CodeGenerator) (s : string) :
  CodeGenerator.generate ast g = Ok out g' ->
  CodeGenerator.generateExpression left_ h = Ok s h1 ->
  isPipeTarget right_ = false ->
  pipeTargetsOk ast = true
  /\ CodeGenerator.generateExpression (PipeExpression left_ right_ l) h
     = Throw (JsError ("Invalid pipe target: " ++ nodeType right_))
  /\ compile 100 "1 |> 2" = Throw (JsError "Invalid pipe target: Literal").
Proof.
  intros H L T. split; [|split].
  - unfold CodeGenerator.generate in H.
    apply bind_Ok in H as (u1 & g1 & _ & H).
    apply bind_Ok in H as (u2 & g2 & H & _).
    destruct ast; try discriminate H. simpl.
    revert H. apply PipeFacts.forEachNode_all.
    intros n _. apply PipeFacts.generate_checks_pipes.
  - now apply invalid_pipe_target with (s := s) (g1 := h1).
  - vm_compute. reflexivity.
Qed.

Lemma C1_pipe_target_checked_by_generator_witness :
  pipeTargetsOk
    (Program
       [ExpressionStatement
          (PipeExpression (num "5" 1 1)
             (CallExpression (ident "add" 1 6) [num "3" 1 10] (at_ 1 6))
             (at_ 1 3))
          (at_ 1 3)]) = true
  /\ CodeGenerator.generateExpression
       (PipeExpression (num "5" 1 1)
          (Lambda ["x"] (ident "x" 1 10) (at_ 1 6)) (at_ 1 3))
       CodeGenerator.new
     = Throw (JsError "Invalid pipe target: Lambda").
Proof.
  refine ((fun H => conj (proj1 H) (proj1 (proj2 H)))
            (C1_pipe_target_checked_by_generator
               (Program
                  [ExpressionStatement
                     (PipeExpression (num "5" 1 1)
                        (CallExpression (ident "add" 1 6) [num "3" 1 10]
                           (at_ 1 6))
                        (at_ 1 3))
                     (at_ 1 3)])
               CodeGenerator.new _ _
               (num "5" 1 1) (Lambda ["x"] (ident "x" 1 10) (at_ 1 6))
               (at_ 1 3) CodeGenerator.new _ _ _ _ _));
    reflexivity.
Defined.

(** C2: a pipe into an identifier is the call of that identifier on the
    generated left operand alone; a pipe into a call is that call with the
    generated left operand put before the call's own arguments, in their
    order.  The callee of the call is written as [generateCallExpression]
    writes it ([head] below).  The two examples of the specification, and
    [x |> f(y, z)], compile to the calls it names. *)
Theorem C2_pipe_desugaring
    (left_ callee : ASTNode) (args : list ASTNode) (name : string)
    (l1 l2 l3 l4 : option SourceLocation)
    (g g1 g2 g3 : CodeGenerator.CodeGenerator)
    (s c : string) (ss : list string) :
  CodeGenerator.generateExpression left_ g = Ok s g1 ->
  CodeGenerator.generateExpressions args g = Ok ss g2 ->
  CodeGenerator.generateExpression callee g = Ok c g3 ->
  let head := match callee with
              | Identifier f _ => CodeGenerator.qualify f
              | _ => c
              end in
  CodeGenerator.generateExpression (PipeExpression left_ (Identifier name l1) l2) g
  = Ok (CodeGenerator.qualify name ++ "(" ++ s ++ ")") g
  /\ CodeGenerator.generateExpression (CallExpression callee args l3) g
     = Ok (head ++ "(" ++ join ", " ss ++ ")") g
  /\ CodeGenerator.generateExpression
       (PipeExpression left_ (CallExpression callee args l3) l4) g
     = Ok (head ++ "(" ++ join ", " (s :: ss) ++ ")") g
  /\ compile 100 "5 |> add(3)" = generated ("add(5, 3);" ++ LFs)
  /\ compile 100 "5 |> double" = generated ("double(5);" ++ LFs)
  /\ compile 100 "x |> f(y, z)" = generated ("f(x, y, z);" ++ LFs).
Proof.
  intros Hl Ha Hc head.
  pose proof (proj1 (GenFacts.generateExpression_Pure _ _ _ _ Hl)); subst g1.
  pose proof (proj1 (GenFacts.generateExpressions_Pure _ _ _ _ Ha)); subst g2.
  pose proof (proj1 (GenFacts.generateExpression_Pure _ _ _ _ Hc)); subst g3.
  unfold CodeGenerator.generateExpressions in Ha.
  split; [|split; [|split; [|repeat split; vm_compute; reflexivity]]].
  - simpl. now rewrite (bind_run _ _ _ _ _ Hl).
  - simpl. rewrite (bind_run _ _ _ _ _ Hc), (bind_run _ _ _ _ _ Ha).
    subst head. destruct callee; try reflexivity.
    simpl in Hc. injection Hc as <-. unfold CodeGenerator.qualify.
    destruct (inList name0 BUILTINS); reflexivity.
  - simpl. rewrite (bind_run _ _ _ _ _ Hl), (bind_run _ _ _ _ _ Ha).
    subst head. destruct callee; try (now rewrite (bind_run _ _ _ _ _ Hc)).
    reflexivity.
Qed.

Lemma C2_pipe_desugaring_witness :
  CodeGenerator.generateExpression
    (PipeExpression (num "5" 1 1)
       (CallExpression (ident "add" 1 6) [num "3" 1 10] (at_ 1 6)) (at_ 1 3))
    CodeGenerator.new
  = Ok "add(5, 3)" CodeGenerator.new.
Proof.
  exact (proj1 (proj2 (proj2
           (C2_pipe_desugaring (num "5" 1 1) (ident "add" 1 6) [num "3" 1 10]
              "double" None None (at_ 1 6) (at_ 1 3)
              CodeGenerator.new CodeGenerator.new CodeGenerator.new
              CodeGenerator.new "5" "add" ["3"] eq_refl eq_refl eq_refl)))).
Defined.

(** C3, as stated (a second invocation on the same instance returns what the
    first returned), fails for each stage: nothing resets the buffer of a
    [CodeGenerator] or the cursor of a [Lexer].  A second [generate] of the
    empty Program on the same instance returns the preamble twice; a second
    [tokenize] of [42] returns the end-of-input token alone. *)
Lemma C3_counterexample :
  let g1 := CodeGenerator.mkCodeGenerator 0 [CodeGenerator.preamble] in
  let g2 := CodeGenerator.mkCodeGenerator 0
              [CodeGenerator.preamble; CodeGenerator.preamble] in
  let lx := Lexer.mkLexer "42" 2 1 3 in
  CodeGenerator.generate (Program []) CodeGenerator.new
  = Ok CodeGenerator.preamble g1
  /\ CodeGenerator.generate (Program []) g1
     = Ok (CodeGenerator.preamble ++ CodeGenerator.preamble) g2
  /\ CodeGenerator.preamble <> CodeGenerator.preamble ++ CodeGenerator.preamble
  /\ Lexer.tokenize 10 (Lexer.new "42")
     = Ok [mkToken NUMBER "42" (mkLoc 1 1); mkToken EOF EmptyString (mkLoc 1 3)] lx
  /\ Lexer.tokenize 10 lx = Ok [mkToken EOF EmptyString (mkLoc 1 3)] lx
  /\ ~ (forall ast g out g',
          CodeGenerator.generate ast g = Ok out g' ->
          exists g'', CodeGenerator.generate ast g' = Ok out g'').
Proof.
  repeat split; try (vm_compute; reflexivity).
  - vm_compute. discriminate.
  - intros H.
    destruct (H (Program []) CodeGenerator.new CodeGenerator.preamble
                (CodeGenerator.mkCodeGenerator 0 [CodeGenerator.preamble])
                eq_refl) as (g'' & E).
    vm_compute in E. discriminate E.
Qed.

(** C3, amended: no stage resets its instance, and a second invocation goes
    on from what the first one left.  After a [generate] that returned on a
    new instance, a second [generate] of the same Program returns the first
    text twice over; after a [tokenize] that returned, a second one returns
    the end-of-input token alone; after a [parse] that returned, a second one
    returns the empty Program. *)
Theorem C3_instances_are_not_reset :
  (forall ast out g1,
      CodeGenerator.generate ast CodeGenerator.new = Ok out g1 ->
      exists g2, CodeGenerator.generate ast g1 = Ok (out ++ out) g2)
  /\ (forall fuel lx toks lx',
        Lexer.tokenize fuel lx = Ok toks lx' ->
        forall fuel',
          Lexer.tokenize (S fuel') lx'
          = Ok [mkToken EOF EmptyString (Lexer.here lx')] lx')
  /\ (forall fuel p ast p',
        Parser.parse fuel p = Ok ast p' ->
        forall fuel', Parser.parse (S fuel') p' = Ok (Program []) p').
Proof.
  split; [|split].
  - intros ast out g1 H. unfold CodeGenerator.generate in *.
    set (m := (CodeGenerator.emit CodeGenerator.preamble ;;
               match ast with
               | Program body => CodeGenerator.generateStatements body
               | _ => throw TypeError
               end)).
    assert (Hm : GenNotions.Appending m).
    { apply GenFacts.Appending_bind; [apply GenFacts.Appending_emit|].
      intros _. destruct ast;
        try apply GenFacts.Pure_Appending, GenFacts.Pure_throw.
      apply GenFacts.generateStatements_Appending. }
    assert (E : forall g,
               (CodeGenerator.emit CodeGenerator.preamble ;;
                match ast with
                | Program body => CodeGenerator.generateStatements body
                | _ => throw TypeError
                end ;;
                out <- CodeGenerator.getOutput ;; ret (join EmptyString out)) g
               = (m ;; out <- CodeGenerator.getOutput ;;
                  ret (join EmptyString out)) g).
    { intros g. unfold m, bind. destruct (CodeGenerator.emit _ g); reflexivity. }
    rewrite E in H. rewrite E.
    apply bind_Ok in H as (u & g' & Hr & H).
    destruct (Hm _ _ _ Hr) as (delta & -> & Hout).
    injection H as <- <-. simpl.
    specialize (Hout delta). unfold GenNotions.withOutput in *. simpl in Hout.
    rewrite (bind_run _ _ _ _ _ Hout). eexists.
    unfold bind, CodeGenerator.getOutput, ret. simpl.
    now rewrite join_empty_app.
  - intros fuel lx toks lx' H fuel'. unfold Lexer.tokenize in H.
    apply bind_Ok in H as (t & l1 & H1 & H). injection H as <- <-.
    apply LexerFacts.tokenize_at_end. eapply LexerFacts.tokenizeLoop_ends, H1.
  - intros fuel p ast p' H fuel'. unfold Parser.parse in H.
    apply bind_Ok in H as (b & p1 & H1 & H). injection H as <- <-.
    destruct (ParserFacts.programLoop_ends _ _ _ _ _ _ H1) as (t & C & T).
    now apply (ParserFacts.parse_at_end fuel' _ t).
Qed.

Lemma C3_instances_are_not_reset_witness :
  (exists g2,
      CodeGenerator.generate (Program []) (CodeGenerator.mkCodeGenerator 0 [CodeGenerator.preamble])
      = Ok (CodeGenerator.preamble ++ CodeGenerator.preamble) g2)
  /\ Lexer.tokenize 1 (Lexer.mkLexer "42" 2 1 3)
     = Ok [mkToken EOF EmptyString (mkLoc 1 3)] (Lexer.mkLexer "42" 2 1 3)
  /\ Parser.parse 1 (Parser.mkParser [mkToken EOF EmptyString (mkLoc 1 1)] EmptyString 0)
     = Ok (Program []) (Parser.mkParser [mkToken EOF EmptyString (mkLoc 1 1)] EmptyString 0).
Proof.
  split; [|split].
  - exact (proj1 C3_instances_are_not_reset (Program []) CodeGenerator.preamble
             (CodeGenerator.mkCodeGenerator 0 [CodeGenerator.preamble]) eq_refl).
  - exact (proj1 (proj2 C3_instances_are_not_reset) 10 (Lexer.new "42")
             [mkToken NUMBER "42" (mkLoc 1 1); mkToken EOF EmptyString (mkLoc 1 3)]
             (Lexer.mkLexer "42" 2 1 3) eq_refl 0).
  - exact (proj2 (proj2 C3_instances_are_not_reset) 5
             (Parser.new [mkToken EOF EmptyString (mkLoc 1 1)] EmptyString)
             (Program [])
             (Parser.mkParser [mkToken EOF EmptyString (mkLoc 1 1)] EmptyString 0)
             eq_refl 0).
Defined.




(** C5, as stated (the token of a bare [|] differs in kind from the token of
    [|>]), fails: both are PIPE tokens. *)
Lemma C5_counterexample :
  Lexer.tokenize 10 (Lexer.new "|")
  = Ok [mkToken PIPE "|" (mkLoc 1 1); mkToken EOF EmptyString (mkLoc 1 2)]
       (Lexer.mkLexer "|" 1 1 2)
  /\ Lexer.tokenize 10 (Lexer.new "|>")
     = Ok [mkToken PIPE "|>" (mkLoc 1 1); mkToken EOF EmptyString (mkLoc 1 3)]
          (Lexer.mkLexer "|>" 2 1 3)
  /\ type (mkToken PIPE "|" (mkLoc 1 1)) = type (mkToken PIPE "|>" (mkLoc 1 1)).
Proof. repeat split; vm_compute; reflexivity. Qed.

(** C5, amended: on a [|] the main loop of the lexer pushes one token,
    wherever it is in whatever text: an OR token [||] when a [|] follows, a
    PIPE token [|>] when a [>] follows, and otherwise a PIPE token [|] of one
    character.  The bare [|] has the kind of [|>] and not the kind of [||];
    it differs from [|>] by its text. *)
Theorem C5_bar_tokens (fuel : nat) (lx : Lexer.Lexer) :
  Lexer.current lx = "|"%char ->
  (Lexer.peek 1 lx = "|"%char ->
   Lexer.tokenizeTurn (S fuel) lx
   = Ok (Lexer.Push (mkToken OR "||" (Lexer.here lx))) (further 2 lx))
  /\ (Lexer.peek 1 lx = ">"%char ->
      Lexer.tokenizeTurn (S fuel) lx
      = Ok (Lexer.Push (mkToken PIPE "|>" (Lexer.here lx))) (further 2 lx))
  /\ (Lexer.peek 1 lx <> "|"%char -> Lexer.peek 1 lx <> ">"%char ->
      Lexer.tokenizeTurn (S fuel) lx
      = Ok (Lexer.Push (mkToken PIPE "|" (Lexer.here lx))) (further 1 lx))
  /\ PIPE <> OR.
Proof.
  intros C.
  assert (P : forall lx', Lexer.source lx' = Lexer.source lx ->
                Lexer.pos lx' = S (Lexer.pos lx) ->
                Lexer.current lx' = Lexer.peek 1 lx).
  { intros lx' S P. unfold Lexer.current, Lexer.peek.
    now rewrite S, P, Nat.add_1_r. }
  assert (T : Lexer.tokenizeTurn (S fuel) lx
             = match Lexer.twoCharToken "|" (Lexer.peek 1 lx) with
               | Some (ty, text) =>
                   (Lexer.advance ;; Lexer.advance ;;
                    ret (Lexer.Push (mkToken ty text (Lexer.here lx)))) lx
               | None =>
                   (char <- Lexer.advance ;;
                    match Lexer.singleCharToken char with
                    | Some ty =>
                        ret (Lexer.Push (mkToken ty (str char) (Lexer.here lx)))
                    | None =>
                        throw (Lexer.unexpectedCharacter char (Lexer.here lx))
                    end) lx
               end).
  { unfold Lexer.tokenizeTurn. simpl.
    unfold bind at 1. unfold bind at 1. unfold Lexer.getCurrent at 1.
    rewrite C. simpl.
    unfold bind at 1. unfold Lexer.skipComment.
    unfold bind at 1. unfold Lexer.getCurrent at 1. rewrite C.
    unfold bind at 1. unfold Lexer.getPeek at 1. simpl.
    unfold bind at 1. unfold Lexer.getCurrent at 1. rewrite C. simpl.
    unfold bind at 1. unfold Lexer.getHere at 1.
    unfold bind at 1. unfold Lexer.getPeek at 1.
    destruct (Lexer.twoCharToken "|" (Lexer.peek 1 lx)) as [[ty text]|];
      reflexivity. }
  rewrite T. clear T.
  split; [|split; [|split]].
  - intros E. rewrite E. simpl.
    unfold bind, Lexer.advance. rewrite C. simpl.
    rewrite (P (Lexer.mkLexer (Lexer.source lx) (S (Lexer.pos lx)) (Lexer.line lx)
                  (S (Lexer.column lx))) eq_refl eq_refl), E.
    reflexivity.
  - intros E. rewrite E. simpl.
    unfold bind, Lexer.advance. rewrite C. simpl.
    rewrite (P (Lexer.mkLexer (Lexer.source lx) (S (Lexer.pos lx)) (Lexer.line lx)
                  (S (Lexer.column lx))) eq_refl eq_refl), E.
    reflexivity.
  - intros N1 N2.
    assert (E : Lexer.twoCharToken "|" (Lexer.peek 1 lx) = None).
    { unfold Lexer.twoCharToken. simpl.
      apply Ascii.eqb_neq in N1, N2. now rewrite N1, N2. }
    rewrite E. unfold bind, Lexer.advance. rewrite C. reflexivity.
  - discriminate.
Qed.

Lemma C5_bar_tokens_witness :
  Lexer.tokenizeTurn 1 (Lexer.mkLexer "a | b" 2 1 3)
  = Ok (Lexer.Push (mkToken PIPE "|" (mkLoc 1 3))) (Lexer.mkLexer "a | b" 3 1 4).
Proof.
  refine (proj1 (proj2 (proj2
            (C5_bar_tokens 0 (Lexer.mkLexer "a | b" 2 1 3) eq_refl))) _ _);
    vm_compute; discriminate.
Defined.

Lemma inList_In (x : string) (l : list string) : inList x l = true <-> In x l.
Proof.
  unfold inList. rewrite existsb_exists. split.
  - intros (y & H & E). apply String.eqb_eq in E. now subst.
  - intros H. exists x. split; [assumption|apply String.eqb_refl].
Qed.

(** C6: a call whose callee is an identifier, plain or as the target of a
    pipe, and an identifier that is itself the target of a pipe, are written
    with the prefix [__piper.] when the name is one of the seven built-ins
    and as they are otherwise; [print(42)] refers to [__piper.print]. *)
Theorem C6_builtin_qualification
    (name : string) (args : list ASTNode) (left_ : ASTNode)
    (l1 l2 l3 l4 : option SourceLocation)
    (g g1 g2 : CodeGenerator.CodeGenerator) (s : string) (ss : list string) :
  CodeGenerator.generateExpressions args g = Ok ss g1 ->
  CodeGenerator.generateExpression left_ g = Ok s g2 ->
  let builtin :=
    In name ["print"; "len"; "map"; "filter"; "reduce"; "range"; "sum"] in
  let plain := CodeGenerator.generateExpression
                 (CallExpression (Identifier name l1) args l2) g in
  let piped := CodeGenerator.generateExpression
                 (PipeExpression left_ (CallExpression (Identifier name l1) args l2)
                    l3) g in
  let target := CodeGenerator.generateExpression
                  (PipeExpression left_ (Identifier name l1) l4) g in
  (builtin ->
   plain = Ok ("__piper." ++ name ++ "(" ++ join ", " ss ++ ")") g
   /\ piped = Ok ("__piper." ++ name ++ "(" ++ join ", " (s :: ss) ++ ")") g
   /\ target = Ok ("__piper." ++ name ++ "(" ++ s ++ ")") g)
  /\ (~ builtin ->
      plain = Ok (name ++ "(" ++ join ", " ss ++ ")") g
      /\ piped = Ok (name ++ "(" ++ join ", " (s :: ss) ++ ")") g
      /\ target = Ok (name ++ "(" ++ s ++ ")") g)
  /\ compile 100 "print(42)" = generated ("__piper.print(42);" ++ LFs)
  /\ compile 100 "show(42)" = generated ("show(42);" ++ LFs).
Proof.
  intros Ha Hl builtin plain piped target.
  pose proof (proj1 (GenFacts.generateExpressions_Pure _ _ _ _ Ha)); subst g1.
  pose proof (proj1 (GenFacts.generateExpression_Pure _ _ _ _ Hl)); subst g2.
  unfold CodeGenerator.generateExpressions in Ha.
  assert (Ep : plain = Ok ((if inList name BUILTINS then "__piper." ++ name
                            else name) ++ "(" ++ join ", " ss ++ ")") g).
  { unfold plain. simpl. unfold bind at 1. unfold ret at 1.
    rewrite (bind_run _ _ _ _ _ Ha). destruct (inList name BUILTINS); reflexivity. }
  assert (Eq : piped = Ok (CodeGenerator.qualify name ++ "("
                           ++ join ", " (s :: ss) ++ ")") g).
  { unfold piped. simpl.
    now rewrite (bind_run _ _ _ _ _ Hl), (bind_run _ _ _ _ _ Ha). }
  assert (Et : target = Ok (CodeGenerator.qualify name ++ "(" ++ s ++ ")") g).
  { unfold target. simpl. now rewrite (bind_run _ _ _ _ _ Hl). }
  unfold CodeGenerator.qualify in Eq, Et.
  split; [|split; [|split; vm_compute; reflexivity]].
  - intros B. apply inList_In in B. unfold BUILTINS in *.
    rewrite B in Ep, Eq, Et. auto.
  - intros B. assert (B' : inList name BUILTINS = false).
    { destruct (inList name BUILTINS) eqn:E; [|reflexivity].
      exfalso. apply B. now apply inList_In. }
    rewrite B' in Ep, Eq, Et. auto.
Qed.

Lemma C6_builtin_qualification_witness :
  CodeGenerator.generateExpression
    (CallExpression (ident "print" 1 1) [num "42" 1 7] (at_ 1 1)) CodeGenerator.new
  = Ok "__piper.print(42)" CodeGenerator.new.
Proof.
  refine (proj1 (proj1
            (C6_builtin_qualification "print" [num "42" 1 7] (num "5" 1 1)
               (at_ 1 1) (at_ 1 1) None None
               CodeGenerator.new CodeGenerator.new CodeGenerator.new
               "5" ["42"] eq_refl eq_refl) _)).
  simpl. auto.
Defined.

(** C7: a BinaryExpression is written as its two operands around its
    operator inside one pair of parentheses, [==] written [===], [!=] written
    [!==] and any other operator as it is; a UnaryExpression as its operator
    before its operand inside one pair of parentheses.  [x == y] compiles to
    [(x === y)]. *)
Theorem C7_operators_parenthesized
    (operator : string) (left_ right_ operand : ASTNode)
    (l1 l2 : option SourceLocation)
    (g g1 g2 g3 : CodeGenerator.CodeGenerator) (sl sr so : string) :
  CodeGenerator.generateExpression left_ g = Ok sl g1 ->
  CodeGenerator.generateExpression right_ g = Ok sr g2 ->
  CodeGenerator.generateExpression operand g = Ok so g3 ->
  CodeGenerator.generateExpression (BinaryExpression operator left_ right_ l1) g
  = Ok ("(" ++ sl ++ " "
        ++ (if operator =? "==" then "==="
            else if operator =? "!=" then "!==" else operator)
        ++ " " ++ sr ++ ")") g
  /\ CodeGenerator.generateExpression (UnaryExpression operator operand l2) g
     = Ok ("(" ++ operator ++ so ++ ")") g
  /\ compile 100 "x == y" = generated ("(x === y);" ++ LFs)
  /\ compile 100 "x != y" = generated ("(x !== y);" ++ LFs)
  /\ compile 100 "1 + 2 * 3" = generated ("(1 + (2 * 3));" ++ LFs)
  /\ compile 100 "!-x" = generated ("(!(-x));" ++ LFs).
Proof.
  intros Hl Hr Ho.
  pose proof (proj1 (GenFacts.generateExpression_Pure _ _ _ _ Hl)); subst g1.
  pose proof (proj1 (GenFacts.generateExpression_Pure _ _ _ _ Hr)); subst g2.
  pose proof (proj1 (GenFacts.generateExpression_Pure _ _ _ _ Ho)); subst g3.
  split; [|split; [|repeat split; vm_compute; reflexivity]].
  - simpl. now rewrite (bind_run _ _ _ _ _ Hl), (bind_run _ _ _ _ _ Hr).
  - simpl. now rewrite (bind_run _ _ _ _ _ Ho).
Qed.

Lemma C7_operators_parenthesized_witness :
  CodeGenerator.generateExpression
    (BinaryExpression "==" (ident "x" 1 1) (ident "y" 1 6) (at_ 1 1))
    CodeGenerator.new
  = Ok "(x === y)" CodeGenerator.new.
Proof.
  exact (proj1 (C7_operators_parenthesized "==" (ident "x" 1 1) (ident "y" 1 6)
                  (ident "x" 1 1) (at_ 1 1) None
                  CodeGenerator.new CodeGenerator.new CodeGenerator.new
                  CodeGenerator.new "x" "y" "x" eq_refl eq_refl eq_refl)).
Defined.

Lemma bind_assoc {St A B C} (m : M St A) (k : A -> M St B) (h : B -> M St C) s :
  bind (bind m k) h s = bind m (fun a => bind (k a) h) s.
Proof. unfold bind. destruct (m s); reflexivity. Qed.

Lemma bind_ext {St A B} (m : M St A) (k k' : A -> M St B) s :
  (forall a s', k a s' = k' a s') -> bind m k s = bind m k' s.
Proof. intros H. unfold bind. destruct (m s); auto. Qed.

(** The loop of [generateBlockBody] on statements that end in [last]: the
    statements before it go through [generateNode]; [finish] is what the loop
    does with a last statement. *)
Lemma blockBodyLoop_snoc (statements : list ASTNode) (last : ASTNode) g :
  CodeGenerator.blockBodyLoop (statements ++ [last])%list g
  = (CodeGenerator.generateStatements statements ;;
     CodeGenerator.blockBodyLoop [last]) g.
Proof.
  revert g. induction statements as [|a l IH]; intros g; [reflexivity|].
  change (CodeGenerator.generateStatements (a :: l))
    with (CodeGenerator.generateNode a ;; CodeGenerator.generateStatements l).
  rewrite bind_assoc.
  change ((a :: l) ++ [last])%list with (a :: (l ++ [last]))%list.
  destruct (l ++ [last])%list as [|b r] eqn:E.
  { apply app_eq_nil in E. destruct E; discriminate. }
  change (CodeGenerator.blockBodyLoop (a :: b :: r))
    with (CodeGenerator.generateNode a ;; CodeGenerator.blockBodyLoop (b :: r)).
  apply bind_ext. intros _ s'. apply IH.
Qed.

Lemma generateStatements_snoc (statements : list ASTNode) (last : ASTNode) g :
  CodeGenerator.generateStatements (statements ++ [last])%list g
  = (CodeGenerator.generateStatements statements ;;
     CodeGenerator.generateNode last) g.
Proof.
  revert g. induction statements as [|a l IH]; intros g.
  - simpl. unfold bind, ret.
    destruct (CodeGenerator.generateNode last g) as [[] ?| |]; reflexivity.
  - change (CodeGenerator.generateStatements (a :: l))
      with (CodeGenerator.generateNode a ;; CodeGenerator.generateStatements l).
    rewrite bind_assoc.
    change (CodeGenerator.generateStatements ((a :: l) ++ [last])%list)
      with (CodeGenerator.generateNode a ;;
            CodeGenerator.generateStatements (l ++ [last])%list).
    apply bind_ext. intros _ s'. apply IH.
Qed.

(** C8: a block in expression position is written as the call of a closure
    whose body is what [generateBlockBody] writes, one level deeper, for the
    statements of the block.  For a block that ends in an expression
    statement that is the statements before it, as [generateNode] writes
    them, in order, then [return] of the generated expression; for the empty
    block it is [return undefined;]; for a block that ends in any other
    statement it is all the statements as [generateNode] writes them.
    [{ let x = 5; x * 2 }] returns [(x * 2)]. *)
Theorem C8_block_trailing_value
    (statements : list ASTNode) (e s : ASTNode) (l l' : option SourceLocation)
    (g : CodeGenerator.CodeGenerator) :
  isExpressionStatement s = false ->
  CodeGenerator.generateExpression (BlockExpression statements l) g
  = match CodeGenerator.blockBodyLoop statements
            (CodeGenerator.mkCodeGenerator (S (CodeGenerator.indentLevel g)) [])
    with
    | Ok _ g' =>
        Ok ("(() => {" ++ LFs ++ join EmptyString (CodeGenerator.output g')
            ++ repeatIndent (CodeGenerator.indentLevel g) ++ "})()") g
    | Throw err => Throw err
    | OutOfFuel => OutOfFuel
    end
  /\ CodeGenerator.blockBodyLoop [] g
     = CodeGenerator.emitLine "return undefined;" g
  /\ CodeGenerator.blockBodyLoop (statements ++ [ExpressionStatement e l'])%list g
     = (CodeGenerator.generateStatements statements ;;
        v <- CodeGenerator.generateExpression e ;;
        CodeGenerator.emitLine ("return " ++ v ++ ";")) g
  /\ CodeGenerator.blockBodyLoop (statements ++ [s])%list g
     = CodeGenerator.generateStatements (statements ++ [s])%list g
  /\ compile 100 "{ let x = 5; x * 2 }"
     = generated ("(() => {" ++ LFs ++ "  const x = 5;" ++ LFs
                  ++ "  return (x * 2);" ++ LFs ++ "})();" ++ LFs)
  /\ compile 100 "let u = {}"
     = generated ("const u = (() => {" ++ LFs ++ "  return undefined;" ++ LFs
                  ++ "})();" ++ LFs).
Proof.
  intros Hs.
  split; [|split; [|split; [|split; [|split; vm_compute; reflexivity]]]].
  - destruct g as [lvl out]. simpl.
    unfold bind at 1. unfold CodeGenerator.indentMore at 1. simpl.
    unfold bind at 1. unfold CodeGenerator.getOutput at 1. simpl.
    unfold bind at 1. unfold CodeGenerator.setOutput at 1. simpl.
    unfold bind at 1.
    change (CodeGenerator.blockBodyWith CodeGenerator.generateNode
              CodeGenerator.generateExpression statements)
      with (CodeGenerator.blockBodyLoop statements).
    destruct (CodeGenerator.blockBodyLoop statements
                (CodeGenerator.mkCodeGenerator (S lvl) [])) as [u g'| |] eqn:E;
      try reflexivity.
    destruct (GenFacts.blockBodyLoop_Appending _ _ _ _ E) as (d & -> & _).
    reflexivity.
  - reflexivity.
  - rewrite blockBodyLoop_snoc. reflexivity.
  - rewrite blockBodyLoop_snoc, generateStatements_snoc.
    destruct s; try reflexivity. discriminate Hs.
Qed.

Lemma C8_block_trailing_value_witness :
  CodeGenerator.blockBodyLoop
    ([LetDeclaration "x" (num "5" 1 11) (at_ 1 3)]
     ++ [ReturnStatement None (at_ 1 14)])%list CodeGenerator.new
  = CodeGenerator.generateStatements
      ([LetDeclaration "x" (num "5" 1 11) (at_ 1 3)]
       ++ [ReturnStatement None (at_ 1 14)])%list CodeGenerator.new.
Proof.
  exact (proj1 (proj2 (proj2 (proj2
           (C8_block_trailing_value [LetDeclaration "x" (num "5" 1 11) (at_ 1 3)]
              (ident "x" 1 1) (ReturnStatement None (at_ 1 14)) None None
              CodeGenerator.new eq_refl))))).
Defined.



(** ** Positions in a text, and what the main loop of the lexer reaches *)

(** The position one character further. *)
Lemma positionAfter_S (s : string) (n l c : nat) :
  positionAfter s (S n) l c
  = let p := positionAfter s n l c in
    if Ascii.eqb (match charAt s n with Some ch => ch | None => NUL end) LF
    then mkLoc (S (line p)) 1
    else mkLoc (line p) (S (column p)).
Proof.
  unfold charAt. revert s l c. induction n as [|n IH]; intros s l c.
  - destruct s as [|ch s]; simpl; [reflexivity|].
    destruct (Ascii.eqb ch LF); reflexivity.
  - destruct s as [|ch s].
    + change (positionAfter EmptyString (S (S n)) l c)
        with (positionAfter EmptyString (S n) l (S c)).
      rewrite IH. reflexivity.
    + change (positionAfter (String ch s) (S (S n)) l c)
        with (if Ascii.eqb ch LF then positionAfter s (S n) (S l) 1
              else positionAfter s (S n) l (S c)).
      destruct (Ascii.eqb ch LF) eqn:E; rewrite IH; simpl; rewrite E;
        reflexivity.
Qed.

Module ScanFacts.
Import Lexer ScanNotions.

Lemma Below_refl {A} (m : M Lexer A) : Below m m.
Proof. intros lx a lx' H. exact H. Qed.

Lemma Below_bind {A B} (m1 m2 : M Lexer A) (k1 k2 : A -> M Lexer B) :
  Below m1 m2 -> (forall a, Below (k1 a) (k2 a)) ->
  Below (bind m1 k1) (bind m2 k2).
Proof.
  intros Hm Hk lx b lx' H. apply bind_Ok in H as (a & l1 & H1 & H2).
  rewrite (bind_run _ _ _ _ _ (Hm _ _ _ H1)). now apply Hk.
Qed.

Lemma Below_outOfFuel {A} (m : M Lexer A) : Below outOfFuel m.
Proof. intros lx a lx' H. discriminate H. Qed.

Ltac below :=
  repeat first
    [ apply Below_refl
    | apply Below_outOfFuel
    | solve [auto with arith]
    | apply Below_bind; [|intros ?]
    | match goal with
      | |- Below (if ?b then _ else _) (if ?b then _ else _) => destruct b
      | |- Below (match ?x with _ => _ end) (match ?x with _ => _ end) =>
          destruct x
      end ].

Ltac mono_loop :=
  intros fuel; induction fuel as [|fuel IH]; intros fuel' Hle;
  [apply Below_outOfFuel|];
  destruct fuel' as [|fuel']; [lia|];
  assert (fuel <= fuel') by lia; simpl; below.

Lemma skipWhitespace_Mono : Mono skipWhitespace.
Proof. mono_loop. Qed.

Lemma skipCommentLoop_Mono : Mono skipCommentLoop.
Proof. mono_loop. Qed.

Lemma readDigits_Mono value : Mono (fun fuel => readDigits fuel value).
Proof. revert value. intros value fuel. revert value.
  induction fuel as [|fuel IH]; intros value fuel' Hle;
    [apply Below_outOfFuel|].
  destruct fuel' as [|fuel']; [lia|]. assert (fuel <= fuel') by lia.
  simpl. below.
Qed.

Lemma readStringLoop_Mono quote value :
  Mono (fun fuel => readStringLoop fuel quote value).
Proof.
  intros fuel. revert value.
  induction fuel as [|fuel IH]; intros value fuel' Hle;
    [apply Below_outOfFuel|].
  destruct fuel' as [|fuel']; [lia|]. assert (fuel <= fuel') by lia.
  simpl. below.
Qed.

Lemma readIdentifierLoop_Mono value :
  Mono (fun fuel => readIdentifierLoop fuel value).
Proof.
  intros fuel. revert value.
  induction fuel as [|fuel IH]; intros value fuel' Hle;
    [apply Below_outOfFuel|].
  destruct fuel' as [|fuel']; [lia|]. assert (fuel <= fuel') by lia.
  simpl. below.
Qed.

Lemma tokenizeTurn_Mono : Mono tokenizeTurn.
Proof.
  intros fuel fuel' Hle.
  pose proof (skipWhitespace_Mono fuel fuel' Hle).
  pose proof (skipCommentLoop_Mono fuel fuel' Hle).
  pose proof (fun v => readDigits_Mono v fuel fuel' Hle).
  pose proof (fun q v => readStringLoop_Mono q v fuel fuel' Hle).
  pose proof (fun v => readIdentifierLoop_Mono v fuel fuel' Hle).
  unfold tokenizeTurn, skipComment, readNumber, readString, readIdentifier.
  below.
Qed.

Lemma Keeps_ret {A} (a : A) : Keeps (ret a).
Proof. intros lx a' lx' T [= <- <-]. now split. Qed.

Lemma Keeps_throw {A} e : Keeps (@throw Lexer A e).
Proof. intros lx a lx' T H. discriminate H. Qed.

Lemma Keeps_outOfFuel {A} : Keeps (@outOfFuel Lexer A).
Proof. intros lx a lx' T H. discriminate H. Qed.

Lemma Keeps_bind {A B} (m : M Lexer A) (k : A -> M Lexer B) :
  Keeps m -> (forall a, Keeps (k a)) -> Keeps (bind m k).
Proof.
  intros Hm Hk lx b lx' T H. apply bind_Ok in H as (a & l1 & H1 & H2).
  destruct (Hm _ _ _ T H1) as [T1 S1]. destruct (Hk _ _ _ _ T1 H2) as [T2 S2].
  split; [assumption|congruence].
Qed.

Lemma Keeps_getCurrent : Keeps getCurrent.
Proof. intros lx a lx' T [= <- <-]. now split. Qed.

Lemma Keeps_getPeek : Keeps getPeek.
Proof. intros lx a lx' T [= <- <-]. now split. Qed.

Lemma Keeps_getHere : Keeps getHere.
Proof. intros lx a lx' T [= <- <-]. now split. Qed.

Lemma Keeps_getState : Keeps (@getState Lexer).
Proof. intros lx a lx' T [= <- <-]. now split. Qed.

Lemma Tracked_next (lx : Lexer) :
  Tracked lx ->
  positionOf (source lx) (S (pos lx))
  = if Ascii.eqb (current lx) LF then mkLoc (S (line lx)) 1
    else mkLoc (line lx) (S (column lx)).
Proof.
  unfold Tracked, here, positionOf, current. intros T.
  rewrite positionAfter_S, <- T. reflexivity.
Qed.

Lemma Keeps_advance : Keeps advance.
Proof.
  intros lx a lx' T H. unfold advance in H.
  pose proof (Tracked_next lx T) as N.
  destruct (Ascii.eqb (current lx) LF); injection H as <- <-;
    (split; [|reflexivity]); unfold Tracked, here; simpl; now rewrite N.
Qed.

Ltac keeps :=
  repeat first
    [ apply Keeps_ret | apply Keeps_throw | apply Keeps_outOfFuel
    | apply Keeps_getCurrent | apply Keeps_getPeek | apply Keeps_getHere
    | apply Keeps_getState | apply Keeps_advance
    | solve [auto]
    | apply Keeps_bind; [|intros ?]
    | match goal with
      | |- Keeps (if ?b then _ else _) => destruct b
      | |- Keeps (match ?x with _ => _ end) => destruct x
      end ].

Lemma Keeps_skipWhitespace fuel : Keeps (skipWhitespace fuel).
Proof. induction fuel as [|fuel IH]; simpl; keeps. Qed.

Lemma Keeps_skipCommentLoop fuel : Keeps (skipCommentLoop fuel).
Proof. induction fuel as [|fuel IH]; simpl; keeps. Qed.

Lemma Keeps_readDigits fuel : forall value, Keeps (readDigits fuel value).
Proof. induction fuel as [|fuel IH]; intros value; simpl; keeps. Qed.

Lemma Keeps_readStringLoop fuel quote :
  forall value, Keeps (readStringLoop fuel quote value).
Proof. induction fuel as [|fuel IH]; intros value; simpl; keeps. Qed.

Lemma Keeps_readIdentifierLoop fuel :
  forall value, Keeps (readIdentifierLoop fuel value).
Proof. induction fuel as [|fuel IH]; intros value; simpl; keeps. Qed.

Lemma Keeps_skipComment fuel : Keeps (skipComment fuel).
Proof.
  intros lx a lx' T H. unfold skipComment in H.
  unfold bind at 1 in H. unfold getCurrent at 1 in H.
  unfold bind at 1 in H. unfold getPeek at 1 in H.
  destruct (Ascii.eqb (current lx) "/" && Ascii.eqb (peek 1 lx) "/") eqn:E.
  - unfold bind at 1 in H. unfold getState at 1 in H.
    unfold bind at 1 in H. unfold putState at 1 in H.
    apply andb_true_iff in E as [E1 E2].
    apply Ascii.eqb_eq in E1, E2.
    eapply Keeps_skipCommentLoop in H; [exact H|].
    unfold Tracked, here. simpl.
    pose proof (Tracked_next lx T) as N1. rewrite E1 in N1. simpl in N1.
    pose proof (Tracked_next (mkLexer (source lx) (S (pos lx)) (line lx)
                                (S (column lx)))) as N2.
    simpl in N2. unfold Tracked, here in N2. simpl in N2.
    specialize (N2 (eq_sym N1)).
    assert (C2 : current (mkLexer (source lx) (S (pos lx)) (line lx)
                           (S (column lx))) = "/"%char).
    { unfold current. simpl. unfold peek in E2.
      now rewrite Nat.add_1_r in E2. }
    rewrite C2 in N2. simpl in N2.
    rewrite !Nat.add_succ_r, !Nat.add_0_r. now rewrite N2.
  - injection H as <- <-. now split.
Qed.

Lemma Keeps_tokenizeTurn fuel : Keeps (tokenizeTurn fuel).
Proof.
  pose proof (Keeps_skipWhitespace fuel). pose proof (Keeps_skipComment fuel).
  pose proof (Keeps_readDigits fuel).
  pose proof (Keeps_readStringLoop fuel).
  pose proof (Keeps_readIdentifierLoop fuel).
  unfold tokenizeTurn, readNumber, readString, readIdentifier. keeps.
Qed.

Lemma Tracked_new (src : string) : Tracked (new src).
Proof. reflexivity. Qed.

Lemma Reaches_Tracked (lx0 lx : Lexer) (tokens : list Token) :
  Reaches lx0 lx tokens -> Tracked lx0 ->
  Tracked lx /\ source lx = source lx0.
Proof.
  induction 1 as [|lx tokens fuel t lx' R IH C H]; intros T0; [now split|].
  destruct (IH T0) as [T S]. destruct (Keeps_tokenizeTurn _ _ _ _ T H) as [T' S'].
  split; [assumption|congruence].
Qed.

(** A result that the main loop gives, with enough fuel, from where it has
    got to, it gives, with enough fuel, from where it started. *)
Lemma Reaches_tokenizeLoop (lx0 lx : Lexer) (tokens : list Token)
    (R : Outcome Lexer (list Token)) :
  Reaches lx0 lx tokens ->
  forall acc,
    (exists f0, forall f, f0 <= f -> tokenizeLoop f (acc ++ tokens)%list lx = R) ->
    exists f0, forall f, f0 <= f -> tokenizeLoop f acc lx0 = R.
Proof.
  induction 1 as [|lx tokens fuel t lx' Hr IH C H]; intros acc (f0 & Hf).
  - exists f0. intros f Hle. specialize (Hf f Hle).
    now rewrite app_nil_r in Hf.
  - apply IH. exists (S (Nat.max fuel f0)). intros f Hle.
    destruct f as [|f]; [lia|]. simpl.
    unfold bind at 1. unfold getCurrent at 1.
    apply Ascii.eqb_neq in C. rewrite C.
    rewrite (bind_run _ _ _ _ _ (tokenizeTurn_Mono fuel f ltac:(lia) _ _ _ H)).
    rewrite <- app_assoc. apply Hf. lia.
Qed.

End ScanFacts.

Lemma skipBlanksAndComment_Mono : ScanNotions.Mono skipBlanksAndComment.
Proof.
  intros fuel fuel' Hle. unfold skipBlanksAndComment, Lexer.skipComment.
  pose proof (ScanFacts.skipWhitespace_Mono fuel fuel' Hle).
  pose proof (ScanFacts.skipCommentLoop_Mono fuel fuel' Hle).
  ScanFacts.below.
Qed.

Lemma skipBlanksAndComment_Keeps fuel : ScanNotions.Keeps (skipBlanksAndComment fuel).
Proof.
  apply ScanFacts.Keeps_bind; [apply ScanFacts.Keeps_skipWhitespace|].
  intros _. apply ScanFacts.Keeps_skipComment.
Qed.

(** A turn that, past blanks and a comment, is on the opening quote of a
    string that nothing closes, throws. *)
Lemma tokenizeTurn_unterminated (fuel : nat) (lx lq : Lexer.Lexer) :
  skipBlanksAndComment fuel lx = Ok tt lq ->
  Lexer.current lq = DQUOTE \/ Lexer.current lq = SQUOTE ->
  closes (Lexer.current lq)
         (dropChars (S (Lexer.pos lq)) (Lexer.source lq)) = false ->
  String.length (Lexer.source lq) <= fuel ->
  Lexer.tokenizeTurn fuel lx = Throw (Lexer.unterminatedString (Lexer.here lq)).
Proof.
  intros Hskip Q Hno Hlen.
  assert (R : Lexer.readString fuel lq
              = Throw (Lexer.unterminatedString (Lexer.here lq))).
  { apply LexerFacts.readString_unterminated; [|assumption|lia].
    destruct Q as [-> | ->]; discriminate. }
  assert (F3 : Ascii.eqb (Lexer.current lq) NUL = false)
    by (destruct Q as [-> | ->]; reflexivity).
  assert (F4 : Ascii.eqb (Lexer.current lq) LF = false)
    by (destruct Q as [-> | ->]; reflexivity).
  assert (F5 : isDigit (Lexer.current lq) = false)
    by (destruct Q as [-> | ->]; reflexivity).
  assert (F6 : Ascii.eqb (Lexer.current lq) DQUOTE
               || Ascii.eqb (Lexer.current lq) SQUOTE = true)
    by (destruct Q as [-> | ->]; reflexivity).
  unfold skipBlanksAndComment in Hskip.
  apply bind_Ok in Hskip as ([] & l1 & W & K).
  unfold Lexer.tokenizeTurn.
  rewrite (bind_run _ _ _ _ _ W), (bind_run _ _ _ _ _ K).
  unfold bind at 1. unfold Lexer.getCurrent at 1. rewrite F3.
  unfold bind at 1. unfold Lexer.getHere at 1. rewrite F4, F5, F6.
  unfold bind. now rewrite R.
Qed.

(** Blanks and a comment are skipped only where the text goes on. *)
Lemma skipBlanksAndComment_at_end (fuel : nat) (lx lq : Lexer.Lexer) :
  skipBlanksAndComment fuel lx = Ok tt lq ->
  Lexer.current lx = NUL -> lq = lx.
Proof.
  intros H C. unfold skipBlanksAndComment in H.
  apply bind_Ok in H as ([] & l1 & W & K).
  destruct fuel as [|fuel]; [discriminate W|].
  simpl in W. unfold bind, Lexer.getCurrent in W. rewrite C in W.
  simpl in W. injection W as <-.
  unfold Lexer.skipComment, bind, Lexer.getCurrent, Lexer.getPeek in K.
  rewrite C in K. simpl in K. now injection K as <-.
Qed.

(** C9: when the scan of a text gets, past blanks and a comment, to a quote
    whose string nothing closes before the text ends ([closes]: no later
    quote of the same kind but ones that a backslash escapes), [tokenize]
    throws [Unterminated string], with the line and column of that quote in
    the text, for any fuel that is enough.  The position is the quote's, not
    the one where the scan stopped: for the text of the specification, a
    quote and [abc], it is line 1, column 1, where the text ends at column 5;
    for a string opened on line 2 and still open when the text ends on line
    3 it is line 2; and a string whose last quote is escaped is open too. *)
Theorem C9_unterminated_string
    (src : string) (lx lq : Lexer.Lexer) (tokens : list Token) (fuel1 : nat) :
  ScanNotions.Reaches (Lexer.new src) lx tokens ->
  skipBlanksAndComment fuel1 lx = Ok tt lq ->
  Lexer.current lq = DQUOTE \/ Lexer.current lq = SQUOTE ->
  closes (Lexer.current lq) (dropChars (S (Lexer.pos lq)) src) = false ->
  (exists fuel0, forall fuel, fuel0 <= fuel ->
     Lexer.tokenize fuel (Lexer.new src)
     = Throw (JsError
                ("Unterminated string at line "
                 ++ showNat (line (positionOf src (Lexer.pos lq)))
                 ++ ", column "
                 ++ showNat (column (positionOf src (Lexer.pos lq))))))
  /\ Lexer.tokenize 10 (Lexer.new (str DQUOTE ++ "abc"))
     = Throw (JsError "Unterminated string at line 1, column 1")
  /\ positionOf (str DQUOTE ++ "abc") 4 = mkLoc 1 5
  /\ Lexer.tokenize 20 (Lexer.new ("x =" ++ LFs ++ "  'ab" ++ LFs ++ "cd"))
     = Throw (JsError "Unterminated string at line 2, column 3")
  /\ positionOf ("x =" ++ LFs ++ "  'ab" ++ LFs ++ "cd") 12 = mkLoc 3 3
  /\ Lexer.tokenize 10
       (Lexer.new (str DQUOTE ++ "ab" ++ str BACKSLASH ++ str DQUOTE))
     = Throw (JsError "Unterminated string at line 1, column 1").
Proof.
  intros HR Hskip Q Hno.
  split; [|repeat split; vm_compute; reflexivity].
  destruct (ScanFacts.Reaches_Tracked _ _ _ HR (ScanFacts.Tracked_new src)) as [T Hsrc].
  simpl in Hsrc.
  destruct (skipBlanksAndComment_Keeps _ _ _ _ T Hskip) as [Tq Hq].
  rewrite Hsrc in Hq.
  assert (C : Lexer.current lx <> NUL).
  { intros C. rewrite (skipBlanksAndComment_at_end _ _ _ Hskip C) in Q.
    rewrite C in Q. destruct Q; discriminate. }
  assert (E : exists f0, forall f, f0 <= f ->
                Lexer.tokenizeLoop f [] (Lexer.new src)
                = Throw (Lexer.unterminatedString (Lexer.here lq))).
  { apply (ScanFacts.Reaches_tokenizeLoop _ _ _ _ HR).
    exists (S (Nat.max fuel1 (String.length src))). intros f Hle.
    destruct f as [|f]; [lia|]. simpl.
    unfold bind at 1. unfold Lexer.getCurrent at 1.
    apply Ascii.eqb_neq in C. rewrite C.
    unfold bind.
    rewrite (tokenizeTurn_unterminated f lx lq); [reflexivity| | | |].
    - apply (skipBlanksAndComment_Mono fuel1 f); [lia|assumption].
    - assumption.
    - now rewrite Hq.
    - rewrite Hq. lia. }
  destruct E as (f0 & E). exists f0. intros fuel Hle.
  unfold Lexer.tokenize, bind. rewrite (E fuel Hle).
  unfold ScanNotions.Tracked in Tq. rewrite Tq, Hq. reflexivity.
Qed.

Lemma C9_unterminated_string_witness :
  exists fuel0, forall fuel, fuel0 <= fuel ->
    Lexer.tokenize fuel (Lexer.new ("x = " ++ str DQUOTE ++ "abc"))
    = Throw (JsError "Unterminated string at line 1, column 5").
Proof.
  refine (proj1
            (C9_unterminated_string ("x = " ++ str DQUOTE ++ "abc")
               (Lexer.mkLexer ("x = " ++ str DQUOTE ++ "abc") 3 1 4)
               (Lexer.mkLexer ("x = " ++ str DQUOTE ++ "abc") 4 1 5)
               ([mkToken IDENTIFIER "x" (mkLoc 1 1)] ++ [mkToken EQ "=" (mkLoc 1 3)])
               10 _ _ _ _)).
  - eapply (ScanNotions.Reaches_turn _ (Lexer.mkLexer _ 1 1 2) [_] 10).
    + eapply (ScanNotions.Reaches_turn _ _ [] 10).
      * apply ScanNotions.Reaches_start.
      * vm_compute. discriminate.
      * vm_compute. reflexivity.
    + vm_compute. discriminate.
    + vm_compute. reflexivity.
  - vm_compute. reflexivity.
  - left. vm_compute. reflexivity.
  - vm_compute. reflexivity.
Defined.

(** ** Beyond the specification: what the code shows of itself *)

Module MoreScanFacts.
Import Lexer ScanNotions MoreScanNotions.

Lemma Settled_refl {A} (m : M Lexer A) : Settled m m.
Proof. intros lx _. reflexivity. Qed.

Lemma Settled_outOfFuel {A} (m : M Lexer A) : Settled outOfFuel m.
Proof. intros lx H. now contradiction H. Qed.

Lemma Settled_bind {A B} (m1 m2 : M Lexer A) (k1 k2 : A -> M Lexer B) :
  Settled m1 m2 -> (forall a, Settled (k1 a) (k2 a)) ->
  Settled (bind m1 k1) (bind m2 k2).
Proof.
  intros Hm Hk lx H. unfold bind in *.
  destruct (m1 lx) as [a l1| e |] eqn:E.
  - rewrite (Hm lx) by (rewrite E; discriminate). rewrite E. now apply Hk.
  - rewrite (Hm lx) by (rewrite E; discriminate). now rewrite E.
  - now contradiction H.
Qed.

Ltac settled :=
  repeat first
    [ apply Settled_refl
    | apply Settled_outOfFuel
    | solve [auto with arith]
    | apply Settled_bind; [|intros ?]
    | match goal with
      | |- Settled (if ?b then _ else _) (if ?b then _ else _) => destruct b
      | |- Settled (match ?x with _ => _ end) (match ?x with _ => _ end) =>
          destruct x
      end ].

Ltac settled_loop :=
  let fuel := fresh "fuel" in
  let IH := fresh "IH" in
  intros fuel; induction fuel as [|fuel IH]; intros;
  [apply Settled_outOfFuel|];
  match goal with
  | H : S fuel <= ?f |- _ =>
      destruct f as [|f]; [lia|]; assert (fuel <= f) by lia
  end;
  simpl; settled.

Lemma skipWhitespace_Settled :
  forall fuel fuel', fuel <= fuel' ->
    Settled (skipWhitespace fuel) (skipWhitespace fuel').
Proof. settled_loop. Qed.

Lemma skipCommentLoop_Settled :
  forall fuel fuel', fuel <= fuel' ->
    Settled (skipCommentLoop fuel) (skipCommentLoop fuel').
Proof. settled_loop. Qed.

Lemma readDigits_Settled :
  forall fuel fuel' value, fuel <= fuel' ->
    Settled (readDigits fuel value) (readDigits fuel' value).
Proof.
  intros fuel; induction fuel as [|fuel IH]; intros fuel' value Hle;
    [apply Settled_outOfFuel|].
  destruct fuel' as [|fuel']; [lia|]. assert (fuel <= fuel') by lia.
  simpl. settled.
Qed.

Lemma readStringLoop_Settled :
  forall fuel fuel' quote value, fuel <= fuel' ->
    Settled (readStringLoop fuel quote value) (readStringLoop fuel' quote value).
Proof.
  intros fuel; induction fuel as [|fuel IH]; intros fuel' quote value Hle;
    [apply Settled_outOfFuel|].
  destruct fuel' as [|fuel']; [lia|]. assert (fuel <= fuel') by lia.
  simpl. settled.
Qed.

Lemma readIdentifierLoop_Settled :
  forall fuel fuel' value, fuel <= fuel' ->
    Settled (readIdentifierLoop fuel value) (readIdentifierLoop fuel' value).
Proof.
  intros fuel; induction fuel as [|fuel IH]; intros fuel' value Hle;
    [apply Settled_outOfFuel|].
  destruct fuel' as [|fuel']; [lia|]. assert (fuel <= fuel') by lia.
  simpl. settled.
Qed.

Lemma tokenizeTurn_Settled fuel fuel' :
  fuel <= fuel' -> Settled (tokenizeTurn fuel) (tokenizeTurn fuel').
Proof.
  intros Hle.
  pose proof (skipWhitespace_Settled fuel fuel' Hle).
  pose proof (skipCommentLoop_Settled fuel fuel' Hle).
  pose proof (fun v => readDigits_Settled fuel fuel' v Hle).
  pose proof (fun q v => readStringLoop_Settled fuel fuel' q v Hle).
  pose proof (fun v => readIdentifierLoop_Settled fuel fuel' v Hle).
  unfold tokenizeTurn, skipComment, readNumber, readString, readIdentifier.
  settled.
Qed.

Lemma tokenizeLoop_Settled :
  forall fuel fuel' tokens, fuel <= fuel' ->
    Settled (tokenizeLoop fuel tokens) (tokenizeLoop fuel' tokens).
Proof.
  intros fuel; induction fuel as [|fuel IH]; intros fuel' tokens Hle;
    [apply Settled_outOfFuel|].
  destruct fuel' as [|fuel']; [lia|]. assert (fuel <= fuel') by lia.
  pose proof (tokenizeTurn_Settled fuel fuel' H).
  simpl. settled.
Qed.

Lemma tokenize_Settled fuel fuel' :
  fuel <= fuel' -> Settled (tokenize fuel) (tokenize fuel').
Proof.
  intros Hle. pose proof (fun t => tokenizeLoop_Settled fuel fuel' t Hle).
  unfold tokenize. settled.
Qed.

End MoreScanFacts.

Lemma Yields_ret {St A} (Q : A -> Prop) (a : A) : Q a -> Yields Q (@ret St A a).
Proof. intros H s a' s' [= <- <-]. exact H. Qed.

Lemma Yields_throw {St A} (Q : A -> Prop) e : Yields Q (@throw St A e).
Proof. intros s a s' H. discriminate H. Qed.

Lemma Yields_outOfFuel {St A} (Q : A -> Prop) : Yields Q (@outOfFuel St A).
Proof. intros s a s' H. discriminate H. Qed.

Lemma Yields_bind {St A B} (P : A -> Prop) (Q : B -> Prop)
    (m : M St A) (k : A -> M St B) :
  Yields P m -> (forall a, P a -> Yields Q (k a)) -> Yields Q (bind m k).
Proof.
  intros Hm Hk s b s' H. apply bind_Ok in H as (a & s1 & H1 & H2).
  exact (Hk a (Hm _ _ _ H1) _ _ _ H2).
Qed.

Lemma Yields_any {St A} (m : M St A) : Yields (fun _ => True) m.
Proof. intros s a s' _. exact I. Qed.

Lemma Yields_then {St A B} (Q : B -> Prop) (m : M St A) (k : A -> M St B) :
  (forall a, Yields Q (k a)) -> Yields Q (bind m k).
Proof. intros Hk. apply (Yields_bind (fun _ => True)); [apply Yields_any|auto]. Qed.

Module EndFacts.
Import Lexer.

Lemma KEYWORDS_not_EOF (v : string) : KEYWORDS v <> Some EOF.
Proof.
  unfold KEYWORDS.
  repeat match goal with
         | |- (if ?b then _ else _) <> _ => destruct b; [discriminate|]
         end.
  discriminate.
Qed.

Lemma readNumber_type fuel : Yields (fun t => type t = NUMBER) (readNumber fuel).
Proof.
  unfold readNumber. repeat (apply Yields_then; intros ?).
  match goal with |- Yields _ (if ?b then _ else _) => destruct b end;
    repeat (apply Yields_then; intros ?); now apply Yields_ret.
Qed.

Lemma readString_type fuel : Yields (fun t => type t = STRING) (readString fuel).
Proof.
  unfold readString. repeat (apply Yields_then; intros ?).
  match goal with |- Yields _ (if ?b then _ else _) => destruct b end;
    [apply Yields_throw|].
  apply Yields_then; intros ?. now apply Yields_ret.
Qed.

Lemma readIdentifier_type fuel :
  Yields (fun t => type t <> EOF) (readIdentifier fuel).
Proof.
  unfold readIdentifier. repeat (apply Yields_then; intros ?).
  apply Yields_ret. simpl.
  match goal with |- context [KEYWORDS ?v] =>
    pose proof (KEYWORDS_not_EOF v); destruct (KEYWORDS v) end;
    congruence.
Qed.

Lemma twoCharToken_not_EOF c nx ty text :
  twoCharToken c nx = Some (ty, text) -> ty <> EOF.
Proof.
  unfold twoCharToken.
  repeat match goal with
         | |- (if ?b then _ else _) = _ -> _ =>
             destruct b; [intros [= <- <-]; discriminate|]
         end.
  discriminate.
Qed.

Lemma singleCharToken_not_EOF c ty : singleCharToken c = Some ty -> ty <> EOF.
Proof.
  unfold singleCharToken.
  repeat match goal with
         | |- (if ?b then _ else _) = _ -> _ =>
             destruct b; [intros [= <-]; discriminate|]
         end.
  discriminate.
Qed.

Lemma tokenizeTurn_pushesNoEOF fuel : Yields pushesNoEOF (tokenizeTurn fuel).
Proof.
  unfold tokenizeTurn. do 3 (apply Yields_then; intros ?).
  destruct (Ascii.eqb a1 NUL); [now apply Yields_ret|].
  apply Yields_then; intros loc.
  destruct (Ascii.eqb a1 LF).
  { apply Yields_then; intros ?. apply Yields_ret. discriminate. }
  destruct (isDigit a1).
  { eapply Yields_bind; [apply readNumber_type|]. intros t Ht.
    apply Yields_ret. simpl. congruence. }
  destruct (Ascii.eqb a1 DQUOTE || Ascii.eqb a1 SQUOTE).
  { eapply Yields_bind; [apply readString_type|]. intros t Ht.
    apply Yields_ret. simpl. congruence. }
  destruct (isIdentStart a1).
  { eapply Yields_bind; [apply readIdentifier_type|]. intros t Ht.
    now apply Yields_ret. }
  apply Yields_then; intros nx.
  destruct (twoCharToken a1 nx) as [[ty text]|] eqn:E2.
  { do 2 (apply Yields_then; intros ?). apply Yields_ret. simpl.
    eapply twoCharToken_not_EOF, E2. }
  apply Yields_then; intros char.
  destruct (singleCharToken char) as [ty|] eqn:E1; [|apply Yields_throw].
  apply Yields_ret. simpl. eapply singleCharToken_not_EOF, E1.
Qed.

Lemma tokenizeLoop_noEOF (fuel : nat) :
  forall tokens lx tokens' lx',
    Forall (fun t => type t <> EOF) tokens ->
    tokenizeLoop fuel tokens lx = Ok tokens' lx' ->
    Forall (fun t => type t <> EOF) tokens'.
Proof.
  induction fuel as [|fuel IH]; intros tokens lx tokens' lx' F H;
    [discriminate|].
  simpl in H. unfold bind at 1 in H. unfold getCurrent at 1 in H.
  destruct (Ascii.eqb (current lx) NUL).
  - now injection H as <- <-.
  - apply bind_Ok in H as (turn & l1 & H1 & H).
    pose proof (tokenizeTurn_pushesNoEOF fuel _ _ _ H1) as P.
    destruct turn as [|t].
    + now injection H as <- <-.
    + eapply IH; [|exact H]. apply Forall_app. split; [assumption|].
      constructor; [exact P|constructor].
Qed.

Lemma tokenize_ends_with_EOF
    (fuel : nat) (lx lx' : Lexer) (toks : list Token) :
  tokenize fuel lx = Ok toks lx' ->
  exists pre,
    toks = (pre ++ [mkToken EOF EmptyString (here lx')])%list
    /\ Forall (fun t => type t <> EOF) pre
    /\ current lx' = NUL.
Proof.
  unfold tokenize. intros H.
  apply bind_Ok in H as (pre & l1 & H1 & H).
  unfold bind, getHere, ret in H. injection H as <- <-.
  exists pre. split; [reflexivity|]. split.
  - eapply tokenizeLoop_noEOF; [|exact H1]. constructor.
  - eapply LexerFacts.tokenizeLoop_ends, H1.
Qed.

End EndFacts.

(** X1: the tokens [tokenize] returns are tokens that are not end-of-input
    tokens, followed by one end-of-input token, which has the empty text and
    the line and column the scan stopped at; and the scan stopped on
    ['\0']. *)
Theorem X1_tokens_end_with_one_EOF
    (fuel : nat) (lx lx' : Lexer.Lexer) (toks : list Token) :
  Lexer.tokenize fuel lx = Ok toks lx' ->
  exists pre,
    toks = (pre ++ [mkToken EOF EmptyString (Lexer.here lx')])%list
    /\ Forall (fun t => type t <> EOF) pre
    /\ Lexer.current lx' = NUL.
Proof. apply EndFacts.tokenize_ends_with_EOF. Qed.

Lemma X1_tokens_end_with_one_EOF_witness :
  exists pre,
    [mkToken IDENTIFIER "x" (mkLoc 1 1); mkToken EOF EmptyString (mkLoc 1 2)]
    = (pre ++ [mkToken EOF EmptyString (mkLoc 1 2)])%list
    /\ Forall (fun t => type t <> EOF) pre
    /\ Lexer.current (Lexer.mkLexer "x" 1 1 2) = NUL.
Proof.
  exact (X1_tokens_end_with_one_EOF 5 (Lexer.new "x")
           (Lexer.mkLexer "x" 1 1 2)
           [mkToken IDENTIFIER "x" (mkLoc 1 1);
            mkToken EOF EmptyString (mkLoc 1 2)] eq_refl).
Defined.

Module CommentFacts.
Import Lexer ScanNotions MoreScanNotions.

(** Past the last line feed of the text, the loop of [skipComment] has no
    end. *)
Lemma skipCommentLoop_open (fuel : nat) :
  forall lx, endsLine (dropChars (pos lx) (source lx)) = false ->
             skipCommentLoop fuel lx = OutOfFuel.
Proof.
  induction fuel as [|fuel IH]; intros lx H; [reflexivity|].
  simpl. unfold bind at 1. unfold getState at 1.
  assert (G : commentGoesOn lx = true).
  { unfold commentGoesOn. rewrite LexerFacts.charAt_dropChars.
    destruct (dropChars (pos lx) (source lx)) as [|c r]; [reflexivity|].
    simpl in H. apply orb_false_iff in H as [H _].
    apply orb_false_iff in H as [-> ->]. reflexivity. }
  rewrite G.
  destruct (LexerFacts.advance_run lx) as (l1 & A1 & S1 & P1).
  rewrite (bind_run _ _ _ _ _ A1). apply IH.
  rewrite S1, P1, LexerFacts.dropChars_S.
  destruct (dropChars (pos lx) (source lx)) as [|c r]; [reflexivity|].
  simpl in H. now apply orb_false_iff in H as [_ H].
Qed.

Lemma skipComment_open (fuel : nat) (lx : Lexer) :
  current lx = "/"%char -> peek 1 lx = "/"%char ->
  endsLine (dropChars (pos lx + 2) (source lx)) = false ->
  skipComment fuel lx = OutOfFuel.
Proof.
  intros C P H. unfold skipComment, bind, getCurrent, getPeek, getState, putState.
  rewrite C, P. simpl. now apply skipCommentLoop_open.
Qed.

(** From where no turn of the main loop ends, the main loop does not end,
    and neither does it from where it started. *)
Lemma Reaches_never (lx0 lx : Lexer) (tokens : list Token) :
  Reaches lx0 lx tokens ->
  (forall f acc, tokenizeLoop f acc lx = OutOfFuel) ->
  forall f acc, tokenizeLoop f acc lx0 = OutOfFuel.
Proof.
  induction 1 as [|lx tokens fuel t lx' Hr IH C H]; intros N; [exact N|].
  apply IH. intros f acc. destruct f as [|f]; [reflexivity|].
  simpl. unfold bind at 1. unfold getCurrent at 1.
  apply Ascii.eqb_neq in C. rewrite C.
  unfold bind. destruct (tokenizeTurn f lx) as [turn l1| e |] eqn:E;
    [| |reflexivity].
  - destruct (Nat.le_ge_cases f fuel) as [Hle|Hle].
    + rewrite (MoreScanFacts.tokenizeTurn_Settled f fuel Hle lx) in H
        by (rewrite E; discriminate).
      rewrite E in H. injection H as -> ->. apply N.
    + rewrite (MoreScanFacts.tokenizeTurn_Settled fuel f Hle lx) in E
        by (rewrite H; discriminate).
      rewrite H in E. injection E as <- <-. apply N.
  - exfalso. destruct (Nat.le_ge_cases f fuel) as [Hle|Hle].
    + rewrite (MoreScanFacts.tokenizeTurn_Settled f fuel Hle lx) in H
        by (rewrite E; discriminate).
      rewrite E in H. discriminate H.
    + rewrite (MoreScanFacts.tokenizeTurn_Settled fuel f Hle lx) in E
        by (rewrite H; discriminate).
      rewrite H in E. discriminate E.
Qed.

End CommentFacts.

(** X2: when the scan of a text gets, past blanks, to [//] and neither a
    line feed nor a ['\0'] comes after it, [tokenize] does not return and
    does not throw, whatever the fuel: the loop of [skipComment] tests
    [this.source[this.pos]], which is [undefined] past the end of the text,
    and goes on. *)
Theorem X2_comment_at_end_of_text_never_ends
    (src : string) (lx lw : Lexer.Lexer) (tokens : list Token) (fuel1 : nat) :
  ScanNotions.Reaches (Lexer.new src) lx tokens ->
  Lexer.skipWhitespace fuel1 lx = Ok tt lw ->
  Lexer.current lw = "/"%char -> Lexer.peek 1 lw = "/"%char ->
  endsLine (dropChars (Lexer.pos lw + 2) src) = false ->
  forall fuel, Lexer.tokenize fuel (Lexer.new src) = OutOfFuel.
Proof.
  intros HR W C P E fuel.
  destruct (ScanFacts.Reaches_Tracked _ _ _ HR (ScanFacts.Tracked_new src))
    as [T Hsrc].
  simpl in Hsrc.
  destruct (ScanFacts.Keeps_skipWhitespace _ _ _ _ T W) as [_ Hw].
  assert (K : forall f, Lexer.skipComment f lw = OutOfFuel).
  { intros f. apply CommentFacts.skipComment_open; try assumption.
    now rewrite Hw, Hsrc. }
  assert (Cx : Lexer.current lx <> NUL).
  { intros Cx. destruct fuel1 as [|fuel1]; [discriminate W|].
    simpl in W. unfold bind, Lexer.getCurrent in W. rewrite Cx in W.
    simpl in W. injection W as <-. rewrite Cx in C. discriminate C. }
  assert (N : forall f, Lexer.tokenizeTurn f lx = OutOfFuel).
  { intros f. unfold Lexer.tokenizeTurn. unfold bind at 1.
    destruct (Lexer.skipWhitespace f lx) as [[] l1| e |] eqn:E1;
      [| |reflexivity].
    - assert (l1 = lw) as ->.
      { destruct (Nat.le_ge_cases f fuel1) as [Hle|Hle].
        + rewrite (MoreScanFacts.skipWhitespace_Settled f fuel1 Hle lx) in W
            by (rewrite E1; discriminate).
          rewrite E1 in W. now injection W.
        + rewrite (MoreScanFacts.skipWhitespace_Settled fuel1 f Hle lx) in E1
            by (rewrite W; discriminate).
          rewrite W in E1. now injection E1. }
      unfold bind at 1. now rewrite K.
    - exfalso. destruct (Nat.le_ge_cases f fuel1) as [Hle|Hle].
      + rewrite (MoreScanFacts.skipWhitespace_Settled f fuel1 Hle lx) in W
          by (rewrite E1; discriminate).
        rewrite E1 in W. discriminate W.
      + rewrite (MoreScanFacts.skipWhitespace_Settled fuel1 f Hle lx) in E1
          by (rewrite W; discriminate).
        rewrite W in E1. discriminate E1. }
  unfold Lexer.tokenize, bind.
  rewrite (CommentFacts.Reaches_never _ _ _ HR); [reflexivity|].
  intros f acc. destruct f as [|f]; [reflexivity|].
  simpl. unfold bind at 1. unfold Lexer.getCurrent at 1.
  apply Ascii.eqb_neq in Cx. rewrite Cx. unfold bind. now rewrite N.
Qed.

Lemma X2_comment_at_end_of_text_never_ends_witness :
  endsLine (dropChars 4 "x // c") = false
  /\ forall fuel, Lexer.tokenize fuel (Lexer.new "x // c") = OutOfFuel.
Proof.
  split; [reflexivity|].
  refine (X2_comment_at_end_of_text_never_ends "x // c"
            (Lexer.mkLexer "x // c" 1 1 2) (Lexer.mkLexer "x // c" 2 1 3)
            [mkToken IDENTIFIER "x" (mkLoc 1 1)] 5 _ _ _ _ _).
  - eapply (ScanNotions.Reaches_turn _ _ [] 5).
    + apply ScanNotions.Reaches_start.
    + vm_compute. discriminate.
    + vm_compute. reflexivity.
  - vm_compute. reflexivity.
  - vm_compute. reflexivity.
  - vm_compute. reflexivity.
  - vm_compute. reflexivity.
Defined.

Module MoveFacts.
Import Lexer ScanNotions MoveNotions.

Lemma Moved_refl lx : Moved 0 lx lx.
Proof. unfold Moved. repeat split; auto; lia. Qed.

Lemma Moved_trans d1 d2 l1 l2 l3 :
  Moved d1 l1 l2 -> Moved d2 l2 l3 -> Moved (d1 + d2) l1 l3.
Proof.
  unfold Moved. intros (S1 & P1 & I1) (S2 & P2 & I2).
  repeat split; [congruence|lia|auto].
Qed.

Lemma Moved_less d d' l1 l2 : d' <= d -> Moved d l1 l2 -> Moved d' l1 l2.
Proof. unfold Moved. intros Hle (S1 & P1 & I1). repeat split; auto; lia. Qed.

Lemma in_text (lx : Lexer) :
  current lx <> NUL -> pos lx < String.length (source lx).
Proof. intros H. eapply LexerFacts.charAt_lt, LexerFacts.current_not_NUL, H. Qed.

Lemma advance_inv (lx : Lexer) (c : ascii) (lx' : Lexer) :
  advance lx = Ok c lx' ->
  c = current lx /\ source lx' = source lx /\ pos lx' = S (pos lx).
Proof.
  unfold advance. destruct (Ascii.eqb (current lx) LF);
    intros [= <- <-]; auto.
Qed.

(** An [advance] on a character of the text. *)
Lemma advance_Moved (lx : Lexer) (c : ascii) (lx' : Lexer) :
  current lx <> NUL -> advance lx = Ok c lx' -> Moved 1 lx lx'.
Proof.
  intros C H. apply advance_inv in H as (_ & S1 & P1). apply in_text in C.
  unfold Moved, InText. rewrite S1, P1. repeat split; lia.
Qed.

Lemma isBlank_not_NUL c : isBlank c = true -> c <> NUL.
Proof. intros H ->. discriminate H. Qed.

Lemma isDigit_not_NUL c : isDigit c = true -> c <> NUL.
Proof. intros H ->. discriminate H. Qed.

Lemma isIdentPart_not_NUL c : isIdentPart c = true -> c <> NUL.
Proof. intros H ->. discriminate H. Qed.

Lemma isIdentStart_isIdentPart c : isIdentStart c = true -> isIdentPart c = true.
Proof.
  unfold isIdentStart, isIdentPart. intros H.
  apply orb_true_iff in H as [H| ->]; [|now rewrite !orb_true_r].
  apply orb_true_iff in H as [-> | ->]; [reflexivity|].
  now rewrite orb_true_r.
Qed.

Lemma skipWhitespace_Moved (fuel : nat) :
  forall lx u lx', skipWhitespace fuel lx = Ok u lx' -> Moved 0 lx lx'.
Proof.
  induction fuel as [|fuel IH]; intros lx u lx' H; [discriminate|].
  simpl in H. unfold bind at 1 in H. unfold getCurrent at 1 in H.
  destruct (isBlank (current lx)) eqn:B.
  - apply bind_Ok in H as (c & l1 & A & H).
    apply advance_Moved in A; [|now apply isBlank_not_NUL].
    apply IH in H. apply (Moved_less 1 0); [lia|].
    apply (Moved_trans 1 0 _ _ _ A H).
  - injection H as <- <-. apply Moved_refl.
Qed.

Lemma readDigits_Moved (fuel : nat) :
  forall value lx v lx',
    readDigits fuel value lx = Ok v lx' ->
    Moved (if isDigit (current lx) then 1 else 0) lx lx'.
Proof.
  induction fuel as [|fuel IH]; intros value lx v lx' H; [discriminate|].
  simpl in H. unfold bind at 1 in H. unfold getCurrent at 1 in H.
  destruct (isDigit (current lx)) eqn:B.
  - apply bind_Ok in H as (c & l1 & A & H).
    apply advance_Moved in A; [|now apply isDigit_not_NUL].
    apply IH in H. apply (Moved_less _ 0) in H; [|lia].
    apply (Moved_trans 1 0 _ _ _ A H).
  - injection H as <- <-. apply Moved_refl.
Qed.

Lemma readIdentifierLoop_Moved (fuel : nat) :
  forall value lx v lx',
    readIdentifierLoop fuel value lx = Ok v lx' ->
    Moved (if isIdentPart (current lx) then 1 else 0) lx lx'.
Proof.
  induction fuel as [|fuel IH]; intros value lx v lx' H; [discriminate|].
  simpl in H. unfold bind at 1 in H. unfold getCurrent at 1 in H.
  destruct (isIdentPart (current lx)) eqn:B.
  - apply bind_Ok in H as (c & l1 & A & H).
    apply advance_Moved in A; [|now apply isIdentPart_not_NUL].
    apply IH in H. apply (Moved_less _ 0) in H; [|lia].
    apply (Moved_trans 1 0 _ _ _ A H).
  - injection H as <- <-. apply Moved_refl.
Qed.

(** The loop of [skipComment] stops on a character of the text. *)
Lemma skipCommentLoop_inv (fuel : nat) :
  forall lx u lx',
    skipCommentLoop fuel lx = Ok u lx' ->
    source lx' = source lx /\ pos lx <= pos lx'
    /\ pos lx' < String.length (source lx').
Proof.
  induction fuel as [|fuel IH]; intros lx u lx' H; [discriminate|].
  simpl in H. unfold bind at 1 in H. unfold getState at 1 in H.
  destruct (commentGoesOn lx) eqn:G.
  - apply bind_Ok in H as (c & l1 & A & H).
    apply advance_inv in A as (_ & S1 & P1).
    apply IH in H as (S2 & P2 & I2). repeat split; [congruence|lia|assumption].
  - injection H as <- <-. repeat split; [lia|].
    unfold commentGoesOn in G.
    destruct (charAt (source lx) (pos lx)) eqn:E; [|discriminate].
    eapply LexerFacts.charAt_lt, E.
Qed.

Lemma skipComment_Moved (fuel : nat) (lx : Lexer) (u : unit) (lx' : Lexer) :
  skipComment fuel lx = Ok u lx' -> Moved 0 lx lx'.
Proof.
  unfold skipComment. unfold bind at 1. unfold getCurrent at 1.
  unfold bind at 1. unfold getPeek at 1.
  destruct (Ascii.eqb (current lx) "/" && Ascii.eqb (peek 1 lx) "/").
  - unfold bind at 1. unfold getState at 1.
    unfold bind at 1. unfold putState at 1.
    intros H. apply skipCommentLoop_inv in H as (S1 & P1 & I1).
    simpl in S1, P1. unfold Moved, InText. rewrite S1 in *.
    repeat split; lia.
  - intros H. injection H as _ <-. apply Moved_refl.
Qed.

Lemma skipBlanksAndComment_Moved (fuel : nat) (lx : Lexer) (u : unit)
    (lx' : Lexer) :
  skipBlanksAndComment fuel lx = Ok u lx' -> Moved 0 lx lx'.
Proof.
  unfold skipBlanksAndComment. intros H.
  apply bind_Ok in H as (u1 & l1 & W & K).
  apply skipWhitespace_Moved in W. apply skipComment_Moved in K.
  apply (Moved_trans 0 0 _ _ _ W K).
Qed.

Lemma readStringLoop_inv (fuel : nat) :
  forall quote value lx v lx',
    readStringLoop fuel quote value lx = Ok v lx' ->
    source lx' = source lx /\ pos lx <= pos lx'.
Proof.
  induction fuel as [|fuel IH]; intros quote value lx v lx' H; [discriminate|].
  simpl in H. unfold bind at 1 in H. unfold getCurrent at 1 in H.
  destruct (negb (Ascii.eqb (current lx) quote)
            && negb (Ascii.eqb (current lx) NUL)).
  - destruct (Ascii.eqb (current lx) BACKSLASH).
    + apply bind_Ok in H as (c1 & l1 & A1 & H).
      apply bind_Ok in H as (c2 & l2 & A2 & H).
      apply advance_inv in A1 as (_ & S1 & P1).
      apply advance_inv in A2 as (_ & S2 & P2).
      apply IH in H as (S3 & P3). split; [congruence|lia].
    + apply bind_Ok in H as (c1 & l1 & A1 & H).
      apply advance_inv in A1 as (_ & S1 & P1).
      apply IH in H as (S3 & P3). split; [congruence|lia].
  - injection H as <- <-. split; [reflexivity|lia].
Qed.

(** The three readers: the token has the line and column the reader was
    called at. *)
Lemma readString_inv (fuel : nat) (lx : Lexer) (t : Token) (lx' : Lexer) :
  readString fuel lx = Ok t lx' ->
  loc t = here lx /\ type t = STRING /\ source lx' = source lx
  /\ pos lx < pos lx' /\ InText lx'.
Proof.
  unfold readString. unfold bind at 1. unfold getHere at 1. intros H.
  apply bind_Ok in H as (q & l1 & A1 & H).
  apply bind_Ok in H as (v & l2 & R & H).
  unfold bind at 1 in H. unfold getCurrent at 1 in H.
  destruct (Ascii.eqb (current l2) NUL) eqn:E; [discriminate H|].
  apply bind_Ok in H as (c & l3 & A3 & H). injection H as <- <-.
  apply advance_inv in A1 as (_ & S1 & P1).
  apply readStringLoop_inv in R as (S2 & P2).
  apply Ascii.eqb_neq in E. apply advance_Moved in A3; [|assumption].
  destruct A3 as (S3 & P3 & I3). apply in_text in E.
  repeat split; simpl; [congruence|lia|]. apply I3. unfold InText. lia.
Qed.

Lemma readNumber_inv (fuel : nat) (lx : Lexer) (t : Token) (lx' : Lexer) :
  readNumber fuel lx = Ok t lx' ->
  loc t = here lx /\ type t = NUMBER
  /\ Moved (if isDigit (current lx) then 1 else 0) lx lx'.
Proof.
  unfold readNumber. unfold bind at 1. unfold getHere at 1. intros H.
  apply bind_Ok in H as (v & l1 & D1 & H).
  unfold bind at 1 in H. unfold getCurrent at 1 in H.
  unfold bind at 1 in H. unfold getPeek at 1 in H.
  apply readDigits_Moved in D1.
  destruct (Ascii.eqb (current l1) "." && isDigit (peek 1 l1)) eqn:E.
  - apply bind_Ok in H as (dot & l2 & A & H).
    apply bind_Ok in H as (v' & l3 & D2 & H). injection H as <- <-.
    apply andb_true_iff in E as [E _]. apply Ascii.eqb_eq in E.
    apply advance_Moved in A; [|rewrite E; discriminate].
    apply readDigits_Moved in D2. apply (Moved_less _ 0) in D2; [|lia].
    split; [reflexivity|split; [reflexivity|]].
    pose proof (Moved_trans _ _ _ _ _ D1 (Moved_trans _ _ _ _ _ A D2)) as M.
    eapply Moved_less; [|exact M]. destruct (isDigit (current lx)); lia.
  - injection H as <- <-. split; [reflexivity|split; [reflexivity|exact D1]].
Qed.

Lemma readIdentifier_inv (fuel : nat) (lx : Lexer) (t : Token) (lx' : Lexer) :
  readIdentifier fuel lx = Ok t lx' ->
  loc t = here lx
  /\ Moved (if isIdentPart (current lx) then 1 else 0) lx lx'.
Proof.
  unfold readIdentifier. unfold bind at 1. unfold getHere at 1. intros H.
  apply bind_Ok in H as (v & l1 & R & H). injection H as <- <-.
  apply readIdentifierLoop_Moved in R. now split.
Qed.

(** A turn of the main loop that pushes a token: past blanks and a comment
    the cursor is on the first character of the token, whose line and
    column the token has, and the turn ends further on. *)
Lemma tokenizeTurn_inv (fuel : nat) (lx : Lexer) (t : Token) (lx' : Lexer) :
  tokenizeTurn fuel lx = Ok (Push t) lx' ->
  exists lq,
    skipBlanksAndComment fuel lx = Ok tt lq
    /\ loc t = here lq /\ Moved 0 lx lq /\ Moved 1 lq lx'.
Proof.
  unfold tokenizeTurn. intros H.
  apply bind_Ok in H as ([] & l1 & W & H).
  apply bind_Ok in H as ([] & lq & K & H).
  exists lq.
  assert (Sk : skipBlanksAndComment fuel lx = Ok tt lq).
  { unfold skipBlanksAndComment. rewrite (bind_run _ _ _ _ _ W). exact K. }
  split; [exact Sk|]. pose proof (skipBlanksAndComment_Moved _ _ _ _ Sk) as M0.
  cut (loc t = here lq /\ Moved 1 lq lx'); [tauto|].
  clear W K Sk M0 l1 lx.
  unfold bind at 1 in H. unfold getCurrent at 1 in H.
  destruct (Ascii.eqb (current lq) NUL) eqn:E0; [discriminate H|].
  apply Ascii.eqb_neq in E0.
  unfold bind at 1 in H. unfold getHere at 1 in H.
  destruct (Ascii.eqb (current lq) LF).
  { apply bind_Ok in H as (c & l1 & A & H). injection H as <- <-.
    split; [reflexivity|]. eapply advance_Moved; eassumption. }
  destruct (isDigit (current lq)) eqn:ED.
  { apply bind_Ok in H as (t' & l1 & R & H). injection H as <- <-.
    apply readNumber_inv in R as (L & _ & M). now rewrite ED in M. }
  destruct (Ascii.eqb (current lq) DQUOTE || Ascii.eqb (current lq) SQUOTE).
  { apply bind_Ok in H as (t' & l1 & R & H). injection H as <- <-.
    apply readString_inv in R as (L & _ & S1 & P1 & I1).
    split; [assumption|]. unfold Moved. repeat split; auto; lia. }
  destruct (isIdentStart (current lq)) eqn:EI.
  { apply bind_Ok in H as (t' & l1 & R & H). injection H as <- <-.
    apply readIdentifier_inv in R as (L & M).
    now rewrite (isIdentStart_isIdentPart _ EI) in M. }
  unfold bind at 1 in H. unfold getPeek at 1 in H.
  destruct (twoCharToken (current lq) (peek 1 lq)) as [[ty text]|] eqn:E2.
  { apply bind_Ok in H as (c1 & l1 & A1 & H).
    apply bind_Ok in H as (c2 & l2 & A2 & H). injection H as <- <-.
    split; [reflexivity|].
    assert (C2 : current l1 <> NUL).
    { apply advance_inv in A1 as (_ & S1 & P1).
      assert (current l1 = peek 1 lq) as ->.
      { unfold current, peek. now rewrite S1, P1, Nat.add_1_r. }
      intros N. rewrite N in E2. unfold twoCharToken in E2.
      rewrite !andb_false_r in E2. discriminate E2. }
    apply advance_Moved in A1; [|assumption].
    apply advance_Moved in A2; [|assumption].
    eapply Moved_less; [|exact (Moved_trans _ _ _ _ _ A1 A2)]. lia. }
  apply bind_Ok in H as (c & l1 & A & H).
  destruct (singleCharToken c); [|discriminate H]. injection H as <- <-.
  split; [reflexivity|]. eapply advance_Moved; eassumption.
Qed.

End MoveFacts.

Module TextFacts.
Import Lexer ScanNotions MoveNotions MoveFacts.

Lemma substring_0 (s : string) (o : nat) : substring o 0 s = EmptyString.
Proof.
  revert o. induction s as [|c s IH]; intros [|o]; simpl; auto.
Qed.

Lemma substring_step (s : string) :
  forall o n c, charAt s o = Some c ->
    substring o (S n) s = String c (substring (S o) n s).
Proof.
  unfold charAt. induction s as [|a s IH]; intros [|o] n c H;
    simpl in *; try discriminate.
  - injection H as <-. reflexivity.
  - rewrite (IH _ _ _ H). reflexivity.
Qed.

Lemma length_substring (s : string) :
  forall o n, o + n <= String.length s ->
    String.length (substring o n s) = n.
Proof.
  induction s as [|a s IH]; intros [|o] [|n] H; simpl in *;
    try reflexivity; try lia.
  - f_equal. apply IH. simpl. lia.
  - apply IH. lia.
  - apply IH. lia.
Qed.

Lemma substring_app (s : string) :
  forall o n m,
    substring o n s ++ substring (o + n) m s = substring o (n + m) s.
Proof.
  induction s as [|a s IH]; intros o n m.
  - destruct o, n, m; reflexivity.
  - destruct o as [|o]; [|apply IH].
    destruct n as [|n]; [reflexivity|].
    simpl. f_equal. apply (IH 0).
Qed.

Lemma append_str (v : string) (c : ascii) (w : string) :
  (v ++ str c) ++ w = v ++ String c w.
Proof. now rewrite append_assoc. Qed.

(** A loop that appends the characters it consumes, while they pass
    [test]. *)
Lemma readDigits_text (fuel : nat) :
  forall value lx v lx',
    readDigits fuel value lx = Ok v lx' ->
    v = value ++ substring (pos lx) (pos lx' - pos lx) (source lx).
Proof.
  induction fuel as [|fuel IH]; intros value lx v lx' H; [discriminate|].
  simpl in H. unfold bind at 1 in H. unfold getCurrent at 1 in H.
  destruct (isDigit (current lx)) eqn:B.
  - apply bind_Ok in H as (c & l1 & A & H).
    pose proof (readDigits_Moved _ _ _ _ _ H) as (_ & P2 & _).
    apply IH in H. apply advance_inv in A as (-> & S1 & P1).
    rewrite S1, P1 in *. subst v. rewrite append_str. f_equal.
    replace (pos lx' - pos lx) with (S (pos lx' - S (pos lx))) by lia.
    symmetry. apply substring_step, LexerFacts.current_not_NUL.
    now apply isDigit_not_NUL.
  - injection H as <- <-. now rewrite Nat.sub_diag, substring_0, append_nil_r.
Qed.

Lemma readIdentifierLoop_text (fuel : nat) :
  forall value lx v lx',
    readIdentifierLoop fuel value lx = Ok v lx' ->
    v = value ++ substring (pos lx) (pos lx' - pos lx) (source lx).
Proof.
  induction fuel as [|fuel IH]; intros value lx v lx' H; [discriminate|].
  simpl in H. unfold bind at 1 in H. unfold getCurrent at 1 in H.
  destruct (isIdentPart (current lx)) eqn:B.
  - apply bind_Ok in H as (c & l1 & A & H).
    pose proof (readIdentifierLoop_Moved _ _ _ _ _ H) as (_ & P2 & _).
    apply IH in H. apply advance_inv in A as (-> & S1 & P1).
    rewrite S1, P1 in *. subst v. rewrite append_str. f_equal.
    replace (pos lx' - pos lx) with (S (pos lx' - S (pos lx))) by lia.
    symmetry. apply substring_step, LexerFacts.current_not_NUL.
    now apply isIdentPart_not_NUL.
  - injection H as <- <-. now rewrite Nat.sub_diag, substring_0, append_nil_r.
Qed.

Lemma readIdentifier_text (fuel : nat) (lx : Lexer) (t : Token) (lx' : Lexer) :
  readIdentifier fuel lx = Ok t lx' ->
  value t = substring (pos lx) (pos lx' - pos lx) (source lx).
Proof.
  unfold readIdentifier. unfold bind at 1. unfold getHere at 1. intros H.
  apply bind_Ok in H as (v & l1 & R & H). injection H as <- <-.
  now apply readIdentifierLoop_text in R.
Qed.

Lemma readNumber_text (fuel : nat) (lx : Lexer) (t : Token) (lx' : Lexer) :
  readNumber fuel lx = Ok t lx' ->
  value t = substring (pos lx) (pos lx' - pos lx) (source lx).
Proof.
  unfold readNumber. unfold bind at 1. unfold getHere at 1. intros H.
  apply bind_Ok in H as (v & l1 & D1 & H).
  unfold bind at 1 in H. unfold getCurrent at 1 in H.
  unfold bind at 1 in H. unfold getPeek at 1 in H.
  pose proof (readDigits_Moved _ _ _ _ _ D1) as (S1 & P1 & _).
  apply readDigits_text in D1.
  destruct (Ascii.eqb (current l1) "." && isDigit (peek 1 l1)) eqn:E.
  - apply bind_Ok in H as (dot & l2 & A & H).
    apply bind_Ok in H as (v' & l3 & D2 & H). injection H as <- <-.
    apply andb_true_iff in E as [E _]. apply Ascii.eqb_eq in E.
    pose proof (readDigits_Moved _ _ _ _ _ D2) as (S3 & P3 & _).
    apply readDigits_text in D2.
    assert (C1 : charAt (source l1) (pos l1) = Some (current l1))
      by (apply LexerFacts.current_not_NUL; rewrite E; discriminate).
    apply advance_inv in A as (-> & S2 & P2).
    simpl. subst v' v. rewrite S2, P2, S1 in *. simpl in *.
    rewrite append_str.
    rewrite <- (substring_step _ _ _ _ C1).
    replace (pos l3 - pos lx)
      with ((pos l1 - pos lx) + S (pos l3 - S (pos l1))) by lia.
    rewrite <- substring_app. do 2 f_equal. lia.
  - injection H as <- <-. simpl. subst v. reflexivity.
Qed.

Lemma twoCharToken_text c nx ty text :
  twoCharToken c nx = Some (ty, text) -> text = String c (str nx).
Proof.
  unfold twoCharToken. intros H.
  repeat match type of H with
         | (if ?t then _ else _) = _ =>
             let E := fresh "E" in
             let Ea := fresh "Ea" in
             let Eb := fresh "Eb" in
             destruct t eqn:E;
             [apply andb_true_iff in E as [Ea Eb];
              apply Ascii.eqb_eq in Ea, Eb; subst c nx;
              injection H as <- <-; reflexivity|]
         end.
  discriminate H.
Qed.

End TextFacts.

Module TurnFacts.
Import Lexer ScanNotions MoveNotions MoveFacts TextFacts.

Lemma tokenizeTurn_text (fuel : nat) (lx : Lexer) (t : Token) (lx' lq : Lexer) :
  tokenizeTurn fuel lx = Ok (Push t) lx' ->
  skipBlanksAndComment fuel lx = Ok tt lq ->
  type t <> STRING -> type t <> NEWLINE ->
  value t = substring (pos lq) (pos lx' - pos lq) (source lq).
Proof.
  unfold tokenizeTurn, skipBlanksAndComment. intros H Sk.
  apply bind_Ok in Sk as ([] & l1 & W & K).
  rewrite (bind_run _ _ _ _ _ W), (bind_run _ _ _ _ _ K) in H.
  clear W K l1 lx.
  unfold bind at 1 in H. unfold getCurrent at 1 in H.
  destruct (Ascii.eqb (current lq) NUL) eqn:E0; [discriminate H|].
  apply Ascii.eqb_neq in E0.
  pose proof (LexerFacts.current_not_NUL _ E0) as C0.
  unfold bind at 1 in H. unfold getHere at 1 in H.
  destruct (Ascii.eqb (current lq) LF).
  { apply bind_Ok in H as (c & l1 & A & H). injection H as <- <-.
    intros _ N. now contradiction N. }
  destruct (isDigit (current lq)) eqn:ED.
  { apply bind_Ok in H as (t' & l1 & R & H). injection H as <- <-.
    intros _ _. exact (readNumber_text _ _ _ _ R). }
  destruct (Ascii.eqb (current lq) DQUOTE || Ascii.eqb (current lq) SQUOTE).
  { apply bind_Ok in H as (t' & l1 & R & H). injection H as <- <-.
    apply readString_inv in R as (_ & T & _). intros N. now contradiction N. }
  destruct (isIdentStart (current lq)) eqn:EI.
  { apply bind_Ok in H as (t' & l1 & R & H). injection H as <- <-.
    intros _ _. exact (readIdentifier_text _ _ _ _ R). }
  unfold bind at 1 in H. unfold getPeek at 1 in H.
  destruct (twoCharToken (current lq) (peek 1 lq)) as [[ty text]|] eqn:E2.
  { apply bind_Ok in H as (c1 & l1 & A1 & H).
    apply bind_Ok in H as (c2 & l2 & A2 & H). injection H as <- <-.
    intros _ _. simpl.
    apply advance_inv in A1 as (_ & S1 & P1).
    apply advance_inv in A2 as (_ & S2 & P2).
    rewrite P2, P1. replace (S (S (pos lq)) - pos lq) with 2 by lia.
    rewrite (twoCharToken_text _ _ _ _ E2).
    assert (C1 : charAt (source lq) (S (pos lq)) = Some (peek 1 lq)).
    { unfold peek in *. rewrite Nat.add_1_r in *.
      destruct (charAt (source lq) (S (pos lq))) eqn:E; [reflexivity|].
      exfalso. unfold twoCharToken in E2.
      rewrite !andb_false_r in E2. discriminate E2. }
    rewrite (substring_step _ _ _ _ C0), (substring_step _ _ _ _ C1).
    now rewrite substring_0. }
  apply bind_Ok in H as (c & l1 & A & H).
  destruct (singleCharToken c); [|discriminate H]. injection H as <- <-.
  intros _ _. simpl. apply advance_inv in A as (-> & S1 & P1).
  rewrite P1. replace (S (pos lq) - pos lq) with 1 by lia.
  now rewrite (substring_step _ _ _ _ C0), substring_0.
Qed.

(** The main loop: the tokens it adds stand at offsets of the text between
    the cursor it started at and the cursor it stopped at, each further than
    the one before. *)
Lemma tokenizeLoop_tokenAt (fuel : nat) :
  forall acc lx toks lx',
    Tracked lx -> InText lx ->
    tokenizeLoop fuel acc lx = Ok toks lx' ->
    exists added offsets,
      toks = (acc ++ added)%list
      /\ Forall2 (tokenAt (source lx)) added offsets
      /\ StronglySorted lt offsets
      /\ Forall (fun o => pos lx <= o < pos lx') offsets
      /\ Tracked lx' /\ InText lx' /\ source lx' = source lx
      /\ pos lx <= pos lx'.
Proof.
  induction fuel as [|fuel IH]; intros acc lx toks lx' T I H; [discriminate|].
  simpl in H. unfold bind at 1 in H. unfold getCurrent at 1 in H.
  destruct (Ascii.eqb (current lx) NUL).
  { injection H as <- <-. exists [], []. rewrite app_nil_r.
    repeat split; auto; constructor. }
  apply bind_Ok in H as (turn & l1 & H1 & H).
  destruct turn as [|t].
  { injection H as <- <-. exists [], []. rewrite app_nil_r.
    destruct (ScanFacts.Keeps_tokenizeTurn _ _ _ _ T H1) as [T1 S1].
    unfold tokenizeTurn in H1.
    apply bind_Ok in H1 as ([] & l2 & W & H1).
    apply bind_Ok in H1 as ([] & l3 & K & H1).
    unfold bind at 1 in H1. unfold getCurrent at 1 in H1.
    assert (l3 = l1) as ->.
    { destruct (Ascii.eqb (current l3) NUL); [now injection H1|].
      exfalso. clear - H1.
      unfold bind at 1 in H1. unfold getHere at 1 in H1.
      repeat match type of H1 with
             | (if ?b then _ else _) _ = _ => destruct b
             end;
        repeat match goal with
          | H : bind _ _ _ = Ok _ _ |- _ =>
              apply bind_Ok in H as (? & ? & _ & H)
          | H : ret _ _ = Ok _ _ |- _ => discriminate H
          | H : (match ?x with _ => _ end) _ = Ok _ _ |- _ => destruct x
          | H : throw _ _ = Ok _ _ |- _ => discriminate H
          end. }
    apply skipWhitespace_Moved in W. apply skipComment_Moved in K.
    destruct (Moved_trans _ _ _ _ _ W K) as (S2 & P2 & I2).
    repeat split; auto; try constructor. simpl in P2. lia. }
  destruct (ScanFacts.Keeps_tokenizeTurn _ _ _ _ T H1) as [T1 S1].
  pose proof (tokenizeTurn_inv _ _ _ _ H1) as (lq & Sk & L & M0 & M1).
  destruct (skipBlanksAndComment_Keeps _ _ _ _ T Sk) as [Tq Sq].
  destruct M0 as (_ & P0 & I0). destruct M1 as (_ & P1 & I1).
  specialize (I0 I). specialize (I1 I0).
  apply IH in H as (added & offsets & -> & F2 & Srt & Fo & T' & I' & S' & P');
    [|assumption|assumption].
  exists (t :: added), (pos lq :: offsets).
  rewrite <- app_assoc. simpl.
  split; [reflexivity|]. split.
  { constructor.
    - unfold tokenAt. split; [|split].
      + rewrite L. unfold Tracked in Tq. now rewrite Tq, Sq.
      + unfold InText in I0. now rewrite Sq in I0.
      + intros N1 N2. rewrite (tokenizeTurn_text _ _ _ _ _ H1 Sk N1 N2).
        rewrite Sq. f_equal. rewrite length_substring; [reflexivity|].
        unfold InText in I1. rewrite S1 in I1. lia.
    - now rewrite S1 in F2. }
  split.
  { constructor; [assumption|].
    eapply Forall_impl; [|exact Fo]. simpl. intros o Ho. lia. }
  split.
  { constructor; [lia|].
    eapply Forall_impl; [|exact Fo]. simpl. intros o Ho. lia. }
  repeat split; auto; [congruence|lia].
Qed.

Lemma StronglySorted_snoc (l : list nat) (x : nat) :
  StronglySorted lt l -> Forall (fun o => o < x) l ->
  StronglySorted lt (l ++ [x]).
Proof.
  induction 1 as [|a l S IH F]; intros B; simpl.
  - repeat constructor.
  - inversion B; subst. constructor; [auto|].
    apply Forall_app. split; [assumption|]. now constructor.
Qed.

Lemma tokenize_tokenAt
    (fuel : nat) (src : string) (toks : list Token) (lx' : Lexer) :
  tokenize fuel (new src) = Ok toks lx' ->
  exists offsets,
    Forall2 (tokenAt src) toks offsets /\ StronglySorted lt offsets.
Proof.
  unfold tokenize. intros H.
  apply bind_Ok in H as (pre & l1 & H1 & H).
  unfold bind, getHere, ret in H. injection H as <- <-.
  apply tokenizeLoop_tokenAt in H1
    as (added & offsets & -> & F2 & Srt & Fo & T' & I' & S' & P');
    [|apply ScanFacts.Tracked_new|unfold InText; simpl; lia].
  simpl in *. exists (offsets ++ [pos l1])%list. split.
  - apply Forall2_app; [assumption|]. constructor; [|constructor].
    unfold tokenAt. simpl. split; [|split].
    + unfold Tracked in T'. now rewrite T', S'.
    + unfold InText in I'. now rewrite S' in I'.
    + intros _ _. now rewrite substring_0.
  - apply StronglySorted_snoc; [assumption|].
    eapply Forall_impl; [|exact Fo]. simpl. intros o Ho. lia.
Qed.

End TurnFacts.

(** X3: the tokens [tokenize] returns for a text stand in the text, at
    offsets that go up from one token to the next: each token has the line
    and column of its offset and, unless it is a string or a line feed, its
    text is the text of the source at that offset; the end-of-input token
    stands where the scan stopped. *)
Theorem X3_tokens_stand_in_the_text
    (fuel : nat) (src : string) (toks : list Token) (lx' : Lexer.Lexer) :
  Lexer.tokenize fuel (Lexer.new src) = Ok toks lx' ->
  exists offsets,
    Forall2 (tokenAt src) toks offsets /\ StronglySorted lt offsets.
Proof. apply TurnFacts.tokenize_tokenAt. Qed.

Lemma X3_tokens_stand_in_the_text_witness :
  exists offsets,
    Forall2 (tokenAt ("ab" ++ LFs ++ " >= 12"))
      [mkToken IDENTIFIER "ab" (mkLoc 1 1); mkToken NEWLINE "\n" (mkLoc 1 3);
       mkToken GTE ">=" (mkLoc 2 2); mkToken NUMBER "12" (mkLoc 2 5);
       mkToken EOF EmptyString (mkLoc 2 7)]
      offsets
    /\ StronglySorted lt offsets.
Proof.
  exact (X3_tokens_stand_in_the_text 10 ("ab" ++ LFs ++ " >= 12") _
           (Lexer.mkLexer ("ab" ++ LFs ++ " >= 12") 9 2 7) eq_refl).
Defined.

Module RunFacts.
Import Lexer ScanNotions MoveNotions MoveFacts.


Lemma skipWhitespace_runs (fuel : nat) :
  forall lx, remaining lx < fuel -> exists lx', skipWhitespace fuel lx = Ok tt lx'.
Proof.
  induction fuel as [|fuel IH]; intros lx Hf; [lia|]. unfold remaining in *.
  simpl. unfold bind at 1. unfold getCurrent at 1.
  destruct (isBlank (current lx)) eqn:B; [|eexists; reflexivity].
  apply isBlank_not_NUL, in_text in B.
  destruct (LexerFacts.advance_run lx) as (l1 & A1 & S1 & P1).
  rewrite (bind_run _ _ _ _ _ A1). apply IH. rewrite S1, P1. lia.
Qed.

Lemma readDigits_runs (fuel : nat) :
  forall value lx, remaining lx < fuel ->
    exists v lx', readDigits fuel value lx = Ok v lx'.
Proof.
  induction fuel as [|fuel IH]; intros value lx Hf; [lia|]. unfold remaining in *.
  simpl. unfold bind at 1. unfold getCurrent at 1.
  destruct (isDigit (current lx)) eqn:B; [|eexists _, _; reflexivity].
  apply isDigit_not_NUL, in_text in B.
  destruct (LexerFacts.advance_run lx) as (l1 & A1 & S1 & P1).
  rewrite (bind_run _ _ _ _ _ A1). apply IH. rewrite S1, P1. lia.
Qed.

Lemma readIdentifierLoop_runs (fuel : nat) :
  forall value lx, remaining lx < fuel ->
    exists v lx', readIdentifierLoop fuel value lx = Ok v lx'.
Proof.
  induction fuel as [|fuel IH]; intros value lx Hf; [lia|]. unfold remaining in *.
  simpl. unfold bind at 1. unfold getCurrent at 1.
  destruct (isIdentPart (current lx)) eqn:B; [|eexists _, _; reflexivity].
  apply isIdentPart_not_NUL, in_text in B.
  destruct (LexerFacts.advance_run lx) as (l1 & A1 & S1 & P1).
  rewrite (bind_run _ _ _ _ _ A1). apply IH. rewrite S1, P1. lia.
Qed.

Lemma skipCommentLoop_runs (fuel : nat) :
  forall lx, endsLine (dropChars (pos lx) (source lx)) = true ->
             remaining lx < fuel ->
             exists lx', skipCommentLoop fuel lx = Ok tt lx'.
Proof.
  induction fuel as [|fuel IH]; intros lx E Hf; [lia|]. unfold remaining in *.
  simpl. unfold bind at 1. unfold getState at 1.
  unfold commentGoesOn. pose proof (LexerFacts.charAt_dropChars (source lx) (pos lx)) as C.
  pose proof (LexerFacts.dropChars_S (source lx) (pos lx)) as D.
  destruct (dropChars (pos lx) (source lx)) as [|c r]; [discriminate E|].
  rewrite C. simpl in E.
  destruct (Ascii.eqb c LF); [eexists; reflexivity|].
  destruct (Ascii.eqb c NUL); [eexists; reflexivity|]. simpl in E |- *.
  apply LexerFacts.charAt_lt in C.
  destruct (LexerFacts.advance_run lx) as (l1 & A1 & S1 & P1).
  rewrite (bind_run _ _ _ _ _ A1). apply IH.
  - now rewrite S1, P1, D.
  - rewrite S1, P1. lia.
Qed.

(** In a text whose comments end, the characters after two slashes hold a
    line feed or a ['\0']. *)
Lemma commentsEnd_at (s : string) :
  commentsEnd s = true ->
  forall i, charAt s i = Some "/"%char -> charAt s (S i) = Some "/"%char ->
            endsLine (dropChars (S (S i)) s) = true.
Proof.
  unfold charAt. induction s as [|c s IH]; intros H i C1 C2; [discriminate|].
  destruct s as [|c' s']; [destruct i; discriminate|].
  change (commentsEnd (String c (String c' s')))
    with ((if Ascii.eqb c "/" && Ascii.eqb c' "/" then endsLine s' else true)
          && commentsEnd (String c' s')) in H.
  apply andb_true_iff in H as [H1 H2].
  destruct i as [|i].
  - simpl in C1, C2. injection C1 as ->. injection C2 as ->. exact H1.
  - apply (IH H2 i); assumption.
Qed.

Lemma skipComment_runs (fuel : nat) (lx : Lexer) :
  commentsEnd (source lx) = true -> remaining lx < fuel ->
  exists lx', skipComment fuel lx = Ok tt lx'.
Proof.
  intros E Hf. unfold remaining in *. unfold skipComment.
  unfold bind at 1. unfold getCurrent at 1.
  unfold bind at 1. unfold getPeek at 1.
  destruct (Ascii.eqb (current lx) "/" && Ascii.eqb (peek 1 lx) "/") eqn:B;
    [|eexists; reflexivity].
  unfold bind at 1. unfold getState at 1.
  unfold bind at 1. unfold putState at 1.
  apply andb_true_iff in B as [B1 B2]. apply Ascii.eqb_eq in B1, B2.
  assert (C1 : charAt (source lx) (pos lx) = Some "/"%char).
  { rewrite <- B1. apply LexerFacts.current_not_NUL. now rewrite B1. }
  assert (C2 : charAt (source lx) (S (pos lx)) = Some "/"%char).
  { unfold peek in B2. rewrite Nat.add_1_r in B2.
    destruct (charAt (source lx) (S (pos lx))); [now subst|discriminate]. }
  apply skipCommentLoop_runs; simpl.
  - rewrite Nat.add_succ_r, Nat.add_succ_r, Nat.add_0_r.
    now apply commentsEnd_at.
  - unfold remaining. simpl. lia.
Qed.

Lemma Done_bind {St A B} (m : M St A) (k : A -> M St B) (s : St) :
  Done (m s) -> (forall a s', m s = Ok a s' -> Done (k a s')) ->
  Done (bind m k s).
Proof.
  unfold Done, bind. intros Hm Hk. destruct (m s) as [a s'| e |];
    [now apply Hk|discriminate|now contradiction Hm].
Qed.

Lemma readString_runs (fuel : nat) (lx : Lexer) :
  current lx <> NUL -> remaining lx < fuel -> Done (readString fuel lx).
Proof.
  intros C Hf. unfold remaining in *. pose proof (in_text _ C) as I.
  unfold readString.
  unfold bind at 1. unfold getHere at 1.
  destruct (LexerFacts.advance_run lx) as (l1 & A1 & S1 & P1).
  rewrite (bind_run _ _ _ _ _ A1).
  destruct (LexerFacts.readStringLoop_closes (current lx) fuel C
              EmptyString l1) as (v & l2 & R & _).
  { rewrite S1, P1, LexerFacts.length_dropChars. lia. }
  rewrite (bind_run _ _ _ _ _ R). unfold bind at 1. unfold getCurrent at 1.
  destruct (Ascii.eqb (current l2) NUL); [discriminate|].
  destruct (LexerFacts.advance_run l2) as (l3 & A3 & _).
  rewrite (bind_run _ _ _ _ _ A3). discriminate.
Qed.

Lemma readNumber_runs (fuel : nat) (lx : Lexer) :
  remaining lx < fuel -> Done (readNumber fuel lx).
Proof.
  intros Hf. unfold readNumber. unfold bind at 1. unfold getHere at 1.
  destruct (readDigits_runs fuel EmptyString lx Hf) as (v & l1 & D1).
  rewrite (bind_run _ _ _ _ _ D1).
  apply readDigits_Moved in D1 as (S1 & P1 & _).
  unfold bind at 1. unfold getCurrent at 1.
  unfold bind at 1. unfold getPeek at 1.
  destruct (Ascii.eqb (current l1) "." && isDigit (peek 1 l1));
    [|discriminate].
  destruct (LexerFacts.advance_run l1) as (l2 & A2 & S2 & P2).
  rewrite (bind_run _ _ _ _ _ A2).
  destruct (readDigits_runs fuel (v ++ str (current l1)) l2) as (v' & l3 & D2).
  { unfold remaining in *. rewrite S2, P2, S1. lia. }
  rewrite (bind_run _ _ _ _ _ D2). discriminate.
Qed.

Lemma readIdentifier_runs (fuel : nat) (lx : Lexer) :
  remaining lx < fuel -> Done (readIdentifier fuel lx).
Proof.
  intros Hf. unfold readIdentifier. unfold bind at 1. unfold getHere at 1.
  destruct (readIdentifierLoop_runs fuel EmptyString lx Hf) as (v & l1 & R).
  rewrite (bind_run _ _ _ _ _ R). discriminate.
Qed.

Lemma tokenizeTurn_runs (fuel : nat) (lx : Lexer) :
  commentsEnd (source lx) = true -> remaining lx < fuel ->
  Done (tokenizeTurn fuel lx).
Proof.
  intros E Hf. unfold tokenizeTurn.
  destruct (skipWhitespace_runs fuel lx Hf) as (l1 & W).
  rewrite (bind_run _ _ _ _ _ W).
  apply skipWhitespace_Moved in W as (S1 & P1 & _).
  destruct (skipComment_runs fuel l1) as (lq & K);
    [now rewrite S1|unfold remaining in *; rewrite S1; lia|].
  rewrite (bind_run _ _ _ _ _ K).
  apply skipComment_Moved in K as (S2 & P2 & _).
  assert (Hq : remaining lq < fuel) by (unfold remaining in *; rewrite S2, S1; lia).
  unfold bind at 1. unfold getCurrent at 1.
  destruct (Ascii.eqb (current lq) NUL) eqn:E0; [discriminate|].
  apply Ascii.eqb_neq in E0.
  unfold bind at 1. unfold getHere at 1.
  destruct (Ascii.eqb (current lq) LF).
  { destruct (LexerFacts.advance_run lq) as (l3 & A3 & _).
    rewrite (bind_run _ _ _ _ _ A3). discriminate. }
  destruct (isDigit (current lq)).
  { apply Done_bind; [now apply readNumber_runs|discriminate]. }
  destruct (Ascii.eqb (current lq) DQUOTE || Ascii.eqb (current lq) SQUOTE).
  { apply Done_bind; [now apply readString_runs|discriminate]. }
  destruct (isIdentStart (current lq)).
  { apply Done_bind; [now apply readIdentifier_runs|discriminate]. }
  unfold bind at 1. unfold getPeek at 1.
  destruct (twoCharToken (current lq) (peek 1 lq)) as [[ty text]|].
  { destruct (LexerFacts.advance_run lq) as (l3 & A3 & _).
    rewrite (bind_run _ _ _ _ _ A3).
    destruct (LexerFacts.advance_run l3) as (l4 & A4 & _).
    rewrite (bind_run _ _ _ _ _ A4). discriminate. }
  destruct (LexerFacts.advance_run lq) as (l3 & A3 & _).
  rewrite (bind_run _ _ _ _ _ A3).
  destruct (singleCharToken (current lq)); discriminate.
Qed.

Lemma tokenizeLoop_runs (fuel : nat) :
  forall acc lx,
    commentsEnd (source lx) = true ->
    String.length (source lx) + 1 - pos lx < fuel ->
    Done (tokenizeLoop fuel acc lx).
Proof.
  induction fuel as [|fuel IH]; intros acc lx E Hf; [lia|].
  simpl. unfold bind at 1. unfold getCurrent at 1.
  destruct (Ascii.eqb (current lx) NUL) eqn:E0; [discriminate|].
  apply Ascii.eqb_neq, in_text in E0.
  apply Done_bind; [apply tokenizeTurn_runs; [assumption|unfold remaining; lia]|].
  intros [|t] l1 H; [discriminate|].
  apply tokenizeTurn_inv in H as (lq & _ & _ & M0 & M1).
  destruct (Moved_trans _ _ _ _ _ M0 M1) as (S1 & P1 & _).
  apply IH; rewrite S1; [assumption|simpl in P1; lia].
Qed.

(** A text that ends with a line feed is one whose comments end. *)
Lemma endsLine_LF (s : string) : endsLine (s ++ LFs) = true.
Proof.
  induction s as [|c s IH]; [reflexivity|]. simpl. rewrite IH.
  now rewrite orb_true_r.
Qed.

Lemma commentsEnd_LF (s : string) : commentsEnd (s ++ LFs) = true.
Proof.
  induction s as [|c s IH]; [reflexivity|].
  destruct s as [|c' s']; [simpl; now rewrite andb_false_r|].
  change (commentsEnd ((String c (String c' s')) ++ LFs))
    with ((if Ascii.eqb c "/" && Ascii.eqb c' "/"
           then endsLine (s' ++ LFs) else true)
          && commentsEnd (String c' s' ++ LFs)).
  rewrite IH, endsLine_LF, andb_true_r.
  now destruct (Ascii.eqb c "/" && Ascii.eqb c' "/").
Qed.

Lemma tokenize_runs (src : string) (fuel : nat) :
  commentsEnd src = true -> String.length src + 1 < fuel ->
  Done (tokenize fuel (new src)).
Proof.
  intros E Hf. unfold tokenize. apply Done_bind; [|discriminate].
  apply tokenizeLoop_runs; simpl; [assumption|lia].
Qed.

End RunFacts.

(** X4: on a text in which every [//] has a line feed (or a ['\0'])
    somewhere after it, as in every text that ends with a line feed,
    [tokenize] ends: with more fuel than the text has characters, and two
    more, it returns the tokens or throws. *)
Theorem X4_tokenize_ends
    (src : string) (fuel : nat) :
  commentsEnd src = true -> String.length src + 1 < fuel ->
  Lexer.tokenize fuel (Lexer.new src) <> OutOfFuel
  /\ forall s, commentsEnd (s ++ LFs) = true.
Proof.
  intros E Hf. split; [|apply RunFacts.commentsEnd_LF].
  now apply RunFacts.tokenize_runs.
Qed.

Lemma X4_tokenize_ends_witness :
  Lexer.tokenize 30 (Lexer.new ("x = 1 // one" ++ LFs ++ "y")) <> OutOfFuel
  /\ forall s, commentsEnd (s ++ LFs) = true.
Proof.
  apply (X4_tokenize_ends ("x = 1 // one" ++ LFs ++ "y") 30).
  - reflexivity.
  - simpl. lia.
Defined.

Module SafeFacts.
Import Parser SafeNotions.

Section Tokens.
Variables (toks : list Token) (src : string).

Lemma Before_current k p :
  Before toks src k p -> exists t, nth_error toks (pos p) = Some t.
Proof.
  intros (_ & _ & eof & E & _).
  destruct (nth_error toks (pos p)) eqn:N; [eauto|].
  apply nth_error_None in N.
  assert (nth_error toks (pos p + k) = None) by (apply nth_error_None; lia).
  congruence.
Qed.

Lemma current_Before k p t :
  Before toks src k p -> nth_error toks (pos p) = Some t ->
  current p = Some t /\ In t toks.
Proof.
  intros (T & _) N. unfold current, tokenOrLast. rewrite T, N.
  split; [reflexivity|]. eapply nth_error_In, N.
Qed.

Lemma Before_next k p t :
  Before toks src k p -> nth_error toks (pos p) = Some t -> type t <> EOF ->
  exists k', k = S k' /\ Before toks src k' (ParserNotions.next p).
Proof.
  intros (T & S & eof & E & Ty) N NE. destruct k as [|k].
  - rewrite Nat.add_0_r in E. congruence.
  - exists k. split; [reflexivity|]. unfold Before. simpl.
    repeat split; auto. exists eof. split; [|assumption].
    now rewrite <- E, Nat.add_succ_r.
Qed.

Lemma Safe_at {A} c d b (Q : A -> Prop) m :
  (forall t, In t toks -> SafeAt toks src t c d b Q m) -> Safe toks src c d b Q m.
Proof.
  intros H k p B. destruct (Before_current _ _ B) as (t & N).
  apply (H t (proj2 (current_Before _ _ _ B N)) k p B N).
Qed.

Lemma SafeAt_Safe {A} t c d b (Q : A -> Prop) m :
  Safe toks src c d b Q m -> SafeAt toks src t c d b Q m.
Proof. intros H k p B _. apply (H k p B). Qed.

Lemma Safe_ret {A} c d b (Q : A -> Prop) (a : A) :
  Q a -> d <= c -> Safe toks src c d b Q (ret a).
Proof. intros H Hd k p B. simpl. exists k. split; [lia|now split]. Qed.

Lemma Safe_outOfFuel {A} c d (Q : A -> Prop) : Safe toks src c d 0 Q outOfFuel.
Proof. intros k p B. simpl. lia. Qed.

(** A method called by the one that is [c] tokens in. *)
Lemma Safe_bind {A B} c d b dm bm (P : A -> Prop) (Q : B -> Prop)
    (m : M Parser A) (k : A -> M Parser B) :
  Safe toks src 0 dm bm P m -> b <= bm + W * c ->
  (forall a, P a -> Safe toks src (c + dm) d b Q (k a)) ->
  Safe toks src c d b Q (bind m k).
Proof.
  intros Hm Hb Hk n p Bp. unfold bind. specialize (Hm n p Bp).
  destruct (m p) as [a p'| e |].
  - destruct Hm as (n' & Hn & B' & Pa). specialize (Hk a Pa n' p' B').
    destruct (k a p') as [x p''| e |].
    + destruct Hk as (n'' & Hn' & B'' & Qx). exists n''.
      split; [lia|now split].
    + assumption.
    + unfold W in *. nia.
  - assumption.
  - unfold W in *. nia.
Qed.

Lemma Safe_call {A} c d b dm bm (P Q : A -> Prop) (m : M Parser A) :
  Safe toks src 0 dm bm P m -> b <= bm + W * c -> d <= dm + c ->
  (forall a, P a -> Q a) -> Safe toks src c d b Q m.
Proof.
  intros Hm Hb Hd HQ n p Bp. specialize (Hm n p Bp).
  destruct (m p) as [a p'| e |].
  - destruct Hm as (n' & Hn & B' & Pa). exists n'. split; [lia|split; auto].
  - assumption.
  - unfold W in *. nia.
Qed.

Lemma SafeAt_call {A} t c d b dm bm (P Q : A -> Prop) (m : M Parser A) :
  SafeAt toks src t 0 dm bm P m -> b <= bm + W * c -> d <= dm + c ->
  (forall a, P a -> Q a) -> SafeAt toks src t c d b Q m.
Proof.
  intros Hm Hb Hd HQ n p Bp N. specialize (Hm n p Bp N).
  destruct (m p) as [a p'| e |].
  - destruct Hm as (n' & Hn & B' & Pa). exists n'. split; [lia|split; auto].
  - assumption.
  - unfold W in *. nia.
Qed.

(** Reading the current token, at which the instance stays. *)
Lemma SafeAt_currentToken {A} t c d b (Q : A -> Prop) (k : Token -> M Parser A) :
  SafeAt toks src t c d b Q (k t) ->
  SafeAt toks src t c d b Q (bind currentToken k).
Proof.
  intros H n p Bp N.
  assert (R : currentToken p = Ok t p).
  { unfold currentToken. now rewrite (proj1 (current_Before _ _ _ Bp N)). }
  rewrite (bind_run _ _ _ _ _ R). apply (H n p Bp N).
Qed.

Lemma SafeAt_matchAny {A} t c d b (Q : A -> Prop) types
    (k : bool -> M Parser A) :
  SafeAt toks src t c d b Q (k (existsb (TokenType_eqb (type t)) types)) ->
  SafeAt toks src t c d b Q (bind (matchAny types) k).
Proof.
  intros H n p Bp N.
  rewrite (bind_run _ _ _ _ _
             (ParserFacts.matchAny_at p t types
                (proj1 (current_Before _ _ _ Bp N)))).
  apply (H n p Bp N).
Qed.

Lemma SafeAt_peekToken {A} t c d b (Q : A -> Prop) (k : Token -> M Parser A) :
  (forall t', SafeAt toks src t c d b Q (k t')) ->
  SafeAt toks src t c d b Q (bind peekToken k).
Proof.
  intros H n p Bp N.
  assert (R : exists t', peekToken p = Ok t' p).
  { unfold peekToken, peek, tokenOrLast. destruct Bp as (T & S & E).
    rewrite T.
    destruct (nth_error toks (pos p + 1)) as [t1|] eqn:N1;
      [eexists; reflexivity|].
    destruct (nth_error toks (List.length toks - 1)) as [t2|] eqn:N2;
      [eexists; reflexivity|].
    exfalso. apply nth_error_None in N2.
    assert (pos p < List.length toks) by (apply nth_error_Some; congruence).
    lia. }
  destruct R as (t' & R). rewrite (bind_run _ _ _ _ _ R). apply (H t' n p Bp N).
Qed.

Lemma SafeAt_source {A} t c d b (Q : A -> Prop) (k : string -> M Parser A) :
  SafeAt toks src t c d b Q (k src) ->
  SafeAt toks src t c d b Q (bind (fun p => Ok (source p) p) k).
Proof.
  intros H n p Bp N. unfold bind.
  rewrite (proj1 (proj2 Bp)). apply (H n p Bp N).
Qed.

Lemma SafeAt_throw {A} t c d b (Q : A -> Prop) msg :
  In t toks ->
  SafeAt toks src t c d b Q
    (throw (PiperError msg src (line (loc t)) (column (loc t)))).
Proof. intros I n p Bp N. simpl. exists msg, t. now split. Qed.

(** Consuming the current token, which is not the end-of-input token. *)
Lemma SafeAt_consume {A B} t c d b (Q : B -> Prop) (m : M Parser A) (a : A)
    (k : A -> M Parser B) :
  (forall p, nth_error (tokens p) (pos p) = Some t ->
             m p = Ok a (ParserNotions.next p)) ->
  type t <> EOF -> Safe toks src (S c) d b Q (k a) ->
  SafeAt toks src t c d b Q (bind m k).
Proof.
  intros R NE H n p Bp N.
  destruct (Before_next _ _ _ Bp N NE) as (n' & -> & B').
  rewrite (bind_run _ _ _ _ _ (R p ltac:(now rewrite (proj1 Bp)))).
  specialize (H n' _ B').
  destruct (k a _) as [x p'| e |].
  - destruct H as (n'' & Hn & B'' & Qa). exists n''. split; [lia|now split].
  - assumption.
  - unfold W in *. nia.
Qed.

Lemma advanceLoc_run p t :
  nth_error (tokens p) (pos p) = Some t ->
  advanceLoc p = Ok (loc t) (ParserNotions.next p).
Proof. intros N. unfold advanceLoc, bind, advance. now rewrite N. Qed.

Lemma advanceValue_run p t :
  nth_error (tokens p) (pos p) = Some t ->
  advanceValue p = Ok (value t) (ParserNotions.next p).
Proof. intros N. unfold advanceValue, bind, advance. now rewrite N. Qed.

Lemma advanceToken_run p t :
  nth_error (tokens p) (pos p) = Some t ->
  advance p = Ok (Some t) (ParserNotions.next p).
Proof. intros N. unfold advance. now rewrite N. Qed.

Lemma SafeAt_advance {A} t c d b (Q : A -> Prop)
    (k : option Token -> M Parser A) :
  type t <> EOF -> Safe toks src (S c) d b Q (k (Some t)) ->
  SafeAt toks src t c d b Q (bind advance k).
Proof. apply SafeAt_consume. intros p. apply advanceToken_run. Qed.

Lemma SafeAt_advanceLoc {A} t c d b (Q : A -> Prop)
    (k : SourceLocation -> M Parser A) :
  type t <> EOF -> Safe toks src (S c) d b Q (k (loc t)) ->
  SafeAt toks src t c d b Q (bind advanceLoc k).
Proof. apply SafeAt_consume. intros p. apply advanceLoc_run. Qed.

Lemma SafeAt_advanceValue {A} t c d b (Q : A -> Prop)
    (k : string -> M Parser A) :
  type t <> EOF -> Safe toks src (S c) d b Q (k (value t)) ->
  SafeAt toks src t c d b Q (bind advanceValue k).
Proof. apply SafeAt_consume. intros p. apply advanceValue_run. Qed.

(** [expect]: the token is consumed, or the error is at it. *)
Lemma expect_wrong p t ty :
  current p = Some t -> type t <> ty ->
  expect ty p
  = Throw (PiperError ("Expected " ++ displayName ty ++ " but found "
                       ++ displayName (type t))
             (source p) (line (loc t)) (column (loc t))).
Proof.
  intros C NE. unfold expect, bind, currentToken. rewrite C. simpl.
  now rewrite (ParserFacts.TokenType_eqb_neq _ _ NE).
Qed.

Lemma SafeAt_expecting {A B} t c d b (Q : B -> Prop) ty
    (m : M Parser A) (f : Token -> A) (k : A -> M Parser B) :
  (forall p (x : Token),
     m p = (o <- expect ty ;; x <- defined o ;; ret (f x)) p) ->
  ty <> EOF -> (type t = ty -> Safe toks src (S c) d b Q (k (f t))) ->
  SafeAt toks src t c d b Q (bind m k).
Proof.
  intros Hm NE H n p Bp N.
  pose proof (current_Before _ _ _ Bp N) as [C I].
  destruct (TokenType_eqb (type t) ty) eqn:E.
  - apply ParserFacts.TokenType_eqb_eq in E.
    apply (SafeAt_consume t c d b Q m (f t) k); auto; [|congruence].
    intros q Nq. rewrite (Hm q t).
    assert (Cq : current q = Some t)
      by (unfold current, tokenOrLast; now rewrite Nq).
    now rewrite (bind_run _ _ _ _ _ (ParserFacts.expect_at q t ty Cq Nq E)).
  - assert (NEt : type t <> ty).
    { intros Heq. rewrite Heq, ParserFacts.TokenType_eqb_refl in E.
      discriminate E. }
    unfold bind at 1. rewrite (Hm p t). unfold bind at 1.
    rewrite (expect_wrong p t ty C NEt). rewrite (proj1 (proj2 Bp)).
    eexists _, t. now split.
Qed.

Lemma SafeAt_expect {A} t c d b (Q : A -> Prop) ty
    (k : option Token -> M Parser A) :
  ty <> EOF -> (type t = ty -> Safe toks src (S c) d b Q (k (Some t))) ->
  SafeAt toks src t c d b Q (bind (expect ty) k).
Proof.
  intros NE H n p Bp N.
  pose proof (current_Before _ _ _ Bp N) as [C I].
  destruct (TokenType_eqb (type t) ty) eqn:E.
  - apply ParserFacts.TokenType_eqb_eq in E.
    apply (SafeAt_consume t c d b Q (expect ty) (Some t) k); auto;
      [|congruence].
    intros q Nq. apply ParserFacts.expect_at; auto.
    unfold current, tokenOrLast. now rewrite Nq.
  - assert (NEt : type t <> ty).
    { intros Heq. rewrite Heq, ParserFacts.TokenType_eqb_refl in E.
      discriminate E. }
    unfold bind at 1. rewrite (expect_wrong p t ty C NEt).
    rewrite (proj1 (proj2 Bp)). eexists _, t. now split.
Qed.

Lemma SafeAt_expectLoc {A} t c d b (Q : A -> Prop) ty
    (k : SourceLocation -> M Parser A) :
  ty <> EOF -> (type t = ty -> Safe toks src (S c) d b Q (k (loc t))) ->
  SafeAt toks src t c d b Q (bind (expectLoc ty) k).
Proof. apply (SafeAt_expecting t c d b Q ty (expectLoc ty) loc). reflexivity. Qed.

Lemma SafeAt_expectValue {A} t c d b (Q : A -> Prop) ty
    (k : string -> M Parser A) :
  ty <> EOF -> (type t = ty -> Safe toks src (S c) d b Q (k (value t))) ->
  SafeAt toks src t c d b Q (bind (expectValue ty) k).
Proof. apply (SafeAt_expecting t c d b Q ty (expectValue ty) value). reflexivity. Qed.

(** [skipIf], which consumes nothing but a token of the type it is given. *)
Lemma SafeAt_skipIf {A} t c d b (Q : A -> Prop) ty (k : unit -> M Parser A) :
  ty <> EOF ->
  Safe toks src c d b Q (k tt) ->
  SafeAt toks src t c d b Q (bind (skipIf ty) k).
Proof.
  intros NE H n p Bp N.
  pose proof (current_Before _ _ _ Bp N) as [C I].
  unfold bind at 1. rewrite (ParserFacts.skipIf_at p t ty C).
  destruct (TokenType_eqb (type t) ty) eqn:E.
  - apply ParserFacts.TokenType_eqb_eq in E.
    destruct (Before_next _ _ _ Bp N ltac:(congruence)) as (n' & -> & B').
    specialize (H n' _ B').
    destruct (k tt _) as [x p'| e |].
    + destruct H as (n'' & Hn & B'' & Qa). exists n''. split; [lia|now split].
    + assumption.
    + unfold W in *. nia.
  - apply (H n p Bp).
Qed.

End Tokens.
End SafeFacts.

Module SafeLoops.
Import Parser SafeNotions SafeFacts.

Section Tokens.
Variables (toks : list Token) (src : string).

Lemma Safe_bind_ret {A B} c d b (Q : B -> Prop) (a : A) (k : A -> M Parser B) :
  Safe toks src c d b Q (k a) -> Safe toks src c d b Q (bind (ret a) k).
Proof. intros H. exact H. Qed.

Lemma SafeAt_bind_ret {A B} t c d b (Q : B -> Prop) (a : A)
    (k : A -> M Parser B) :
  SafeAt toks src t c d b Q (k a) -> SafeAt toks src t c d b Q (bind (ret a) k).
Proof. intros H. exact H. Qed.

Lemma SafeAt_bind_assoc {A B C} t c d b (Q : C -> Prop) (m : M Parser A)
    (f : A -> M Parser B) (k : B -> M Parser C) :
  SafeAt toks src t c d b Q (bind m (fun a => bind (f a) k)) ->
  SafeAt toks src t c d b Q (bind (bind m f) k).
Proof. intros H n p Bp N. rewrite bind_assoc. apply (H n p Bp N). Qed.

Lemma Safe_zero {A} c d (Q : A -> Prop) b : b = 0 -> Safe toks src c d b Q outOfFuel.
Proof. intros -> k p B. simpl. lia. Qed.

End Tokens.

Ltac arith := unfold W in *; simpl in *; lia.

Ltac not_eof :=
  let H := fresh "Heof" in
  intros H;
  first [ congruence | rewrite H in *; simpl in *; congruence ].

Ltac sorted :=
  intros;
  unfold isStmt, isExpr, isBlockExpr, areExprs, areStmts, any in *;
  simpl;
  repeat match goal with
         | H : _ /\ _ |- _ => destruct H
         end;
  rewrite ?forallb_app; simpl;
  repeat match goal with
         | H : _ = true |- _ => rewrite H
         end;
  simpl; auto.

(** One step through the body of a method. *)
Ltac safe_at_step :=
  match goal with
  | |- SafeAt _ _ _ _ _ _ _ (bind currentToken _) => apply SafeAt_currentToken
  | |- SafeAt _ _ _ _ _ _ _ (bind (matchAny _) _) => apply SafeAt_matchAny
  | |- SafeAt _ _ _ _ _ _ _ (bind peekToken _) =>
      apply SafeAt_peekToken; intros ?
  | |- SafeAt _ _ _ _ _ _ _ (bind (fun p => Ok (source p) p) _) =>
      apply SafeAt_source
  | |- SafeAt _ _ _ _ _ _ _ (throw _) => apply SafeAt_throw; assumption
  | |- SafeAt _ _ _ _ _ _ _ (bind advance _) =>
      apply SafeAt_advance; [try not_eof|]
  | |- SafeAt _ _ _ _ _ _ _ (bind advanceLoc _) =>
      apply SafeAt_advanceLoc; [try not_eof|]
  | |- SafeAt _ _ _ _ _ _ _ (bind advanceValue _) =>
      apply SafeAt_advanceValue; [try not_eof|]
  | |- SafeAt _ _ _ _ _ _ _ (bind (expect _) _) =>
      apply SafeAt_expect; [try discriminate|intros ?]
  | |- SafeAt _ _ _ _ _ _ _ (bind (expectLoc _) _) =>
      apply SafeAt_expectLoc; [try discriminate|intros ?]
  | |- SafeAt _ _ _ _ _ _ _ (bind (expectValue _) _) =>
      apply SafeAt_expectValue; [try discriminate|intros ?]
  | |- SafeAt _ _ _ _ _ _ _ (bind (skipIf _) _) =>
      apply SafeAt_skipIf; [try discriminate|]
  | |- SafeAt _ _ _ _ _ _ _ (bind (ret _) _) => apply SafeAt_bind_ret
  | |- SafeAt _ _ _ _ _ _ _ (bind (bind _ _) _) => apply SafeAt_bind_assoc
  | |- SafeAt _ _ _ _ _ _ _ (bind (if ?b then _ else _) _) =>
      let E := fresh "E" in destruct b eqn:E
  | |- SafeAt _ _ _ _ _ _ _ (if ?b then _ else _) =>
      let E := fresh "E" in destruct b eqn:E
  | |- SafeAt _ _ _ _ _ _ _ (match type ?t with _ => _ end) =>
      let E := fresh "E" in destruct (type t) eqn:E
  | |- SafeAt _ _ _ _ _ _ _ (bind _ _) => apply SafeAt_Safe
  | |- SafeAt _ _ _ _ _ _ _ (ret _) => apply SafeAt_Safe
  end.

Ltac reads m :=
  match m with
  | currentToken => idtac
  | matchAny _ => idtac
  | peekToken => idtac
  | advance => idtac
  | advanceLoc => idtac
  | advanceValue => idtac
  | expect _ => idtac
  | expectLoc _ => idtac
  | expectValue _ => idtac
  | skipIf _ => idtac
  | (fun p => Ok (source p) p) => idtac
  end.

(** A call that ends the method. *)
Ltac safe_call :=
  eapply Safe_call; [eassumption|try arith|try arith|try solve [sorted]].

Ltac safe_call_at :=
  eapply SafeAt_call;
  [match goal with
   | H : forall t, _ -> SafeAt _ _ t _ _ _ _ ?m
     |- SafeAt _ _ _ _ _ _ _ ?m => apply H; try not_eof
   end
  |try arith|try arith|try solve [sorted]].

Ltac safe_step :=
  match goal with
  | |- Safe _ _ _ _ _ _ (ret _) => apply Safe_ret; [try solve [sorted]|try arith]
  | |- Safe _ _ _ _ _ _ (bind (ret _) _) => apply Safe_bind_ret
  | |- Safe _ _ _ _ _ _ (bind ?m _) =>
      reads m; apply Safe_at; intros ? ?
  | |- Safe _ _ _ _ _ _ (bind (if ?b then _ else _) _) =>
      let E := fresh "E" in destruct b eqn:E
  | |- Safe _ _ _ _ _ _ (if ?b then _ else _) =>
      let E := fresh "E" in destruct b eqn:E
  | |- Safe _ _ _ _ _ _ (bind _ _) =>
      eapply Safe_bind; [eassumption|try arith|intros ? ?]
  | |- Safe _ _ _ _ _ _ _ => safe_call
  | |- SafeAt _ _ _ _ _ _ _ _ => safe_at_step
  | |- SafeAt _ _ _ _ _ _ _ _ => safe_call_at
  | |- SafeAt _ _ _ _ _ _ _ _ => apply SafeAt_Safe
  end.

Ltac safe := repeat safe_step.

Section Loops.
Variables (toks : list Token) (src : string).

Lemma Safe_binaryLoop ops next bn :
  existsb (TokenType_eqb EOF) ops = false ->
  Safe toks src 0 1 bn isExpr next ->
  forall fuel b left,
    isExpr left -> b <= fuel -> b <= bn + W ->
    Safe toks src 0 0 b isExpr (binaryLoop fuel ops next left).
Proof.
  intros Hops Hn. induction fuel as [|fuel IH]; intros b left Hl Hb Hbn.
  - apply Safe_zero. lia.
  - simpl. safe.
    eapply Safe_call; [apply (IH (b - 1)); [sorted|lia|lia]|arith|arith|auto].
Qed.

Lemma Safe_pipeLoop next bn :
  Safe toks src 0 1 bn isExpr next ->
  forall fuel b left,
    isExpr left -> b <= fuel -> b <= bn + W ->
    Safe toks src 0 0 b isExpr (pipeLoop fuel next left).
Proof.
  intros Hn. induction fuel as [|fuel IH]; intros b left Hl Hb Hbn.
  - apply Safe_zero. lia.
  - simpl. safe.
    eapply Safe_call; [apply (IH (b - 1)); [sorted|lia|lia]|arith|arith|auto].
Qed.

Lemma Safe_paramsDoWhile :
  forall fuel b params,
    b <= fuel -> Safe toks src 0 1 b any (paramsDoWhile fuel params).
Proof.
  induction fuel as [|fuel IH]; intros b params Hb.
  - apply Safe_zero. lia.
  - simpl. safe.
    eapply Safe_call; [apply (IH (b - 1)); lia|arith|arith|auto].
Qed.

Lemma Safe_expressionsDoWhile next bn :
  Safe toks src 0 1 bn isExpr next ->
  forall fuel b items,
    areExprs items -> b <= fuel -> b <= bn ->
    Safe toks src 0 1 b areExprs (expressionsDoWhile fuel next items).
Proof.
  intros Hn. induction fuel as [|fuel IH]; intros b items Hi Hb Hbn.
  - apply Safe_zero. lia.
  - simpl. safe.
    eapply Safe_call; [apply (IH (b - 1)); [sorted|lia|lia]|arith|arith|auto].
Qed.

Lemma Safe_callLoop next bn :
  Safe toks src 0 1 bn isExpr next ->
  forall fuel b expr,
    isExpr expr -> b <= fuel -> b <= bn + W ->
    Safe toks src 0 0 b isExpr (callLoop fuel next expr).
Proof.
  intros Hn. induction fuel as [|fuel IH]; intros b expr He Hb Hbn.
  - apply Safe_zero. lia.
  - simpl. safe.
    + eapply Safe_bind;
        [apply (Safe_expressionsDoWhile next bn Hn fuel (b - W) []);
         [reflexivity|arith|arith]
        |arith|intros args Ha].
      safe.
      eapply Safe_call;
        [apply (IH (b - 1)); [sorted|lia|lia]|arith|arith|auto].
    + eapply Safe_call;
        [apply (IH (b - 1)); [sorted|lia|lia]|arith|arith|auto].
Qed.

Lemma Safe_blockLoop next bn :
  Safe toks src 0 1 bn isStmt next ->
  forall fuel b statements,
    areStmts statements -> b <= fuel -> b <= bn ->
    Safe toks src 0 0 b areStmts (blockLoop fuel next statements).
Proof.
  intros Hn. induction fuel as [|fuel IH]; intros b statements Hs Hb Hbn.
  - apply Safe_zero. lia.
  - simpl. safe.
    eapply Safe_call; [apply (IH (b - 1)); [sorted|lia|lia]|arith|arith|auto].
Qed.

Lemma Safe_programLoop next bn :
  Safe toks src 0 1 bn isStmt next ->
  forall fuel b body,
    areStmts body -> b <= fuel -> b <= bn ->
    Safe toks src 0 0 b areStmts (programLoop fuel next body).
Proof.
  intros Hn. induction fuel as [|fuel IH]; intros b body Hs Hb Hbn.
  - apply Safe_zero. lia.
  - simpl. safe.
    eapply Safe_call; [apply (IH (b - 1)); [sorted|lia|lia]|arith|arith|auto].
Qed.

Lemma Safe_binaryLoop_min ops next bn fuel left :
  existsb (TokenType_eqb EOF) ops = false ->
  Safe toks src 0 1 bn isExpr next -> isExpr left ->
  Safe toks src 0 0 (Nat.min fuel (bn + W)) isExpr
    (binaryLoop fuel ops next left).
Proof. intros. eapply Safe_binaryLoop; eauto; lia. Qed.

Lemma Safe_pipeLoop_min next bn fuel left :
  Safe toks src 0 1 bn isExpr next -> isExpr left ->
  Safe toks src 0 0 (Nat.min fuel (bn + W)) isExpr (pipeLoop fuel next left).
Proof. intros. eapply Safe_pipeLoop; eauto; lia. Qed.

Lemma Safe_paramsDoWhile_min fuel :
  Safe toks src 0 1 fuel any (paramsDoWhile fuel []).
Proof. now apply Safe_paramsDoWhile. Qed.

Lemma Safe_expressionsDoWhile_min next bn fuel :
  Safe toks src 0 1 bn isExpr next ->
  Safe toks src 0 1 (Nat.min fuel bn) areExprs
    (expressionsDoWhile fuel next []).
Proof. intros. eapply Safe_expressionsDoWhile; eauto; [reflexivity|lia|lia]. Qed.

Lemma Safe_callLoop_min next bn fuel expr :
  Safe toks src 0 1 bn isExpr next -> isExpr expr ->
  Safe toks src 0 0 (Nat.min fuel (bn + W)) isExpr (callLoop fuel next expr).
Proof. intros. eapply Safe_callLoop; eauto; lia. Qed.

Lemma Safe_blockLoop_min next bn fuel :
  Safe toks src 0 1 bn isStmt next ->
  Safe toks src 0 0 (Nat.min fuel bn) areStmts (blockLoop fuel next []).
Proof. intros. eapply Safe_blockLoop; eauto; [reflexivity|lia|lia]. Qed.

Lemma Safe_programLoop_min next bn fuel :
  Safe toks src 0 1 bn isStmt next ->
  Safe toks src 0 0 (Nat.min fuel bn) areStmts (programLoop fuel next []).
Proof. intros. eapply Safe_programLoop; eauto; [reflexivity|lia|lia]. Qed.

End Loops.

(** What a call in the body of a method is known to do. *)
Ltac known :=
  first
    [ eassumption
    | eapply Safe_binaryLoop_min; [reflexivity|eassumption|solve [sorted]]
    | eapply Safe_pipeLoop_min; [eassumption|solve [sorted]]
    | apply Safe_paramsDoWhile_min
    | eapply Safe_expressionsDoWhile_min; eassumption
    | eapply Safe_callLoop_min; [eassumption|solve [sorted]]
    | eapply Safe_blockLoop_min; eassumption
    | eapply Safe_programLoop_min; eassumption ].

Ltac parser_step :=
  match goal with
  | |- Safe _ _ _ _ _ _ (ret _) => apply Safe_ret; [try solve [sorted]|try arith]
  | |- Safe _ _ _ _ _ _ (bind (ret _) _) => apply Safe_bind_ret
  | |- Safe _ _ _ _ _ _ (bind ?m _) =>
      reads m; apply Safe_at; intros ? ?
  | |- Safe _ _ _ _ _ _ (bind (if ?b then _ else _) _) =>
      let E := fresh "E" in destruct b eqn:E
  | |- Safe _ _ _ _ _ _ (if ?b then _ else _) =>
      let E := fresh "E" in destruct b eqn:E
  | |- Safe _ _ _ _ _ _ (bind _ _) =>
      eapply Safe_bind; [known|try arith|intros ? ?]
  | |- Safe _ _ _ _ _ _ _ =>
      eapply Safe_call; [known|try arith|try arith|try solve [sorted]]
  | |- SafeAt _ _ _ _ _ _ _ _ => safe_at_step
  | |- SafeAt _ _ _ _ _ _ _ _ => safe_call_at
  | |- SafeAt _ _ _ _ _ _ _ _ => apply SafeAt_Safe
  end.

Ltac parser_safe := repeat parser_step.

End SafeLoops.

Module SafeParserFacts.
Import Parser SafeNotions SafeFacts SafeLoops SafeParser.

Ltac arith2 := unfold budget, W in *; simpl in *; lia.

Section Tokens.
Variables (toks : list Token) (src : string).

Lemma parser_Safe (fuel : nat) : AllSafe toks src fuel.
Proof.
  induction fuel as [|fuel IH].
  - unfold AllSafe, SafeIn, SafeOn.
    repeat split; try intros t _; try apply SafeAt_Safe;
      apply Safe_zero; reflexivity.
  - destruct IH as (? & ? & ? & ? & ? & ? & ? & ? & ? & ? & ? & ? & ? & ? & ?
                    & ? & ? & ? & ? & ? & ? & ? & ?).
    unfold AllSafe, SafeIn, SafeOn in *.
    repeat split;
      try match goal with
          | |- forall t, type t <> EOF -> _ => intros t NE
          end;
      unfold budget in *; simpl.
    all: parser_safe.
Qed.

End Tokens.
End SafeParserFacts.

Module SortFacts.
Import CodeGenerator SortNotions.

Lemma OnlyPipes_ret {A} ok (a : A) : OnlyPipes ok (ret a).
Proof. intros g. exact I. Qed.

Lemma OnlyPipes_bind {A B} ok ok1 (m : Gen A) (k : A -> Gen B) :
  OnlyPipes ok1 m -> (ok = true -> ok1 = true) ->
  (forall a, OnlyPipes ok (k a)) -> OnlyPipes ok (bind m k).
Proof.
  intros Hm Hok Hk g. unfold bind. specialize (Hm g).
  destruct (m g) as [a g1| e |]; [apply Hk| |assumption].
  destruct Hm as [F R]. split; [|assumption].
  destruct ok; [|reflexivity]. rewrite Hok in F by reflexivity. discriminate F.
Qed.

Lemma OnlyPipes_less {A} ok ok1 (m : Gen A) :
  OnlyPipes ok1 m -> (ok = true -> ok1 = true) -> OnlyPipes ok m.
Proof.
  intros Hm Hok g. specialize (Hm g).
  destruct (m g) as [a g1| e |]; [exact I| |assumption].
  destruct Hm as [F R]. split; [|assumption].
  destruct ok; [|reflexivity]. rewrite Hok in F by reflexivity. discriminate F.
Qed.

Lemma OnlyPipes_throw {A} r :
  isPipeTarget r = false -> OnlyPipes false (@throw _ A (invalidPipeTarget r)).
Proof. intros H g. simpl. split; [reflexivity|]. now exists r. Qed.

Lemma OnlyPipes_emitLine ok code : OnlyPipes ok (emitLine code).
Proof. intros g. exact I. Qed.

Lemma OnlyPipes_indentMore ok : OnlyPipes ok indentMore.
Proof. intros g. exact I. Qed.

Lemma OnlyPipes_indentLess ok : OnlyPipes ok indentLess.
Proof. intros g. exact I. Qed.

Lemma OnlyPipes_indent ok : OnlyPipes ok indent.
Proof. intros g. exact I. Qed.

Lemma OnlyPipes_getOutput ok : OnlyPipes ok getOutput.
Proof. intros g. exact I. Qed.

Lemma OnlyPipes_setOutput ok out : OnlyPipes ok (setOutput out).
Proof. intros g. exact I. Qed.

Lemma OnlyPipes_mapNodes (f : ASTNode -> Gen string) (l : list ASTNode) :
  (forall n, In n l -> OnlyPipes (pipeTargetsOk n) (f n)) ->
  OnlyPipes (forallb pipeTargetsOk l) (mapNodes f l).
Proof.
  induction l as [|n l IH]; intros Hf; [apply OnlyPipes_ret|].
  simpl. eapply OnlyPipes_bind; [apply Hf; now left| |intros s].
  { intros H. now apply andb_true_iff in H. }
  eapply OnlyPipes_bind; [apply IH; intros m Hm; apply Hf; now right| |intros ss].
  { intros H. now apply andb_true_iff in H. }
  apply OnlyPipes_ret.
Qed.

Lemma OnlyPipes_forEachNode (f : ASTNode -> Gen unit) (l : list ASTNode) :
  (forall n, In n l -> OnlyPipes (pipeTargetsOk n) (f n)) ->
  OnlyPipes (forallb pipeTargetsOk l) (forEachNode f l).
Proof.
  induction l as [|n l IH]; intros Hf; [apply OnlyPipes_ret|].
  simpl. eapply OnlyPipes_bind; [apply Hf; now left| |intros s].
  { intros H. now apply andb_true_iff in H. }
  eapply OnlyPipes_less; [apply IH; intros m Hm; apply Hf; now right|].
  intros H. now apply andb_true_iff in H.
Qed.

Lemma OnlyPipes_blockBodyWith (gn : ASTNode -> Gen unit)
    (ge : ASTNode -> Gen string) (l : list ASTNode) :
  (forall n, In n l -> OnlyPipes (pipeTargetsOk n) (gn n)) ->
  (forall e lc, In (ExpressionStatement e lc) l ->
                OnlyPipes (pipeTargetsOk e) (ge e)) ->
  OnlyPipes (forallb pipeTargetsOk l) (blockBodyWith gn ge l).
Proof.
  induction l as [|n l IH]; intros Hn He; [apply OnlyPipes_emitLine|].
  destruct l as [|n' l'].
  - simpl forallb. rewrite andb_true_r.
    destruct n; try (apply Hn; now left).
    simpl. eapply OnlyPipes_bind; [eapply He; now left|auto|intros s].
    apply OnlyPipes_emitLine.
  - change (OnlyPipes (pipeTargetsOk n && forallb pipeTargetsOk (n' :: l'))
              (bind (gn n) (fun _ => blockBodyWith gn ge (n' :: l')))).
    eapply OnlyPipes_bind; [apply Hn; now left| |intros s].
    { intros H. now apply andb_true_iff in H. }
    eapply OnlyPipes_less.
    + apply IH; [intros m Hm; apply Hn; now right|].
      intros e lc Hm. eapply He. right. exact Hm.
    + intros H. now apply andb_true_iff in H.
Qed.

End SortFacts.

Module SortedFacts.
Import CodeGenerator SortNotions SortFacts.

Ltac smaller :=
  repeat match goal with
         | H : In _ _ |- _ => apply size_in in H
         end;
  unfold sizes in *; simpl in *; lia.

Ltac conjuncts :=
  repeat match goal with
         | H : _ && _ = true |- _ => apply andb_true_iff in H; destruct H
         end.

Ltac implied :=
  let H := fresh in
  intros H; cbn [optionAll] in H; rewrite ?andb_true_iff in H; tauto.

Lemma forallb_In {A} (f : A -> bool) (l : list A) (x : A) :
  forallb f l = true -> In x l -> f x = true.
Proof. intros H I. rewrite forallb_forall in H. now apply H. Qed.

Lemma generate_sorted (n : ASTNode) :
  (exprOk n = true -> OnlyPipes (pipeTargetsOk n) (generateExpression n)) /\
  (stmtOk n = true -> OnlyPipes (pipeTargetsOk n) (generateNode n)) /\
  (isBlock n = true -> exprOk n = true ->
   OnlyPipes (pipeTargetsOk n) (generateBlockBody n)).
Proof.
  induction n as [n IH] using (induction_ltof1 _ size). unfold ltof in IH.
  assert (IHe : forall m, size m < size n -> exprOk m = true ->
                  OnlyPipes (pipeTargetsOk m) (generateExpression m))
    by (intros m Hm; apply (IH m Hm)).
  assert (IHn : forall m, size m < size n -> stmtOk m = true ->
                  OnlyPipes (pipeTargetsOk m) (generateNode m))
    by (intros m Hm; apply (IH m Hm)).
  assert (IHb : forall m, size m < size n -> isBlock m = true ->
                  exprOk m = true ->
                  OnlyPipes (pipeTargetsOk m) (generateBlockBody m))
    by (intros m Hm; apply (IH m Hm)).
  clear IH.
  assert (IHes : forall l, sizes l < size n -> forallb exprOk l = true ->
                   OnlyPipes (forallb pipeTargetsOk l)
                     (mapNodes generateExpression l)).
  { intros l Hl Hs. apply OnlyPipes_mapNodes. intros m Hm.
    apply IHe; [smaller|]. eapply forallb_In; eassumption. }
  assert (IHns : forall l, sizes l < size n -> forallb stmtOk l = true ->
                   OnlyPipes (forallb pipeTargetsOk l)
                     (forEachNode generateNode l)).
  { intros l Hl Hs. apply OnlyPipes_forEachNode. intros m Hm.
    apply IHn; [smaller|]. eapply forallb_In; eassumption. }
  assert (IHbs : forall l, sizes l < size n -> forallb stmtOk l = true ->
                   OnlyPipes (forallb pipeTargetsOk l)
                     (blockBodyWith generateNode generateExpression l)).
  { intros l Hl Hs. apply OnlyPipes_blockBodyWith.
    - intros m Hm. apply IHn; [smaller|]. eapply forallb_In; eassumption.
    - intros e lc Hm. apply IHe; [smaller|].
      apply (forallb_In _ _ _ Hs Hm). }
  split; [|split].
  - (* generateExpression *)
    intros Hs. destruct n; simpl in Hs; try discriminate Hs; conjuncts; simpl.
    + (* IfExpression *)
      eapply OnlyPipes_bind; [apply IHe; [destruct elseBranch; smaller|assumption]|implied|intros c].
      eapply OnlyPipes_bind; [apply IHe; [destruct elseBranch; smaller|assumption]|implied|intros t].
      destruct elseBranch as [e|]; [|apply OnlyPipes_ret].
      eapply OnlyPipes_bind; [apply IHe; [smaller|assumption]|implied|intros e'].
      apply OnlyPipes_ret.
    + (* BlockExpression *)
      eapply OnlyPipes_bind; [apply OnlyPipes_indentMore|auto|intros _].
      eapply OnlyPipes_bind; [apply OnlyPipes_getOutput|auto|intros saved].
      eapply OnlyPipes_bind; [apply OnlyPipes_setOutput|auto|intros _].
      eapply OnlyPipes_bind; [apply IHbs; [smaller|assumption]|auto|intros _].
      eapply OnlyPipes_bind; [apply OnlyPipes_getOutput|auto|intros inner].
      eapply OnlyPipes_bind; [apply OnlyPipes_setOutput|auto|intros _].
      eapply OnlyPipes_bind; [apply OnlyPipes_indentLess|auto|intros _].
      eapply OnlyPipes_bind; [apply OnlyPipes_indent|auto|intros i].
      apply OnlyPipes_ret.
    + (* BinaryExpression *)
      eapply OnlyPipes_bind; [apply IHe; [smaller|assumption]|implied|intros l].
      eapply OnlyPipes_bind; [apply IHe; [smaller|assumption]|implied|intros r].
      apply OnlyPipes_ret.
    + (* UnaryExpression *)
      eapply OnlyPipes_bind; [apply IHe; [smaller|assumption]|implied|intros o].
      apply OnlyPipes_ret.
    + (* PipeExpression *)
      eapply OnlyPipes_bind;
        [apply IHe; [smaller|assumption]
        |intros Hp; rewrite !andb_true_iff in Hp; tauto|intros l].
      destruct n2; simpl;
        try (rewrite ?andb_false_l; now apply OnlyPipes_throw);
        [|apply OnlyPipes_ret].
      simpl in H0. conjuncts.
      eapply OnlyPipes_bind; [apply IHes; [smaller|assumption]|implied|intros rest].
      destruct n2; try apply OnlyPipes_ret;
        (eapply OnlyPipes_bind; [apply IHe; [smaller|assumption]|implied|intros c];
         apply OnlyPipes_ret).
    + (* CallExpression *)
      eapply OnlyPipes_bind; [apply IHe; [smaller|assumption]|implied|intros c].
      eapply OnlyPipes_bind; [apply IHes; [smaller|assumption]|implied|intros args'].
      destruct n; try apply OnlyPipes_ret.
      destruct (inList name BUILTINS); apply OnlyPipes_ret.
    + (* Lambda *)
      destruct n;
        try (eapply OnlyPipes_bind; [apply IHe; [smaller|assumption]|implied|intros b];
             apply OnlyPipes_ret).
      simpl in Hs.
      eapply OnlyPipes_bind; [apply OnlyPipes_indentMore|auto|intros _].
      eapply OnlyPipes_bind; [apply OnlyPipes_getOutput|auto|intros saved].
      eapply OnlyPipes_bind; [apply OnlyPipes_setOutput|auto|intros _].
      eapply OnlyPipes_bind; [apply IHbs; [smaller|assumption]|auto|intros _].
      eapply OnlyPipes_bind; [apply OnlyPipes_getOutput|auto|intros inner].
      eapply OnlyPipes_bind; [apply OnlyPipes_setOutput|auto|intros _].
      eapply OnlyPipes_bind; [apply OnlyPipes_indentLess|auto|intros _].
      eapply OnlyPipes_bind; [apply OnlyPipes_indent|auto|intros i].
      apply OnlyPipes_ret.
    + (* Identifier *) apply OnlyPipes_ret.
    + (* Literal *) apply OnlyPipes_ret.
    + (* ArrayLiteral *)
      eapply OnlyPipes_bind; [apply IHes; [smaller|assumption]|implied|intros es].
      apply OnlyPipes_ret.
  - (* generateNode *)
    intros Hs. destruct n; simpl in Hs; try discriminate Hs; conjuncts; simpl.
    + eapply OnlyPipes_bind; [apply IHe; [smaller|assumption]|implied|intros i].
      apply OnlyPipes_emitLine.
    + eapply OnlyPipes_bind; [apply IHe; [smaller|assumption]|implied|intros i].
      apply OnlyPipes_emitLine.
    + (* FunctionDeclaration *)
      destruct isExpression.
      * eapply OnlyPipes_bind; [apply IHe; [smaller|assumption]|implied|intros b].
        eapply OnlyPipes_bind; [apply OnlyPipes_emitLine|auto|intros _].
        eapply OnlyPipes_bind; [apply OnlyPipes_indentMore|auto|intros _].
        eapply OnlyPipes_bind; [apply OnlyPipes_emitLine|auto|intros _].
        eapply OnlyPipes_bind; [apply OnlyPipes_indentLess|auto|intros _].
        apply OnlyPipes_emitLine.
      * conjuncts.
        eapply OnlyPipes_bind; [apply OnlyPipes_emitLine|auto|intros _].
        eapply OnlyPipes_bind; [apply OnlyPipes_indentMore|auto|intros _].
        eapply OnlyPipes_bind; [apply IHb; [smaller|assumption|assumption]|implied|intros _].
        eapply OnlyPipes_bind; [apply OnlyPipes_indentLess|auto|intros _].
        apply OnlyPipes_emitLine.
    + eapply OnlyPipes_bind; [apply IHe; [smaller|assumption]|implied|intros i].
      apply OnlyPipes_emitLine.
    + (* WhileStatement *)
      eapply OnlyPipes_bind; [apply IHe; [smaller|assumption]|implied|intros c].
      eapply OnlyPipes_bind; [apply OnlyPipes_emitLine|auto|intros _].
      eapply OnlyPipes_bind; [apply OnlyPipes_indentMore|auto|intros _].
      destruct n2; try discriminate.
      eapply OnlyPipes_bind; [apply IHns; [smaller|assumption]|implied|intros _].
      eapply OnlyPipes_bind; [apply OnlyPipes_indentLess|auto|intros _].
      apply OnlyPipes_emitLine.
    + (* ForStatement *)
      eapply OnlyPipes_bind; [apply IHe; [smaller|assumption]|implied|intros c].
      eapply OnlyPipes_bind; [apply OnlyPipes_emitLine|auto|intros _].
      eapply OnlyPipes_bind; [apply OnlyPipes_indentMore|auto|intros _].
      destruct n2; try discriminate.
      eapply OnlyPipes_bind; [apply IHns; [smaller|assumption]|implied|intros _].
      eapply OnlyPipes_bind; [apply OnlyPipes_indentLess|auto|intros _].
      apply OnlyPipes_emitLine.
    + (* ExpressionStatement *)
      eapply OnlyPipes_bind; [apply IHe; [smaller|assumption]|implied|intros i].
      apply OnlyPipes_emitLine.
    + (* ReturnStatement *)
      match goal with
      | H : optionAll exprOk ?o = true |- _ =>
          destruct o as [v|]; [|apply OnlyPipes_emitLine]
      end.
      eapply OnlyPipes_bind; [apply IHe; [smaller|assumption]|implied|intros i].
      apply OnlyPipes_emitLine.
  - (* generateBlockBody *)
    intros Hb Hs. destruct n; try discriminate Hb. simpl in *.
    apply IHbs; [smaller|assumption].
Qed.

End SortedFacts.

Module ParseFacts.
Import Parser SafeNotions SafeFacts SafeLoops SafeParser SafeParserFacts.

Lemma parse_Safe (toks : list Token) (src : string) (fuel : nat) :
  Safe toks src 0 0 (budget 13 fuel) (fun ast => programOk ast = true)
    (parse fuel).
Proof.
  pose proof (parser_Safe toks src fuel) as (Hs & _).
  unfold SafeIn in Hs. unfold parse.
  eapply Safe_bind;
    [eapply Safe_programLoop_min; exact Hs|unfold budget, W; lia|intros body Hb].
  apply Safe_ret; [exact Hb|lia].
Qed.

(** The instance [new Parser(tokens, source)] of an array that holds an
    end-of-input token. *)
Lemma Before_new (toks : list Token) (src : string) (eof : Token) :
  In eof toks -> type eof = EOF ->
  exists k, k < List.length toks
            /\ Before (tokens (new toks src)) src k (new toks src).
Proof.
  intros I T.
  assert (I' : In eof (tokens (new toks src))).
  { simpl. apply filter_In. split; [assumption|]. now rewrite T. }
  apply In_nth_error in I' as (k & N). exists k. split.
  - assert (k < List.length (tokens (new toks src)))
      by (apply nth_error_Some; congruence).
    simpl in H. pose proof (filter_length_le
      (fun t => negb (TokenType_eqb (type t) NEWLINE)) toks). lia.
  - unfold Before. simpl. repeat split. exists eof. now split.
Qed.

(** What [parse] does on such an array. *)
Lemma parse_safe (toks : list Token) (src : string) (eof : Token) (fuel : nat) :
  In eof toks -> type eof = EOF ->
  match parse fuel (new toks src) with
  | Ok ast p' =>
      programOk ast = true
      /\ exists t, current p' = Some t /\ type t = EOF
  | Throw e =>
      exists msg t,
        In t toks /\ type t <> NEWLINE
        /\ e = PiperError msg src (line (loc t)) (column (loc t))
  | OutOfFuel => fuel < 13 * List.length toks
  end.
Proof.
  intros I T. destruct (Before_new toks src eof I T) as (k & Hk & B).
  pose proof (parse_Safe _ src fuel k _ B) as H.
  destruct (parse fuel (new toks src)) as [ast p'| e |] eqn:E.
  - destruct H as (k' & _ & _ & Hp). split; [exact Hp|].
    unfold parse in E. apply bind_Ok in E as (body & p1 & E & R).
    injection R as <- <-. eapply ParserFacts.programLoop_ends, E.
  - destruct H as (msg & t & It & ->). exists msg, t.
    simpl in It. apply filter_In in It as [It Nt].
    repeat split; [assumption|].
    intros Heq. rewrite Heq in Nt. discriminate Nt.
  - unfold budget, W in H. lia.
Qed.

End ParseFacts.

(** X5: on an array of tokens that holds an end-of-input token, as every
    array [tokenize] returns does, a tree that [parse] returns is one the
    generator has a case for at every node: statements where it generates
    statements, expressions where it generates expressions, a block as the
    body of a [while], of a [for] and of a function with braces; and [parse]
    returns at an end-of-input token. *)
Theorem X5_parse_returns_sorted_trees
    (toks : list Token) (src : string) (eof : Token) (fuel : nat)
    (ast : ASTNode) (p' : Parser.Parser) :
  In eof toks -> type eof = EOF ->
  Parser.parse fuel (Parser.new toks src) = Ok ast p' ->
  programOk ast = true
  /\ exists t, Parser.current p' = Some t /\ type t = EOF.
Proof.
  intros I T H. pose proof (ParseFacts.parse_safe toks src eof fuel I T) as S.
  now rewrite H in S.
Qed.

Lemma X5_parse_returns_sorted_trees_witness :
  programOk
    (Program
       [WhileStatement (Identifier "x" (at_ 1 7))
          (BlockExpression [] (at_ 1 9)) (at_ 1 1)]) = true
  /\ exists t,
       Parser.current
         (Parser.mkParser
            [mkToken WHILE "while" (mkLoc 1 1); mkToken IDENTIFIER "x" (mkLoc 1 7);
             mkToken LBRACE "{" (mkLoc 1 9); mkToken RBRACE "}" (mkLoc 1 10);
             mkToken EOF EmptyString (mkLoc 1 11)]
            "while x {}" 4) = Some t
       /\ type t = EOF.
Proof.
  refine (X5_parse_returns_sorted_trees
            [mkToken WHILE "while" (mkLoc 1 1); mkToken IDENTIFIER "x" (mkLoc 1 7);
             mkToken LBRACE "{" (mkLoc 1 9); mkToken RBRACE "}" (mkLoc 1 10);
             mkToken EOF EmptyString (mkLoc 1 11)]
            "while x {}" (mkToken EOF EmptyString (mkLoc 1 11)) 40 _ _ _ _ _).
  - simpl. tauto.
  - reflexivity.
  - vm_compute. reflexivity.
Defined.

(** X6: on an array of tokens that holds an end-of-input token, what
    [parse] throws is a [PiperError] with the source text of the parser and
    the line and column of one of the tokens of the array: never a
    [TypeError], which it throws on the empty array. *)
Theorem X6_parse_errors_are_at_a_token
    (toks : list Token) (src : string) (eof : Token) (fuel : nat) (e : Error) :
  In eof toks -> type eof = EOF ->
  Parser.parse fuel (Parser.new toks src) = Throw e ->
  (exists msg t,
     In t toks /\ type t <> NEWLINE
     /\ e = PiperError msg src (line (loc t)) (column (loc t)))
  /\ Parser.parse fuel (Parser.new [] src)
     = match fuel with 0 => OutOfFuel | S _ => Throw TypeError end.
Proof.
  intros I T H. split; [|now destruct fuel].
  pose proof (ParseFacts.parse_safe toks src eof fuel I T) as S.
  now rewrite H in S.
Qed.

Lemma X6_parse_errors_are_at_a_token_witness :
  (exists msg t,
     In t [mkToken LET "let" (mkLoc 1 1); mkToken NUMBER "1" (mkLoc 1 5);
           mkToken EOF EmptyString (mkLoc 1 6)]
     /\ type t <> NEWLINE
     /\ PiperError "Expected identifier but found number" "let 1" 1 5
        = PiperError msg "let 1" (line (loc t)) (column (loc t)))
  /\ Parser.parse 40 (Parser.new [] "let 1") = Throw TypeError.
Proof.
  refine (X6_parse_errors_are_at_a_token
            [mkToken LET "let" (mkLoc 1 1); mkToken NUMBER "1" (mkLoc 1 5);
             mkToken EOF EmptyString (mkLoc 1 6)]
            "let 1" (mkToken EOF EmptyString (mkLoc 1 6)) 40 _ _ _ _).
  - simpl. tauto.
  - reflexivity.
  - vm_compute. reflexivity.
Defined.

(** X7: on an array of tokens that holds an end-of-input token, [parse]
    ends: with thirteen units of fuel for each token of the array it
    returns or throws. *)
Theorem X7_parse_ends
    (toks : list Token) (src : string) (eof : Token) (fuel : nat) :
  In eof toks -> type eof = EOF ->
  13 * List.length toks <= fuel ->
  Parser.parse fuel (Parser.new toks src) <> OutOfFuel.
Proof.
  intros I T Hf H.
  pose proof (ParseFacts.parse_safe toks src eof fuel I T) as S.
  rewrite H in S. lia.
Qed.

Lemma X7_parse_ends_witness :
  Parser.parse 26
    (Parser.new [mkToken IDENTIFIER "x" (mkLoc 1 1);
                 mkToken EOF EmptyString (mkLoc 1 2)] "x") <> OutOfFuel.
Proof.
  apply (X7_parse_ends _ "x" (mkToken EOF EmptyString (mkLoc 1 2))).
  - simpl. tauto.
  - reflexivity.
  - simpl. lia.
Defined.

Lemma Throws_ret {St A} (P : Error -> Prop) (a : A) : Throws P (@ret St A a).
Proof. intros s e H. discriminate H. Qed.

Lemma Throws_outOfFuel {St A} (P : Error -> Prop) : Throws P (@outOfFuel St A).
Proof. intros s e H. discriminate H. Qed.

Lemma Throws_throw {St A} (P : Error -> Prop) e : P e -> Throws P (@throw St A e).
Proof. intros H s e' [= <-]. exact H. Qed.

Lemma Throws_bind {St A B} (P : Error -> Prop) (m : M St A) (k : A -> M St B) :
  Throws P m -> (forall a, Throws P (k a)) -> Throws P (bind m k).
Proof.
  intros Hm Hk s e H. unfold bind in H.
  destruct (m s) as [a s1| e1 |] eqn:E; [|injection H as <-|discriminate H].
  - exact (Hk a s1 e H).
  - exact (Hm s e1 E).
Qed.

Module ThrowFacts.
Import Lexer.

Lemma Throws_total {A} (P : Error -> Prop) (m : M Lexer A) :
  (forall lx, exists a lx', m lx = Ok a lx') -> Throws P m.
Proof. intros H s e E. destruct (H s) as (a & lx' & R). congruence. Qed.

Ltac throws :=
  repeat first
    [ apply Throws_ret | apply Throws_outOfFuel
    | solve [auto]
    | apply Throws_total; intros ?; eexists _, _;
      solve [reflexivity
            |unfold advance; match goal with
                             | |- (if ?b then _ else _) = _ => destruct b
                             end; reflexivity]
    | apply Throws_bind; [|intros ?]
    | apply Throws_throw
    | match goal with
      | |- Throws _ (if ?b then _ else _) => destruct b
      | |- Throws _ (match ?x with _ => _ end) => destruct x
      end ].

Lemma Throws_advance (P : Error -> Prop) : Throws P advance.
Proof.
  apply Throws_total. intros lx. unfold advance.
  destruct (Ascii.eqb (current lx) LF); eexists _, _; reflexivity.
Qed.

#[local] Hint Resolve Throws_advance : core.

Lemma Throws_skipWhitespace P fuel : Throws P (skipWhitespace fuel).
Proof. induction fuel as [|fuel IH]; simpl; throws. Qed.

Lemma Throws_skipCommentLoop P fuel : Throws P (skipCommentLoop fuel).
Proof. induction fuel as [|fuel IH]; simpl; throws. Qed.

Lemma Throws_readDigits P fuel : forall v, Throws P (readDigits fuel v).
Proof. induction fuel as [|fuel IH]; intros v; simpl; throws. Qed.

Lemma Throws_readStringLoop P fuel q :
  forall v, Throws P (readStringLoop fuel q v).
Proof. induction fuel as [|fuel IH]; intros v; simpl; throws. Qed.

Lemma Throws_readIdentifierLoop P fuel :
  forall v, Throws P (readIdentifierLoop fuel v).
Proof. induction fuel as [|fuel IH]; intros v; simpl; throws. Qed.

Lemma lexical_unterminated start : lexical (unterminatedString start).
Proof. left. now exists start. Qed.

Lemma lexical_unexpected c at_ : lexical (unexpectedCharacter c at_).
Proof. right. now exists c, at_. Qed.

#[local] Hint Resolve lexical_unterminated lexical_unexpected : core.

Lemma Throws_tokenizeTurn fuel : Throws lexical (tokenizeTurn fuel).
Proof.
  pose proof (Throws_skipWhitespace lexical fuel).
  pose proof (Throws_skipCommentLoop lexical fuel).
  pose proof (Throws_readDigits lexical fuel).
  pose proof (Throws_readStringLoop lexical fuel).
  pose proof (Throws_readIdentifierLoop lexical fuel).
  unfold tokenizeTurn, skipComment, readNumber, readString, readIdentifier.
  throws.
Qed.

Lemma Throws_tokenizeLoop fuel : forall acc, Throws lexical (tokenizeLoop fuel acc).
Proof.
  induction fuel as [|fuel IH]; intros acc; simpl; [throws|].
  pose proof (Throws_tokenizeTurn fuel). throws.
Qed.

Lemma Throws_tokenize fuel : Throws lexical (tokenize fuel).
Proof.
  pose proof (Throws_tokenizeLoop fuel). unfold tokenize. throws.
Qed.

End ThrowFacts.

Module PipelineFacts.
Import CodeGenerator SortNotions SortFacts SortedFacts.

(** [generate] on a tree as the parser returns them. *)
Lemma generate_sorted_program (ast : ASTNode) (g : CodeGenerator) :
  programOk ast = true ->
  match generate ast g with
  | Ok _ _ => pipeTargetsOk ast = true
  | Throw e => pipeTargetsOk ast = false /\ invalidPipe e
  | OutOfFuel => False
  end.
Proof.
  intros Hp. destruct ast; try discriminate Hp. simpl in Hp.
  assert (O : OnlyPipes (forallb pipeTargetsOk body) (generateStatements body)).
  { apply OnlyPipes_forEachNode. intros n Hn.
    apply generate_sorted. eapply forallb_In; eassumption. }
  destruct (generate (Program body) g) as [out g'| e |] eqn:E.
  - unfold generate in E.
    apply bind_Ok in E as (u1 & g1 & _ & E).
    apply bind_Ok in E as (u2 & g2 & E & _).
    simpl. revert E. apply PipeFacts.forEachNode_all.
    intros n _. apply PipeFacts.generate_checks_pipes.
  - unfold generate, bind in E. simpl in E.
    specialize (O (mkCodeGenerator (indentLevel g) (output g ++ [preamble]))).
    unfold emit in E.
    destruct (generateStatements body _) as [u g1| e1 |];
      [discriminate E|injection E as <-|discriminate E].
    exact O.
  - unfold generate, bind in E. simpl in E.
    specialize (O (mkCodeGenerator (indentLevel g) (output g ++ [preamble]))).
    unfold emit in E.
    destruct (generateStatements body _) as [u g1| e1 |];
      [discriminate E|discriminate E|exact O].
Qed.

(** A list of offsets that go up and stay in the text. *)
Lemma sorted_length_from (l : list nat) :
  forall a n,
    StronglySorted lt (a :: l) -> Forall (fun o => o <= n) (a :: l) ->
    List.length (a :: l) + a <= S n.
Proof.
  induction l as [|b l IH]; intros a n Srt B.
  - inversion B; subst. simpl. lia.
  - inversion Srt as [|? ? Srt' F]; subst. inversion B as [|? ? Ba B']; subst.
    specialize (IH b n Srt' B'). inversion F; subst. simpl in *. lia.
Qed.

Lemma sorted_length (l : list nat) (n : nat) :
  StronglySorted lt l -> Forall (fun o => o <= n) l -> List.length l <= S n.
Proof.
  destruct l as [|a l]; intros Srt B; [simpl; lia|].
  pose proof (sorted_length_from l a n Srt B). lia.
Qed.

Lemma Forall2_In_left {A B} (R : A -> B -> Prop) (l : list A) (l' : list B)
    (x : A) :
  Forall2 R l l' -> In x l -> exists y, In y l' /\ R x y.
Proof.
  induction 1 as [|a b l l' Hab F IH]; intros I; [contradiction|].
  destruct I as [->|I]; [exists b; split; [now left|assumption]|].
  destruct (IH I) as (y & Iy & Ry). exists y. split; [now right|assumption].
Qed.

Lemma tokenize_length (fuel : nat) (src : string) (toks : list Token) lx' :
  Lexer.tokenize fuel (Lexer.new src) = Ok toks lx' ->
  List.length toks <= S (String.length src).
Proof.
  intros H. apply TurnFacts.tokenize_tokenAt in H as (offsets & F2 & Srt).
  rewrite (Forall2_length F2). apply sorted_length; [assumption|].
  clear Srt. induction F2 as [|t o ts os Ht F2 IH]; constructor; auto.
  apply Ht.
Qed.

Lemma compile_throws (fuel : nat) (src : string) (e : Error) :
  compile fuel src = Throw e ->
  lexical e \/ syntactic src e \/ invalidPipe e.
Proof.
  unfold compile, parseSource. intros H.
  destruct (Lexer.tokenize fuel (Lexer.new src)) as [toks lx| e1 |] eqn:L;
    [|injection H as <-|discriminate H].
  2: { left. eapply ThrowFacts.Throws_tokenize, L. }
  pose proof (EndFacts.tokenize_ends_with_EOF _ _ _ _ L) as (pre & Ht & _).
  pose proof (TurnFacts.tokenize_tokenAt _ _ _ _ L) as (offsets & F2 & _).
  assert (I : In (mkToken EOF EmptyString (Lexer.here lx)) toks)
    by (rewrite Ht; apply in_or_app; right; now left).
  pose proof (ParseFacts.parse_safe toks src _ fuel I eq_refl) as P.
  destruct (Parser.parse fuel (Parser.new toks src)) as [ast p'| e2 |];
    simpl in H; [|injection H as <-|discriminate H].
  - destruct P as [Hp _].
    pose proof (generate_sorted_program ast CodeGenerator.new Hp)
      as G.
    destruct (CodeGenerator.generate ast CodeGenerator.new) as [out g| e3 |];
      simpl in H; [discriminate H|injection H as <-|discriminate H].
    right. right. apply G.
  - right. left. destruct P as (msg & t & It & _ & ->).
    destruct (Forall2_In_left _ _ _ _ F2 It) as (o & _ & Hl & Ho & _).
    exists msg, o. split; [assumption|]. now rewrite Hl.
Qed.
End PipelineFacts.

(** X8: on a tree as [parse] returns them (see X5), [generate] returns
    exactly when every pipe of the tree has an Identifier or a
    CallExpression on its right; when one has not, it throws
    [Invalid pipe target] with the type of a node that is neither, and it
    throws nothing else. *)
Theorem X8_generate_throws_only_invalid_pipe_target
    (ast : ASTNode) (g : CodeGenerator.CodeGenerator) :
  programOk ast = true ->
  match CodeGenerator.generate ast g with
  | Ok _ _ => pipeTargetsOk ast = true
  | Throw e => pipeTargetsOk ast = false /\ invalidPipe e
  | OutOfFuel => False
  end.
Proof. apply PipelineFacts.generate_sorted_program. Qed.

Lemma X8_generate_throws_only_invalid_pipe_target_witness :
  match
    CodeGenerator.generate
      (Program
         [ExpressionStatement
            (PipeExpression (num "1" 1 1) (num "2" 1 6) (at_ 1 3)) (at_ 1 3)])
      CodeGenerator.new
  with
  | Ok _ _ =>
      pipeTargetsOk
        (Program
           [ExpressionStatement
              (PipeExpression (num "1" 1 1) (num "2" 1 6) (at_ 1 3))
              (at_ 1 3)]) = true
  | Throw e =>
      pipeTargetsOk
        (Program
           [ExpressionStatement
              (PipeExpression (num "1" 1 1) (num "2" 1 6) (at_ 1 3))
              (at_ 1 3)]) = false
      /\ invalidPipe e
  | OutOfFuel => False
  end.
Proof.
  apply (X8_generate_throws_only_invalid_pipe_target
           (Program
              [ExpressionStatement
                 (PipeExpression (num "1" 1 1) (num "2" 1 6) (at_ 1 3))
                 (at_ 1 3)])
           CodeGenerator.new).
  reflexivity.
Defined.

(** X9: what [compile] throws for a text is an error of the lexer
    ([Unterminated string] or [Unexpected character]), a [PiperError] of
    the parser with that text and the line and column of an offset of it,
    or [Invalid pipe target] from the generator: no [TypeError] and no
    [Unknown statement type] or [Unknown expression type] comes out of the
    three stages run one after the other. *)
Theorem X9_compile_throws_only_its_own_errors
    (fuel : nat) (src : string) (e : Error) :
  compile fuel src = Throw e ->
  lexical e \/ syntactic src e \/ invalidPipe e.
Proof. exact (PipelineFacts.compile_throws fuel src e). Qed.

Lemma X9_compile_throws_only_its_own_errors_witness :
  lexical (PiperError "Expected identifier but found number" "let 1" 1 5)
  \/ syntactic "let 1"
       (PiperError "Expected identifier but found number" "let 1" 1 5)
  \/ invalidPipe (PiperError "Expected identifier but found number" "let 1" 1 5).
Proof.
  apply (X9_compile_throws_only_its_own_errors 40 "let 1").
  vm_compute. reflexivity.
Defined.

(** X10: on a text in which every [//] has a line feed (or a ['\0'])
    somewhere after it, [compile] ends: with thirteen units of fuel for each
    character of the text, and twenty-six more, it returns the JavaScript
    text or throws. *)
Theorem X10_compile_ends (src : string) (fuel : nat) :
  commentsEnd src = true ->
  13 * (String.length src + 2) <= fuel ->
  compile fuel src <> OutOfFuel.
Proof.
  intros E Hf. unfold compile, parseSource.
  pose proof (RunFacts.tokenize_runs src fuel E ltac:(lia)) as D.
  destruct (Lexer.tokenize fuel (Lexer.new src)) as [toks lx| e1 |] eqn:L;
    [|discriminate|now contradiction D].
  pose proof (EndFacts.tokenize_ends_with_EOF _ _ _ _ L) as (pre & Ht & _).
  pose proof (PipelineFacts.tokenize_length _ _ _ _ L) as Hl.
  assert (I : In (mkToken EOF EmptyString (Lexer.here lx)) toks)
    by (rewrite Ht; apply in_or_app; right; now left).
  pose proof (ParseFacts.parse_safe toks src _ fuel I eq_refl) as P.
  destruct (Parser.parse fuel (Parser.new toks src)) as [ast p'| e2 |];
    simpl; [|discriminate|exfalso; lia].
  destruct P as [Hp _].
  pose proof (PipelineFacts.generate_sorted_program ast CodeGenerator.new Hp)
    as G.
  destruct (CodeGenerator.generate ast CodeGenerator.new) as [out g| e3 |];
    simpl; [discriminate|discriminate|contradiction].
Qed.

Lemma X10_compile_ends_witness :
  compile 400 ("fn f(x) = x * 2 // twice" ++ LFs) <> OutOfFuel.
Proof.
  apply X10_compile_ends.
  - reflexivity.
  - simpl. lia.
Defined.

Module ChainFacts.
Import Parser.

Lemma binaryLoop_chain (ops : list TokenType) (next : M Parser ASTNode)
    (fuel : nat) :
  forall left p e p',
    binaryLoop fuel ops next left p = Ok e p' ->
    exists rest,
      e = chain (nodeLoc left) left rest
      /\ Forall (fun or => operatorOf ops (fst or) /\ returnedBy next (snd or))
           rest.
Proof.
  induction fuel as [|fuel IH]; intros left p e p' H; [discriminate|].
  simpl in H. apply bind_Ok in H as (m & p1 & M1 & H).
  unfold matchAny in M1. apply bind_Ok in M1 as (t & p0 & C & M1).
  injection M1 as <- <-.
  assert (p0 = p) as ->.
  { unfold currentToken in C. destruct (current p); [|discriminate C].
    now injection C. }
  destruct (existsb (TokenType_eqb (type t)) ops) eqn:E.
  - apply bind_Ok in H as (operator & p2 & A & H).
    apply bind_Ok in H as (right & p3 & N & H).
    apply IH in H as (rest & -> & F).
    exists ((operator, right) :: rest). split; [reflexivity|].
    constructor; [|exact F]. simpl. split; [|now exists p2, p3].
    exists t. split; [assumption|].
    unfold currentToken in C.
    destruct (current p) as [tc|] eqn:Cp; [|discriminate C].
    injection C as ->. unfold current, tokenOrLast in Cp.
    unfold advanceValue, bind, advance in A.
    destruct (nth_error (tokens p) (pos p)) as [t'|]; [|discriminate A].
    injection Cp as ->. simpl in A. unfold ret in A. now injection A.
  - injection H as <- <-. exists []. split; [reflexivity|constructor].
Qed.

End ChainFacts.



Module ReturnFacts.
Import Parser ParserNotions ParserFacts.

(** Where the current token is [t], a method that reads it and goes on. *)
Lemma matchAny_run {A} (p : Parser) (t : Token) types (k : bool -> M Parser A) :
  current p = Some t ->
  bind (matchAny types) k p = k (existsb (TokenType_eqb (type t)) types) p.
Proof. intros C. now rewrite (bind_run _ _ _ _ _ (matchAny_at p t types C)). Qed.

Lemma currentToken_run {A} (p : Parser) (t : Token) (k : Token -> M Parser A) :
  current p = Some t -> bind currentToken k p = k t p.
Proof. intros C. unfold bind, currentToken. now rewrite C. Qed.

(** A statement cannot begin with a semicolon: with fuel to get to
    [parsePrimary], [parseStatement] throws there. *)
Lemma parseStatement_semicolon (p : Parser) (s : Token) (fuel : nat) :
  current p = Some s -> type s = SEMICOLON ->
  parseStatement (13 + fuel) p
  = Throw (PiperError "Unexpected token ';'" (source p)
             (line (loc s)) (column (loc s))).
Proof.
  intros C T.
  cbn [Nat.add parseStatement].
  repeat (rewrite (matchAny_run p s _ _ C); rewrite T; cbn [existsb TokenType_eqb orb]).
  rewrite (currentToken_run p s _ C). rewrite T. cbn [TokenType_eqb].
  change (bind (ret false) ?k p) with (k false p). cbv beta iota.
  cbn [parseExpression parsePipe parseLogicalOr parseLogicalAnd parseEquality
       parseComparison parseAdditive parseMultiplicative parseUnary parseCall
       parsePrimary].
  rewrite !bind_assoc.
  rewrite (matchAny_run p s _ _ C). rewrite T. cbn [existsb TokenType_eqb orb].
  rewrite !bind_assoc.
  rewrite (currentToken_run p s _ C). rewrite T.
  reflexivity.
Qed.

End ReturnFacts.

Module ReturnFacts2.
Import Parser ParserNotions ParserFacts ReturnFacts.

Lemma current_nth (p : Parser) (t : Token) :
  nth_error (tokens p) (pos p) = Some t -> current p = Some t.
Proof. intros N. unfold current, tokenOrLast. now rewrite N. Qed.

(** [return] before a semicolon: the statement ends before the semicolon,
    which stays. *)
Lemma parseStatement_return (p : Parser) (r s : Token) (fuel : nat) :
  nth_error (tokens p) (pos p) = Some r -> type r = RETURN ->
  nth_error (tokens p) (S (pos p)) = Some s -> type s = SEMICOLON ->
  parseStatement (2 + fuel) p
  = Ok (ReturnStatement None (Some (loc r))) (next p).
Proof.
  intros Nr Tr Ns Ts. pose proof (current_nth _ _ Nr) as Cr.
  assert (Cs : current (next p) = Some s) by (apply current_nth; exact Ns).
  cbn [Nat.add parseStatement].
  repeat (rewrite (matchAny_run p r _ _ Cr); rewrite Tr;
          cbn [existsb TokenType_eqb orb]).
  cbn [parseReturnStatement].
  rewrite (bind_run _ _ _ _ _ (SafeFacts.advanceLoc_run p r Nr)).
  rewrite (matchAny_run _ s _ _ Cs). rewrite Ts. reflexivity.
Qed.

End ReturnFacts2.

(** X12: a [return] with a semicolon right after it does not parse.
    [parseReturnStatement] returns the statement without a value and leaves
    the semicolon where it is; the statement that the loop of [parse], or of
    a block, asks for next begins with that semicolon, and [parsePrimary]
    throws [Unexpected token ';'] at it.  So [fn f() { return; }] is an
    error, where [fn f() { return }] parses. *)
Theorem X12_return_before_a_semicolon_is_an_error
    (p : Parser.Parser) (r s : Token) (n fuel : nat) (done : list ASTNode) :
  nth_error (Parser.tokens p) (Parser.pos p) = Some r -> type r = RETURN ->
  nth_error (Parser.tokens p) (S (Parser.pos p)) = Some s ->
  type s = SEMICOLON ->
  Parser.parseStatement (2 + fuel) p
  = Ok (ReturnStatement None (Some (loc r))) (ParserNotions.next p)
  /\ Parser.programLoop (2 + n) (Parser.parseStatement (13 + fuel)) done p
     = Throw (PiperError "Unexpected token ';'" (Parser.source p)
                (line (loc s)) (column (loc s)))
  /\ Parser.blockLoop (2 + n) (Parser.parseStatement (13 + fuel)) done p
     = Throw (PiperError "Unexpected token ';'" (Parser.source p)
                (line (loc s)) (column (loc s)))
  /\ parseSource 100 "fn f() { return; }"
     = Throw (PiperError "Unexpected token ';'" "fn f() { return; }" 1 16)
  /\ parseSource 100 "fn f() { return }"
     = Ok (Program
             [FunctionDeclaration "f" []
                (BlockExpression [ReturnStatement None (at_ 1 10)] (at_ 1 8))
                false (at_ 1 1)]) tt.
Proof.
  intros Nr Tr Ns Ts.
  pose proof (ReturnFacts2.current_nth _ _ Nr) as Cr.
  assert (Cs : Parser.current (ParserNotions.next p) = Some s)
    by (apply ReturnFacts2.current_nth; exact Ns).
  pose proof (ReturnFacts2.parseStatement_return p r s (11 + fuel) Nr Tr Ns Ts)
    as R.
  pose proof (ReturnFacts.parseStatement_semicolon _ s fuel Cs Ts) as S.
  change (2 + (11 + fuel)) with (13 + fuel) in R. simpl Parser.source in S.
  split; [now apply ReturnFacts2.parseStatement_return with (s := s)|].
  split; [|split; [|split; vm_compute; reflexivity]].
  - remember (13 + fuel) as F. cbn [Nat.add Parser.programLoop].
    rewrite (ReturnFacts.currentToken_run p r _ Cr). rewrite Tr.
    cbn [TokenType_eqb negb].
    rewrite (bind_run _ _ _ _ _ R).
    rewrite (ReturnFacts.currentToken_run _ s _ Cs). rewrite Ts.
    cbn [TokenType_eqb negb]. unfold bind. now rewrite S.
  - remember (13 + fuel) as F. cbn [Nat.add Parser.blockLoop].
    rewrite !(ReturnFacts.matchAny_run p r _ _ Cr). rewrite Tr.
    cbn [existsb TokenType_eqb orb negb andb].
    rewrite (bind_run _ _ _ _ _ R).
    rewrite !(ReturnFacts.matchAny_run _ s _ _ Cs). rewrite Ts.
    cbn [existsb TokenType_eqb orb negb andb]. unfold bind. now rewrite S.
Qed.

Lemma X12_return_before_a_semicolon_is_an_error_witness :
  Parser.programLoop 2 (Parser.parseStatement 13) []
    (Parser.mkParser
       [mkToken RETURN "return" (mkLoc 1 1); mkToken SEMICOLON ";" (mkLoc 1 7);
        mkToken EOF EmptyString (mkLoc 1 8)] "return;" 0)
  = Throw (PiperError "Unexpected token ';'" "return;" 1 7).
Proof.
  refine (proj1 (proj2
    (X12_return_before_a_semicolon_is_an_error
       (Parser.mkParser
          [mkToken RETURN "return" (mkLoc 1 1); mkToken SEMICOLON ";" (mkLoc 1 7);
           mkToken EOF EmptyString (mkLoc 1 8)] "return;" 0)
       (mkToken RETURN "return" (mkLoc 1 1)) (mkToken SEMICOLON ";" (mkLoc 1 7))
       0 0 [] _ _ _ _))); reflexivity.
Defined.

Module AppendFacts.
Import CodeGenerator GenNotions GenFacts.

Lemma append_cancel (a b c : string) : a ++ b = a ++ c -> b = c.
Proof.
  induction a as [|x a IH]; simpl; intros H; [exact H|].
  injection H as H. now apply IH.
Qed.

Lemma generateStatements_app (a b : list ASTNode) g :
  generateStatements (a ++ b)%list g
  = (generateStatements a ;; generateStatements b) g.
Proof.
  revert g. induction a as [|x a IH]; intros g; [reflexivity|].
  change (generateStatements (x :: a))
    with (generateNode x ;; generateStatements a).
  rewrite bind_assoc.
  change (generateStatements ((x :: a) ++ b)%list)
    with (generateNode x ;; generateStatements (a ++ b)%list).
  apply bind_ext. intros _ s'. apply IH.
Qed.

(** What [generate] returns for a program, on a new instance, is the
    preamble and what its statements push. *)
Lemma generate_new (body : list ASTNode) (lines : string) :
  result (generate (Program body) new) = generated lines <->
  exists delta,
    lines = join EmptyString delta
    /\ forall g out,
         indentLevel g = 0 ->
         generateStatements body (withOutput g out)
         = Ok tt (withOutput g (out ++ delta)%list).
Proof.
  unfold generate, generated. split.
  - intros H.
    destruct ((emit preamble;; generateStatements body;;
               out <- getOutput;; ret (join EmptyString out)) new)
      as [s g'| e |] eqn:E; try discriminate H.
    injection H as H.
    apply bind_Ok in E as ([] & g0 & E0 & E). injection E0 as <-.
    apply bind_Ok in E as ([] & g1 & E1 & E). injection E as <- <-.
    destruct (generateStatements_Appending body _ _ _ E1)
      as (delta & -> & Hout).
    unfold withOutput, new in H. cbn [output indentLevel app] in H.
    rewrite join_empty_cons in H.
    assert (H' : join EmptyString delta = lines)
      by (apply (append_cancel preamble); exact H).
    exists delta. split; [now symmetry|].
    intros g out Hg. specialize (Hout out).
    destruct g as [lvl o]. simpl in Hg. subst lvl. exact Hout.
  - intros (delta & -> & Hout).
    specialize (Hout new [preamble] eq_refl).
    rewrite (bind_run _ _ _ _ _
               (eq_refl : emit preamble new = Ok tt (withOutput new [preamble]))).
    rewrite (bind_run _ _ _ _ _ Hout).
    unfold bind, getOutput, ret, withOutput, result. cbn [output].
    change ([preamble] ++ delta)%list with (preamble :: delta).
    now rewrite join_empty_cons.
Qed.

End AppendFacts.

(** X13: [generateExpression], when it returns, leaves the instance as it
    found it, the buffer and the indentation it changes for a block or a
    lambda included, and returns the same text whatever the buffer holds;
    [generateNode], when it returns, has only pushed strings on the buffer,
    the same strings whatever the buffer held, and has the indentation back
    where it was. *)
Theorem X13_expressions_leave_the_buffer_alone
    (e s : ASTNode) (g g' h h' : CodeGenerator.CodeGenerator) (text : string) :
  CodeGenerator.generateExpression e g = Ok text g' ->
  CodeGenerator.generateNode s h = Ok tt h' ->
  g' = g
  /\ (forall out,
        CodeGenerator.generateExpression e (GenNotions.withOutput g out)
        = Ok text (GenNotions.withOutput g out))
  /\ exists pushed,
       h' = GenNotions.withOutput h (CodeGenerator.output h ++ pushed)%list
       /\ forall out,
            CodeGenerator.generateNode s (GenNotions.withOutput h out)
            = Ok tt (GenNotions.withOutput h (out ++ pushed)%list).
Proof.
  intros He Hs.
  destruct (GenFacts.generateExpression_Pure e _ _ _ He) as [-> Hout].
  split; [reflexivity|]. split; [exact Hout|].
  exact (GenFacts.generateNode_Appending s _ _ _ Hs).
Qed.

Lemma X13_expressions_leave_the_buffer_alone_witness :
  CodeGenerator.mkCodeGenerator 2 ["a"] = CodeGenerator.mkCodeGenerator 2 ["a"]
  /\ (forall out,
        CodeGenerator.generateExpression
          (BlockExpression [] None)
          (GenNotions.withOutput (CodeGenerator.mkCodeGenerator 2 ["a"]) out)
        = Ok ("(() => {" ++ LFs ++ "      return undefined;" ++ LFs ++ "    })()")
            (GenNotions.withOutput (CodeGenerator.mkCodeGenerator 2 ["a"]) out))
  /\ exists pushed,
       CodeGenerator.mkCodeGenerator 1 ["b"; "  return;" ++ LFs]
       = GenNotions.withOutput (CodeGenerator.mkCodeGenerator 1 ["b"])
           (["b"] ++ pushed)%list
       /\ forall out,
            CodeGenerator.generateNode (ReturnStatement None None)
              (GenNotions.withOutput (CodeGenerator.mkCodeGenerator 1 ["b"]) out)
            = Ok tt (GenNotions.withOutput (CodeGenerator.mkCodeGenerator 1 ["b"])
                       (out ++ pushed)%list).
Proof.
  apply (X13_expressions_leave_the_buffer_alone
           (BlockExpression [] None) (ReturnStatement None None)
           (CodeGenerator.mkCodeGenerator 2 ["a"])
           (CodeGenerator.mkCodeGenerator 2 ["a"])
           (CodeGenerator.mkCodeGenerator 1 ["b"])
           (CodeGenerator.mkCodeGenerator 1 ["b"; "  return;" ++ LFs]));
    reflexivity.
Defined.

(** X14: the text of a program is the preamble and then the texts of its
    statements, one after the other: when two lists of statements each
    generate, on a new instance, the preamble and some lines, the program
    of the first list followed by the second generates the preamble, the
    lines of the first and the lines of the second. *)
Theorem X14_programs_concatenate
    (a b : list ASTNode) (la lb : string) :
  result (CodeGenerator.generate (Program a) CodeGenerator.new) = generated la ->
  result (CodeGenerator.generate (Program b) CodeGenerator.new) = generated lb ->
  result (CodeGenerator.generate (Program (a ++ b)%list) CodeGenerator.new)
  = generated (la ++ lb).
Proof.
  intros Ha Hb.
  apply AppendFacts.generate_new in Ha as (da & -> & Hda).
  apply AppendFacts.generate_new in Hb as (db & -> & Hdb).
  apply AppendFacts.generate_new. exists (da ++ db)%list.
  split; [now rewrite join_empty_app|].
  intros g out Hg. rewrite AppendFacts.generateStatements_app.
  rewrite (bind_run _ _ _ _ _ (Hda g out Hg)).
  rewrite (Hdb g (out ++ da)%list Hg). now rewrite app_assoc.
Qed.

Lemma X14_programs_concatenate_witness :
  result
    (CodeGenerator.generate
       (Program ([LetDeclaration "x" (num "1" 1 9) (at_ 1 1)]
                 ++ [ExpressionStatement (ident "x" 2 1) (at_ 2 1)])%list)
       CodeGenerator.new)
  = generated (("const x = 1;" ++ LFs) ++ ("x;" ++ LFs)).
Proof.
  apply X14_programs_concatenate; reflexivity.
Defined.

(** X15: a block in expression position is generated as the call, with no
    argument, of the lambda without parameters that has the block as its
    body: the text of the block is the text of that lambda followed by
    [()], and the block throws what the lambda throws. *)
Theorem X15_block_is_a_called_lambda
    (statements : list ASTNode) (l l1 l2 : option SourceLocation)
    (g : CodeGenerator.CodeGenerator) :
  CodeGenerator.generateExpression (BlockExpression statements l) g
  = (text <- CodeGenerator.generateExpression
               (Lambda [] (BlockExpression statements l1) l2) ;;
     ret (text ++ "()")) g.
Proof.
  simpl. unfold bind, CodeGenerator.indentMore, CodeGenerator.getOutput,
    CodeGenerator.setOutput, CodeGenerator.indentLess, CodeGenerator.indent,
    ret. simpl.
  destruct (CodeGenerator.blockBodyWith _ _ statements _) as [u g1| e |];
    try reflexivity.
  f_equal. unfold join. simpl.
  now rewrite !append_assoc.
Qed.

Module ReportFacts.
Import Errors.

Lemma splitLF_length (s : string) :
  List.length (snd (splitLF s)) = lineBreaks s.
Proof.
  induction s as [|c s IH]; [reflexivity|]. simpl.
  destruct (splitLF s) as [first others]. simpl in IH.
  destruct (Ascii.eqb c LF); simpl; now rewrite IH.
Qed.

Lemma splitLines_length (s : string) :
  List.length (splitLines s) = S (lineBreaks s).
Proof.
  unfold splitLines. pose proof (splitLF_length s) as H.
  destruct (splitLF s) as [first others]. simpl in *. now rewrite H.
Qed.

(** Where the lexer counts line [l'] and column [c'] after [n] characters,
    [split] has a piece for that line, and the column is one more than the
    characters of the piece that stand before the offset. *)
Lemma positionAfter_split (s : string) :
  forall n l c, n <= String.length s ->
    let p := positionAfter s n l c in
    (line p = l /\ column p = c + n
     /\ fst (splitLF s) = substring 0 n s ++ lineFrom (dropChars n s))
    \/ (l < line p
        /\ exists before,
             nth_error (snd (splitLF s)) (line p - l - 1)
             = Some (before ++ lineFrom (dropChars n s))
             /\ column p = S (String.length before)
             /\ String.length before < n
             /\ before
                = substring (n - String.length before) (String.length before) s).
Proof.
  induction s as [|ch s IH]; intros n l c Hn.
  - simpl in Hn. replace n with 0 by lia. left. simpl. auto.
  - destruct n as [|n].
    + left. simpl. rewrite Nat.add_0_r. repeat split.
    + simpl in Hn. apply le_S_n in Hn.
      change (positionAfter (String ch s) (S n) l c)
        with (if Ascii.eqb ch LF then positionAfter s n (S l) 1
              else positionAfter s n l (S c)).
      change (dropChars (S n) (String ch s)) with (dropChars n s).
      simpl splitLF. destruct (splitLF s) as [first others] eqn:E.
      destruct (Ascii.eqb ch LF) eqn:EL.
      * right. specialize (IH n (S l) 1 Hn). cbv zeta in IH. cbv zeta.
        destruct IH as [(Hl & Hc & Hf)|(Hl & before & Hb & Hc & Hlt & Hs)].
        -- split; [lia|]. exists (substring 0 n s).
           assert (Len : String.length (substring 0 n s) = n)
             by (apply TextFacts.length_substring; lia).
           rewrite Len. simpl snd. rewrite Hl.
           replace (S l - l - 1) with 0 by lia. simpl nth_error.
           simpl in Hf. rewrite Hf. split; [reflexivity|].
           split; [lia|]. split; [lia|].
           replace (S n - n) with 1 by lia. reflexivity.
        -- split; [lia|]. exists before. simpl snd.
           replace (line (positionAfter s n (S l) 1) - l - 1)
             with (S (line (positionAfter s n (S l) 1) - S l - 1)) by lia.
           simpl nth_error. simpl snd in Hb. rewrite Hb.
           split; [reflexivity|]. split; [assumption|]. split; [lia|].
           replace (S n - String.length before)
             with (S (n - String.length before)) by lia.
           exact Hs.
      * specialize (IH n l (S c) Hn). cbv zeta in IH. cbv zeta.
        destruct IH as [(Hl & Hc & Hf)|(Hl & before & Hb & Hc & Hlt & Hs)].
        -- left. split; [assumption|]. split; [lia|].
           simpl fst. simpl in Hf. rewrite Hf. reflexivity.
        -- right. split; [assumption|]. exists before. simpl snd in *.
           split; [assumption|]. split; [assumption|]. split; [lia|].
           replace (S n - String.length before)
             with (S (n - String.length before)) by lia.
           exact Hs.
Qed.

(** The report of an error at an offset of the text. *)
Lemma formatError_at (msg src : string) (filePath : option string) (o : nat) :
  o <= String.length src ->
  exists before,
    formatError msg src filePath
      (line (positionOf src o)) (column (positionOf src o))
    = Text (reportAt msg src (shownPath filePath) o before)
    /\ String.length before <= o
    /\ before = substring (o - String.length before) (String.length before) src.
Proof.
  intros Ho. unfold positionOf.
  destruct (positionAfter_split src o 1 1 Ho)
    as [(Hl & Hc & Hf)|(Hl & before & Hb & Hc & Hlt & Hs)].
  - exists (substring 0 o src).
    assert (Len : String.length (substring 0 o src) = o)
      by (apply TextFacts.length_substring; lia).
    rewrite Len, Nat.sub_diag. split; [|split; [lia|reflexivity]].
    unfold formatError, reportAt, positionOf, splitLines.
    rewrite Hl, Hc, Len. destruct (splitLF src) as [first others].
    simpl in Hf. simpl nth_error. rewrite Hf. reflexivity.
  - exists before. split; [|split; [lia|assumption]].
    unfold formatError, reportAt, positionOf, splitLines.
    rewrite Hc. destruct (splitLF src) as [first others].
    simpl snd in Hb.
    destruct (line (positionAfter src o 1 1)) as [|[|i]] eqn:E; try lia.
    simpl nth_error.
    replace (S (S i) - 1 - 1) with i in Hb by lia. rewrite Hb. reflexivity.
Qed.

(** The pieces of [split] are as many as the line breaks and one. *)
Lemma sourceLine_defined (src : string) (l : nat) :
  match l with 0 => None | S i => nth_error (splitLines src) i end = None
  <-> l = 0 \/ S (lineBreaks src) < l.
Proof.
  destruct l as [|i]; [intuition|].
  rewrite nth_error_None, splitLines_length. lia.
Qed.

Lemma formatError_rangeError
    (msg src : string) (filePath : option string) (l c : nat) :
  formatError msg src filePath l c = RangeError
  <-> c = 0 /\ 1 <= l <= S (lineBreaks src).
Proof.
  pose proof (sourceLine_defined src l) as D. unfold formatError.
  destruct (match l with 0 => None | S i => nth_error (splitLines src) i end)
    as [sourceLine|].
  - assert (1 <= l <= S (lineBreaks src)).
    { destruct (Nat.eq_dec l 0) as [->|]; [|destruct (le_lt_dec l (S (lineBreaks src))); [lia|]];
        exfalso; assert (E : Some sourceLine = None) by (apply D; auto; lia);
        discriminate E. }
    destruct c; split; intros; try discriminate; intuition; lia.
  - split; [discriminate|]. intros [_ B].
    destruct D as [D _]. specialize (D eq_refl). lia.
Qed.

Lemma formatError_head
    (msg src : string) (filePath : option string) (l c : nat) :
  l = 0 \/ S (lineBreaks src) < l ->
  formatError msg src filePath l c
  = Text (join LFs (reportHead msg (shownPath filePath) l c)).
Proof.
  intros B. apply sourceLine_defined in B. unfold formatError.
  now rewrite B.
Qed.

Lemma compile_report
    (fuel : nat) (src msg s : string) (l c : nat) :
  compile fuel src = Throw (PiperError msg s l c) ->
  exists o,
    s = src /\ o <= String.length src /\ mkLoc l c = positionOf src o.
Proof.
  intros H. apply PipelineFacts.compile_throws in H.
  destruct H as [[(start & E)|(ch & at_ & E)]|[(m & o & Ho & E)|(r & _ & E)]];
    try discriminate E.
  injection E as -> -> -> ->. exists o. repeat split; try assumption.
  now destruct (positionOf src o).
Qed.

End ReportFacts.

(** X16: an error of the parser that [compile] throws is an error at an
    offset of the text it compiles, and [formatError] reports it with the
    line of the text that holds the offset and a caret under the offset:
    the line shown is the text of the line before the offset followed by
    the text from the offset to the end of the line, and the caret comes
    after as many blanks as the former has characters.  The report is then
    never the head alone, and never a [RangeError]. *)
Theorem X16_parse_errors_are_reported_in_their_line
    (fuel : nat) (src msg s : string) (l c : nat) (filePath : option string) :
  compile fuel src = Throw (PiperError msg s l c) ->
  exists o before,
    s = src /\ o <= String.length src /\ mkLoc l c = positionOf src o
    /\ String.length before <= o
    /\ before = substring (o - String.length before) (String.length before) src
    /\ Errors.formatError msg s filePath l c
       = Errors.Text (reportAt msg src (shownPath filePath) o before).
Proof.
  intros H. apply ReportFacts.compile_report in H as (o & -> & Ho & E).
  destruct (ReportFacts.formatError_at msg src filePath o Ho)
    as (before & F & L & B).
  exists o, before. rewrite <- E in F. simpl in F. now repeat split.
Qed.

Lemma X16_parse_errors_are_reported_in_their_line_witness :
  exists o before,
    "let 1" = "let 1" /\ o <= String.length "let 1"
    /\ mkLoc 1 5 = positionOf "let 1" o
    /\ String.length before <= o
    /\ before = substring (o - String.length before) (String.length before)
                  "let 1"
    /\ Errors.formatError "Expected identifier but found number" "let 1"
         (Some "a.piper") 1 5
       = Errors.Text
           (reportAt "Expected identifier but found number" "let 1"
              (shownPath (Some "a.piper")) o before).
Proof.
  apply (X16_parse_errors_are_reported_in_their_line 40 "let 1").
  vm_compute. reflexivity.
Defined.

(** X17: [formatError] on an error whose line is not a line of its text, 0
    or more than the line breaks of the text and one, gives the message and
    the place alone; on an error at a line of the text it raises a
    [RangeError] when the column is 0, and only then. *)
Theorem X17_report_of_an_error_outside_the_text
    (msg src : string) (filePath : option string) (l c : nat) :
  (l = 0 \/ S (lineBreaks src) < l ->
   Errors.formatError msg src filePath l c
   = Errors.Text (join LFs (reportHead msg (shownPath filePath) l c)))
  /\ (Errors.formatError msg src filePath l c = Errors.RangeError
      <-> c = 0 /\ 1 <= l <= S (lineBreaks src)).
Proof.
  split; [apply ReportFacts.formatError_head|apply ReportFacts.formatError_rangeError].
Qed.

Lemma X17_report_of_an_error_outside_the_text_witness :
  Errors.formatError "m" ("a" ++ LFs ++ "b") None 3 0
  = Errors.Text ("error: m" ++ LFs ++ LFs ++ "  --> <input>:3:0")
  /\ (Errors.formatError "m" ("a" ++ LFs ++ "b") None 2 0 = Errors.RangeError
      <-> 0 = 0 /\ 1 <= 2 <= 2).
Proof.
  destruct (X17_report_of_an_error_outside_the_text
              "m" ("a" ++ LFs ++ "b") None 3 0) as [H _].
  destruct (X17_report_of_an_error_outside_the_text
              "m" ("a" ++ LFs ++ "b") None 2 0) as [_ R].
  split; [apply H; right; simpl; lia|exact R].
Defined.
